(** * Parallel discrete convolutions: the convolution core, embedded in Rocq

    The repository holds two variants of one program.  Both define [conv2d]
    (serial) and [parallel_conv2d] (OpenMP):

    - in one variant both functions handle the border of the feature map by
      a bounds check in the innermost loop ("logical zero padding"); it is
      embedded in [Module Logical] and called the logical variant below;
    - [conv2d.c] is the other variant: its serial [conv2d] reads a feature
      map that has been copied into a larger, zero-filled buffer, and its
      [parallel_conv2d] carries the bounds check; it is embedded in
      [Module Padded].

    Conventions of the embedding.

    - A C [int] is a [Z]; [/] and [%] are C's truncating [Z.quot] and
      [Z.rem].  Signed overflow has no meaning in C, so the theorems speak
      of runs whose index arithmetic stays in the range of [int].
    - A [float*] is the memory seen through the pointer: a total map from
      element offsets to values.  An offset outside the allocation yields
      whatever the map holds there; the definitions never hide such a read,
      and [cell_reads] lists the offsets a cell consults.
    - The output array additionally records the offsets stored to, in the
      order of the stores.
    - The arithmetic on [float] is a parameter ([Scalar]); [binary32] is
      IEEE 754 single precision as specified by [SpecFloat] (precision 24,
      [emax] 128, round to nearest even), every product and every sum
      rounded on its own, and [exactZ] is exact integer arithmetic.
    - [#pragma omp parallel for collapse(2)] runs the iterations of the two
      outer loops in an order the program does not fix: [parallel_conv2d]
      takes that order, [sched], as an argument.
    - [#pragma omp simd collapse(2) reduction(+:result)] leaves open in
      which order the products of a window are added up.
      [parallel_conv2d] is the run that adds them in program order, which
      is what the loops do when they are not vectorised;
      [parallel_conv2d_simd] takes the order, a [reduction] per cell, as
      an argument. *)

From Stdlib Require Import ZArith List Lia Bool Permutation.
From Stdlib Require Import SpecFloat QArith Qabs Lqa.
Import ListNotations.

#[local] Open Scope Z_scope.

(** ** Scalars *)

Class Scalar (F : Type) : Type := {
  fzero : F;
  fadd : F -> F -> F;
  fmul : F -> F -> F
}.

(** Addition without rounding: associative and commutative. *)
Class ExactAdd (F : Type) `{Scalar F} : Prop := {
  fadd_comm : forall x y : F, fadd x y = fadd y x;
  fadd_assoc : forall x y z : F, fadd (fadd x y) z = fadd x (fadd y z)
}.

(** ** C constructs *)

(** [#define IDX(row, col, stride) ((row) * (stride) + (col))] *)
Definition IDX (row col stride : Z) : Z := row * stride + col.

(** The body of a counting loop run [count] times from [i] upwards. *)
Fixpoint iterate {S : Type} (count : nat) (i : Z) (body : Z -> S -> S) (s : S) : S :=
  match count with
  | O => s
  | Datatypes.S c => iterate c (i + 1) body (body i s)
  end.

(** [for (int i = lo; i < hi; i++) body] *)
Definition for_lt {S : Type} (lo hi : Z) (body : Z -> S -> S) (s : S) : S :=
  iterate (Z.to_nat (hi - lo)) lo body s.

(** [for (int i = lo; i <= hi; i++) body] *)
Definition for_le {S : Type} (lo hi : Z) (body : Z -> S -> S) (s : S) : S :=
  iterate (Z.to_nat (hi + 1 - lo)) lo body s.

(** The values the loop variable of [for (i = lo; i <= hi; i++)] takes. *)
Definition le_values (lo hi : Z) : list Z :=
  for_le lo hi (fun i seen => seen ++ [i]) [].

(** The values the loop variable of [for (i = lo; i < hi; i++)] takes. *)
Definition lt_values (lo hi : Z) : list Z :=
  for_lt lo hi (fun i seen => seen ++ [i]) [].

(** [count] consecutive integers from [i]. *)
Fixpoint zseq (count : nat) (i : Z) : list Z :=
  match count with
  | O => []
  | Datatypes.S c => i :: zseq c (i + 1)
  end.

(** ** Memory *)

(** Memory read through a [float*]. *)
Definition mem (F : Type) : Type := Z -> F.

(** A buffer holding the elements of [l] from offset 0 on; [junk] is what
    lies around the allocation. *)
Definition mem_of_list {F : Type} (junk : F) (l : list F) : mem F :=
  fun idx => if idx <? 0 then junk else nth (Z.to_nat idx) l junk.

(** Memory written through a [float*], with the offsets stored to. *)
Record outbuf (F : Type) : Type := {
  cells : mem F;
  written : list Z
}.
Arguments cells {F} _ _.
Arguments written {F} _.
Arguments Build_outbuf {F} _ _.

(** [out[idx] = v] *)
Definition store {F : Type} (out : outbuf F) (idx : Z) (v : F) : outbuf F :=
  {| cells := fun a => if a =? idx then v else cells out a;
     written := written out ++ [idx] |}.

(** An output array nothing has been stored to. *)
Definition fresh {F : Type} (init : F) : outbuf F :=
  {| cells := fun _ => init; written := [] |}.

(** [typedef struct { float* arr; char* padding; } float_array;]
    [padding] is the size of the block behind the pointer, if any. *)
Record float_array (F : Type) : Type := {
  arr : outbuf F;
  padding : option Z
}.
Arguments arr {F} _.
Arguments padding {F} _.
Arguments Build_float_array {F} _ _.

(** ** OpenMP *)

(** The iteration space of two collapsed loops
    [for (n = 0; n < H; n++) for (k = 0; k < W; k++)], in program order. *)
Definition iteration_space (H W : Z) : list (Z * Z) :=
  for_lt 0 H (fun n seen => for_lt 0 W (fun k seen => seen ++ [(n, k)]) seen) [].

(** [#pragma omp parallel for collapse(2)]: the iterations are handed to the
    workers in some order [sched]; an admissible [sched] is a permutation of
    the iteration space. *)
Definition omp_for_collapse2 {S : Type} (sched : list (Z * Z))
    (body : Z -> Z -> S -> S) (s : S) : S :=
  fold_left (fun s nk => body (fst nk) (snd nk) s) sched s.

Definition schedule_of (H W : Z) (sched : list (Z * Z)) : Prop :=
  Permutation sched (iteration_space H W).

(** ** Window geometry, as both variants compute it *)

(** [const int M = (kH / 2);] *)
Definition half (kdim : Z) : Z := Z.quot kdim 2.

(** [const int M_offset = kH % 2 == 0 ? 1 : 0;] *)
Definition even_offset (kdim : Z) : Z := if Z.rem kdim 2 =? 0 then 1 else 0.

(** The tap offsets the loop
    [for (int i = -M; i <= M - M_offset; i++)] goes through. *)
Definition tap_offsets (kdim : Z) : list Z :=
  le_values (- half kdim) (half kdim - even_offset kdim).

(** ** The reduction over the window

    [#pragma omp simd collapse(2) reduction(+:result)] stands on the two
    loops of the window in [parallel_conv2d]: every lane adds the products
    of the iterations it takes to a private copy of [result] that starts at
    [0.0], and when the loops end the copies are added to the original
    [result], which is [0.0].  Which iterations a lane takes and in which
    order the copies are combined is not fixed by the program.  A
    [reduction] is one way of adding up: [Start] is the [0.0] a copy starts
    with, [Iteration j i] the product of iteration [(j, i)], and [Combine]
    one addition. *)
Inductive reduction : Type :=
| Start : reduction
| Iteration (j i : Z) : reduction
| Combine (a b : reduction) : reduction.

(** The iterations a reduction adds up, from left to right. *)
Fixpoint iterations (r : reduction) : list (Z * Z) :=
  match r with
  | Start => []
  | Iteration j i => [(j, i)]
  | Combine a b => iterations a ++ iterations b
  end.

(** The value a reduction leaves in [result], where [product j i] is what
    iteration [(j, i)] adds. *)
Fixpoint reduce {F : Type} {ops : Scalar F} (product : Z -> Z -> F)
    (r : reduction) : F :=
  match r with
  | Start => fzero
  | Iteration j i => product j i
  | Combine a b => fadd (reduce product a) (reduce product b)
  end.

(** The longest chain of additions in a reduction. *)
Fixpoint height (r : reduction) : nat :=
  match r with
  | Start => O
  | Iteration _ _ => O
  | Combine a b => S (Nat.max (height a) (height b))
  end.

(** [result += ...] once per iteration of [l], in the order of [l], on a
    [result] that starts at [0.0]: a loop without the pragma. *)
Definition in_order (l : list (Z * Z)) : reduction :=
  fold_left (fun r ji => Combine r (Iteration (fst ji) (snd ji))) l Start.

(** The iterations [(j, i)] of the loops of the window in [conv2d], rows
    outermost, in program order. *)
Definition serial_space (kH kW : Z) : list (Z * Z) :=
  let M := half kH in
  let N := half kW in
  let M_offset := even_offset kH in
  let N_offset := even_offset kW in
  for_le (- M) (M - M_offset) (fun i seen =>
    for_le (- N) (N - N_offset) (fun j seen => seen ++ [(j, i)]) seen) [].

(** The iterations [(j, i)] of the loops of the window in
    [parallel_conv2d], columns outermost, in program order. *)
Definition simd_space (kH kW : Z) : list (Z * Z) :=
  let M := half kH in
  let N := half kW in
  let M_offset := even_offset kH in
  let N_offset := even_offset kW in
  for_le (- N) (N - N_offset) (fun j seen =>
    for_le (- M) (M - M_offset) (fun i seen => seen ++ [(j, i)]) seen) [].

(** A reduction of the collapsed loops adds up every iteration once. *)
Definition reduction_of (kH kW : Z) (r : reduction) : Prop :=
  Permutation (iterations r) (simd_space kH kW).

(** ** The variant with logical zero padding *)

Module Logical.
Section WithScalar.
Context {F : Type} {ops : Scalar F}.

(** The test guarding the read of the feature map, as written:
    [col >= 0 && col < H && col >= 0 && row < W]. *)
Definition guard (H W col row : Z) : bool :=
  (col >=? 0) && (col <? H) && (col >=? 0) && (row <? W).

(** The value [f_val] of one tap. *)
Definition tap_value (f : mem F) (H W n k i j : Z) : F :=
  let col := n + i in
  let row := k + j in
  let f_val := fzero in
  if guard H W col row then f (IDX col row W) else f_val.

(** The innermost statement: [result += f_val * g[IDX(i+M, j+N, kW)];] *)
Definition tap (f : mem F) (H W : Z) (g : mem F) (kW M N n k i j : Z)
    (result : F) : F :=
  let f_val := tap_value f H W n k i j in
  fadd result (fmul f_val (g (IDX (i + M) (j + N) kW))).

(** The body of the two outer loops of [conv2d] up to the store: rows of
    the window outermost. *)
Definition conv2d_cell (f : mem F) (H W : Z) (g : mem F) (kH kW n k : Z) : F :=
  let M := half kH in
  let N := half kW in
  let M_offset := even_offset kH in
  let N_offset := even_offset kW in
  let result := fzero in
  for_le (- M) (M - M_offset) (fun i result =>
    for_le (- N) (N - N_offset) (fun j result =>
      tap f H W g kW M N n k i j result) result) result.

(** [int conv2d(float* f, int H, int W, float* g, int kH, int kW, float* output)] *)
Definition conv2d (f : mem F) (H W : Z) (g : mem F) (kH kW : Z)
    (output : outbuf F) : Z * outbuf F :=
  let output :=
    for_lt 0 H (fun n output =>
      for_lt 0 W (fun k output =>
        let result := conv2d_cell f H W g kH kW n k in
        store output (IDX n k W) result) output) output in
  (0, output).

(** The body of the collapsed loops of [parallel_conv2d] up to the store:
    columns of the window outermost.  The [omp simd reduction] on the two
    inner loops is taken in program order here; [parallel_conv2d_cell_simd]
    below leaves its order open. *)
Definition parallel_conv2d_cell (f : mem F) (H W : Z) (g : mem F)
    (kH kW n k : Z) : F :=
  let M := half kH in
  let N := half kW in
  let M_offset := even_offset kH in
  let N_offset := even_offset kW in
  let result := fzero in
  for_le (- N) (N - N_offset) (fun j result =>
    for_le (- M) (M - M_offset) (fun i result =>
      tap f H W g kW M N n k i j result) result) result.

(** [int parallel_conv2d(float* f, int H, int W, float* g, int kH, int kW,
    float_array padded_output)] *)
Definition parallel_conv2d (sched : list (Z * Z)) (f : mem F) (H W : Z)
    (g : mem F) (kH kW : Z) (padded_output : float_array F)
    : Z * float_array F :=
  let out :=
    omp_for_collapse2 sched (fun n k out =>
      let result := parallel_conv2d_cell f H W g kH kW n k in
      store out (IDX n k W) result) (arr padded_output) in
  (0, {| arr := out; padding := padding padded_output |}).

(** The offsets of [f] one cell consults, in the order of [conv2d]. *)
Definition cell_reads (H W kH kW n k : Z) : list Z :=
  flat_map (fun i =>
    flat_map (fun j =>
      if guard H W (n + i) (k + j) then [IDX (n + i) (k + j) W] else [])
      (tap_offsets kW))
    (tap_offsets kH).

(** What iteration [(j, i)] of the window adds to [result]:
    [f_val * g[IDX(i+M, j+N, kW)]]. *)
Definition product (f : mem F) (H W : Z) (g : mem F) (kH kW n k j i : Z) : F :=
  let M := half kH in
  let N := half kW in
  let f_val := tap_value f H W n k i j in
  fmul f_val (g (IDX (i + M) (j + N) kW)).

(** The body of the collapsed loops of [parallel_conv2d] up to the store,
    with the order of the [omp simd reduction] left open: [red] is the way
    the products are added up. *)
Definition parallel_conv2d_cell_simd (red : reduction) (f : mem F) (H W : Z)
    (g : mem F) (kH kW n k : Z) : F :=
  reduce (product f H W g kH kW n k) red.

(** [parallel_conv2d] with both orders left open: [sched] for the collapsed
    outer loops and [red n k] for the reduction of cell [(n, k)]. *)
Definition parallel_conv2d_simd (sched : list (Z * Z))
    (red : Z -> Z -> reduction) (f : mem F) (H W : Z)
    (g : mem F) (kH kW : Z) (padded_output : float_array F)
    : Z * float_array F :=
  let out :=
    omp_for_collapse2 sched (fun n k out =>
      let result := parallel_conv2d_cell_simd (red n k) f H W g kH kW n k in
      store out (IDX n k W) result) (arr padded_output) in
  (0, {| arr := out; padding := padding padded_output |}).
End WithScalar.
End Logical.

(** ** The variant of [conv2d.c] *)

Module Padded.
Section WithScalar.
Context {F : Type} {ops : Scalar F}.

(** [int conv2d(float* f, int H, int W, float* g, int kH, int kW,
    int w_padding, int h_padding, float* output)]: [f] is the feature map
    inside a border of [h_padding] rows and [w_padding] columns. *)
Definition conv2d_cell (f : mem F) (W : Z) (g : mem F)
    (kH kW w_padding n k : Z) : F :=
  let total_width := W + w_padding * 2 in
  let M := half kH in
  let N := half kW in
  let M_offset := even_offset kH in
  let N_offset := even_offset kW in
  let result := fzero in
  for_le (- M) (M - M_offset) (fun i result =>
    for_le (- N) (N - N_offset) (fun j result =>
      fadd result
        (fmul (f (IDX (n + i) (k + j) total_width))
              (g (IDX (i + M) (j + N) kW)))) result) result.

Definition conv2d (f : mem F) (H W : Z) (g : mem F)
    (kH kW w_padding h_padding : Z) (output : outbuf F) : Z * outbuf F :=
  let total_height := H + h_padding * 2 in
  let total_width := W + w_padding * 2 in
  let output :=
    for_lt h_padding (total_height - h_padding) (fun n output =>
      for_lt w_padding (total_width - w_padding) (fun k output =>
        let result := conv2d_cell f W g kH kW w_padding n k in
        store output (IDX (n - h_padding) (k - w_padding) W) result) output)
      output in
  (0, output).

(** The test of [parallel_conv2d]:
    [COL >= 0 && COL < H && ROW >= 0 && ROW < W]. *)
Definition guard (H W col row : Z) : bool :=
  (col >=? 0) && (col <? H) && (row >=? 0) && (row <? W).

Definition tap_value (f : mem F) (H W n k i j : Z) : F :=
  let COL := n + i in
  let ROW := k + j in
  let f_val := fzero in
  if guard H W COL ROW then f (IDX COL ROW W) else f_val.

Definition tap (f : mem F) (H W : Z) (g : mem F) (kW M N n k i j : Z)
    (result : F) : F :=
  let f_val := tap_value f H W n k i j in
  fadd result (fmul f_val (g (IDX (i + M) (j + N) kW))).

Definition parallel_conv2d_cell (f : mem F) (H W : Z) (g : mem F)
    (kH kW n k : Z) : F :=
  let M := half kH in
  let N := half kW in
  let M_offset := even_offset kH in
  let N_offset := even_offset kW in
  let result := fzero in
  for_le (- N) (N - N_offset) (fun j result =>
    for_le (- M) (M - M_offset) (fun i result =>
      tap f H W g kW M N n k i j result) result) result.

(** [int parallel_conv2d(float* f, int H, int W, float* g, int kH, int kW,
    int w_padding, int h_padding, float_array padded_output)]; the two
    padding arguments are not used. *)
Definition parallel_conv2d (sched : list (Z * Z)) (f : mem F) (H W : Z)
    (g : mem F) (kH kW w_padding h_padding : Z)
    (padded_output : float_array F) : Z * float_array F :=
  let out :=
    omp_for_collapse2 sched (fun n k out =>
      let result := parallel_conv2d_cell f H W g kH kW n k in
      store out (IDX n k W) result) (arr padded_output) in
  (0, {| arr := out; padding := padding padded_output |}).

(** What iteration [(j, i)] of the window adds to [result] in [conv2d]:
    [f[IDX(n+i, k+j, total_width)] * g[IDX(i+M, j+N, kW)]]. *)
Definition conv2d_product (f : mem F) (W : Z) (g : mem F)
    (kH kW w_padding n k j i : Z) : F :=
  let total_width := W + w_padding * 2 in
  let M := half kH in
  let N := half kW in
  fmul (f (IDX (n + i) (k + j) total_width)) (g (IDX (i + M) (j + N) kW)).

(** What iteration [(j, i)] of the window adds to [result] in
    [parallel_conv2d]: [f_val * g[IDX(i+M, j+N, kW)]]. *)
Definition product (f : mem F) (H W : Z) (g : mem F) (kH kW n k j i : Z) : F :=
  let M := half kH in
  let N := half kW in
  let f_val := tap_value f H W n k i j in
  fmul f_val (g (IDX (i + M) (j + N) kW)).

(** The body of the collapsed loops of [parallel_conv2d] up to the store,
    with the order of the [omp simd reduction] left open. *)
Definition parallel_conv2d_cell_simd (red : reduction) (f : mem F) (H W : Z)
    (g : mem F) (kH kW n k : Z) : F :=
  reduce (product f H W g kH kW n k) red.

(** [parallel_conv2d] with both orders left open: [sched] for the collapsed
    outer loops and [red n k] for the reduction of cell [(n, k)]. *)
Definition parallel_conv2d_simd (sched : list (Z * Z))
    (red : Z -> Z -> reduction) (f : mem F) (H W : Z)
    (g : mem F) (kH kW w_padding h_padding : Z)
    (padded_output : float_array F) : Z * float_array F :=
  let out :=
    omp_for_collapse2 sched (fun n k out =>
      let result := parallel_conv2d_cell_simd (red n k) f H W g kH kW n k in
      store out (IDX n k W) result) (arr padded_output) in
  (0, {| arr := out; padding := padding padded_output |}).
End WithScalar.
End Padded.

(** ** The boundary policy and the serial convolver in the words of the
    specification *)

Module Spec.
Section WithScalar.
Context {F : Type} {ops : Scalar F}.

(** [halfHeight = kH / 2] (integer division) and
    [heightOffset = 1 if kH is even else 0]; likewise for the width. *)
Definition half_of (kdim : Z) : Z := kdim / 2.
Definition offset_of (kdim : Z) : Z := if Z.even kdim then 1 else 0.

(** The tap offsets of an axis range over
    [[-half, half - offset]] inclusive. *)
Definition tap_range (kdim : Z) : list Z :=
  zseq (Z.to_nat (half_of kdim - offset_of kdim + 1 - - half_of kdim))
       (- half_of kdim).

(** For feature coordinate [(row, col)]: if [0 <= row < H] and
    [0 <= col < W] read [feature[row,col]], otherwise [0.0]. *)
Definition boundaryRead (feature : mem F) (H W row col : Z) : F :=
  if (0 <=? row) && (row <? H) && (0 <=? col) && (col <? W)
  then feature (IDX row col W) else fzero.

(** The sum over the tap offsets [(i,j)] of
    [boundaryRead(feature, n+i, k+j) * kernel[i+halfHeight, j+halfWidth]],
    added from left to right, rows of the window outermost. *)
Definition serialConvolve_cell (feature : mem F) (H W : Z) (kernel : mem F)
    (kH kW n k : Z) : F :=
  fold_left (fun acc i =>
    fold_left (fun acc j =>
      fadd acc (fmul (boundaryRead feature H W (n + i) (k + j))
                     (kernel (IDX (i + half_of kH) (j + half_of kW) kW))))
      (tap_range kW) acc)
    (tap_range kH) fzero.

(** Modelled from the spec: the explicitly materialized zero-padded copy
    of the feature map, a buffer of [(H + 2 h_padding)] rows of
    [(W + 2 w_padding)] elements in which [feature[row,col]] lies at row
    [row + h_padding], column [col + w_padding], and every other element
    is [0.0].  [conv2d.c] allocates and clears such a buffer but never
    copies a feature map into it. *)
Definition zero_padded (feature : mem F) (H W h_padding w_padding : Z) : mem F :=
  fun idx =>
    let total_width := W + w_padding * 2 in
    let row := idx / total_width - h_padding in
    let col := idx mod total_width - w_padding in
    boundaryRead feature H W row col.
End WithScalar.
End Spec.

(** ** IEEE 754 single precision *)

Module Binary32.
Definition prec : Z := 24.
Definition emax : Z := 128.

Definition float : Type := spec_float.

#[export] Instance binary32 : Scalar float := {
  fzero := S754_zero false;
  fadd := SFadd prec emax;
  fmul := SFmul prec emax
}.

(** The [float] nearest to an integer. *)
Definition of_Z (z : Z) : float := binary_normalize prec emax z 0 false.

(** [(float)(a / b)] for two integers. *)
Definition ratio (a b : Z) : float := SFdiv prec emax (of_Z a) (of_Z b).

Definition one : float := of_Z 1.
Definition neg_zero : float := S754_zero true.

(** The rational a finite [float] stands for. *)
Definition to_Q (x : float) : option Q :=
  match x with
  | S754_zero _ => Some 0%Q
  | S754_finite s m e =>
      let mag :=
        match e with
        | Z0 => Qmake (Zpos m) 1
        | Zpos p => Qmake (Zpos m * 2 ^ Zpos p) 1
        | Zneg p => Qmake (Zpos m) (2 ^ p)
        end in
      Some (if s then Qopp mag else mag)
  | _ => None
  end.

(** [x] is finite and lies within [tol] of [target]. *)
Definition within (tol target : Q) (x : float) : Prop :=
  match to_Q x with
  | Some q => (Qabs (q - target) <= tol)%Q
  | None => False
  end.

(** [x] and [y] are finite and [|x - y| < tol]. *)
Definition closer_than (tol : Q) (x y : float) : Prop :=
  match to_Q x, to_Q y with
  | Some p, Some q => (Qabs (p - q) < tol)%Q
  | _, _ => False
  end.

(** Equality of the numbers held: the same datum, or equal under the
    IEEE comparison (which identifies [-0.0] and [+0.0]). *)
Definition same_number (x y : float) : Prop :=
  x = y \/ SFeqb x y = true.
End Binary32.

(** ** Exact integer arithmetic *)

Module ExactZ.
#[export] Instance exactZ : Scalar Z := {
  fzero := 0;
  fadd := Z.add;
  fmul := Z.mul
}.

#[export] Instance exactZ_add : ExactAdd Z.
Proof. split; intros; cbn; lia. Qed.
End ExactZ.

Import (hints) Binary32.
Import (hints) ExactZ.

(** ** Rounding in binary32 *)

(** The number a [float] holds, 0 for an infinity or a NaN. *)
Definition value (x : Binary32.float) : Q :=
  match Binary32.to_Q x with
  | Some q => q
  | None => 0%Q
  end.

(** The rounding error of the addition [a + b]: the distance between the
    [float] it yields and the sum of the two numbers, when all three are
    finite. *)
Definition add_error (a b : Binary32.float) : option Q :=
  match Binary32.to_Q a, Binary32.to_Q b, Binary32.to_Q (fadd a b) with
  | Some p, Some q, Some r => Some (Qabs (r - (p + q)))
  | _, _, _ => None
  end.

(** The rounding errors of all additions of a reduction, added up; [None]
    when a product or a sum is not finite. *)
Fixpoint rounding (product : Z -> Z -> Binary32.float) (r : reduction)
    : option Q :=
  match r with
  | Start => Some 0%Q
  | Iteration j i =>
      match Binary32.to_Q (product j i) with
      | Some _ => Some 0%Q
      | None => None
      end
  | Combine a b =>
      match rounding product a, rounding product b,
            add_error (reduce product a) (reduce product b) with
      | Some ea, Some eb, Some e => Some (ea + eb + e)%Q
      | _, _, _ => None
      end
  end.

(** The sum without rounding of the numbers the products of [l] hold. *)
Definition exact_sum (product : Z -> Z -> Binary32.float)
    (l : list (Z * Z)) : Q :=
  fold_right (fun ji s => (value (product (fst ji) (snd ji)) + s)%Q) 0%Q l.

(** The magnitudes of the numbers the products of [l] hold, added up. *)
Definition abs_sum (product : Z -> Z -> Binary32.float)
    (l : list (Z * Z)) : Q :=
  fold_right (fun ji s => (Qabs (value (product (fst ji) (snd ji))) + s)%Q)
    0%Q l.

(** A zero, or a finite number that is a multiple of [2^-149], the smallest
    positive binary32 number: every finite binary32 number is one. *)
Definition representable (x : Binary32.float) : bool :=
  match x with
  | S754_zero _ => true
  | S754_finite _ _ e => -149 <=? e
  | _ => false
  end.

(** The number a representable [float] holds, counted in units of
    [2^-149]. *)
Definition scaled (x : Binary32.float) : Z :=
  match x with
  | S754_finite s m e => cond_Zopp s (Zpos m) * 2 ^ (e + 149)
  | _ => 0
  end.

(** The unit of [scaled], [2^-149], and the relative error of one rounding
    to 24 bits, [2^-24]. *)
Definition grid : Q := 1 # (2 ^ 149)%positive.
Definition rel_eps : Q := 1 # 16777216.

(** [(1 + 2^-24)^h]: how far [h] roundings in a row can inflate a sum. *)
Fixpoint growth (h : nat) : Q :=
  match h with
  | O => 1%Q
  | S h => (growth h * (1 + rel_eps))%Q
  end.

(** ** Auxiliary definitions *)

(** The offsets of the cells [(n, k)] of the iteration space. *)
Definition output_cells (H W : Z) : list Z :=
  map (fun nk => IDX (fst nk) (snd nk) W) (iteration_space H W).

(** One iteration of the collapsed loops: the cell is computed by [v] and
    stored. *)
Definition store_cell {F : Type} (W : Z) (v : Z -> Z -> F)
    (out : outbuf F) (nk : Z * Z) : outbuf F :=
  store out (IDX (fst nk) (snd nk) W) (v (fst nk) (snd nk)).

(** A call is rejected when the status it returns is not 0. *)
Definition rejected {A : Type} (r : Z * A) : Prop := fst r <> 0.

Definition invalid_dimensions (H W kH kW : Z) : Prop :=
  H <= 0 \/ W <= 0 \/ kH <= 0 \/ kW <= 0.

(** ** Inputs of the examples

    [junk] is what the memory holds outside the arrays. *)

(** The feature map [[1 2] [3 4]] and the kernel [[1 0 0]]. *)
Definition feature_2x2 (junk : Binary32.float) : mem Binary32.float :=
  mem_of_list junk (map Binary32.of_Z [1; 2; 3; 4]).
Definition kernel_1x3 (junk : Binary32.float) : mem Binary32.float :=
  mem_of_list junk (map Binary32.of_Z [1; 0; 0]).

(** The 3 x 3 feature map of [1.0] and the 3 x 3 kernel of [1.0/9.0]. *)
Definition ones_3x3 (junk : Binary32.float) : mem Binary32.float :=
  mem_of_list junk (repeat Binary32.one 9).
Definition ninths_3x3 (junk : Binary32.float) : mem Binary32.float :=
  mem_of_list junk (repeat (Binary32.ratio 1 9) 9).

(** An output of [parallel_conv2d] nothing has been stored to. *)
Definition no_output (junk : Binary32.float) : float_array Binary32.float :=
  {| arr := fresh junk; padding := None |}.

(** The feature map [[2^24 1] [-2^24 0]] and the 2 x 2 kernel of ones. *)
Definition feature_cancelling : mem Binary32.float :=
  mem_of_list fzero (map Binary32.of_Z [16777216; 1; -16777216; 0]).
Definition kernel_ones_2x2 : mem Binary32.float :=
  mem_of_list fzero (map Binary32.of_Z [1; 1; 1; 1]).

(** The feature map [[0.1 0.7] [0.3 0.9]], the 2 x 2 kernel of [1.0/3.0],
    and a reduction of the four iterations of a 2 x 2 window by two lanes
    that take the iterations in turn. *)
Definition feature_tenths : mem Binary32.float :=
  mem_of_list fzero
    [Binary32.ratio 1 10; Binary32.ratio 7 10; Binary32.ratio 3 10;
     Binary32.ratio 9 10].
Definition kernel_thirds_2x2 : mem Binary32.float :=
  mem_of_list fzero (repeat (Binary32.ratio 1 3) 4).
Definition two_lanes : reduction :=
  Combine (Combine Start (in_order [(-1, -1); (0, -1)]))
          (in_order [(-1, 0); (0, 0)]).

(** The feature map [[2^24 1 -2^24 0]], the 1 x 4 kernel of ones, and a
    reduction of the four iterations of a 1 x 4 window by two lanes that
    take the iterations in turn. *)
Definition feature_row_cancelling : mem Binary32.float :=
  mem_of_list fzero (map Binary32.of_Z [16777216; 1; -16777216; 0]).
Definition kernel_ones_1x4 : mem Binary32.float :=
  mem_of_list fzero (map Binary32.of_Z [1; 1; 1; 1]).
Definition two_lanes_1x4 : reduction :=
  Combine (Combine Start (in_order [(-2, 0); (0, 0)]))
          (in_order [(-1, 0); (1, 0)]).

(** ** More of the program: the reads of [conv2d.c] and binary32 classes *)

(** The offsets of [f] one cell of [conv2d] of [conv2d.c] consults: the
    cell of the loop indices [(n, k)], in a buffer of rows of
    [W + w_padding * 2] elements. *)
Definition padded_cell_reads (W kH kW w_padding n k : Z) : list Z :=
  flat_map (fun i =>
    map (fun j => IDX (n + i) (k + j) (W + w_padding * 2)) (tap_offsets kW))
    (tap_offsets kH).

(** The offsets of [f] one cell of [parallel_conv2d] of [conv2d.c]
    consults. *)
Definition checked_cell_reads (H W kH kW n k : Z) : list Z :=
  flat_map (fun j =>
    flat_map (fun i =>
      if Padded.guard H W (n + i) (k + j) then [IDX (n + i) (k + j) W] else [])
      (tap_offsets kH))
    (tap_offsets kW).

(** A [float] that is neither an infinity nor a NaN. *)
Definition finite32 (x : Binary32.float) : bool :=
  match x with
  | S754_zero _ | S754_finite _ _ _ => true
  | _ => false
  end.

(** A [float] that is [0.0] or [-0.0]. *)
Definition zero32 (x : Binary32.float) : bool :=
  match x with
  | S754_zero _ => true
  | _ => false
  end.

(** ** The glue of [main] and [generate_data] *)

(** [sizeof(float)] *)
Definition sizeof_float : Z := 4.

(** [const int cache_padding_size = 64 - ((W * sizeof(float)) % 64);]
    the product is taken in [size_t], 64 bits wide. *)
Definition cache_padding_size (W : Z) : Z :=
  64 - ((W * sizeof_float) mod 2 ^ 64) mod 64.

(** [padded_outputs.padding =
       cache_padding_size == 64 ? NULL : (char* )malloc(cache_padding_size);]
    with a [malloc] that serves the request. *)
Definition output_padding (W : Z) : option Z :=
  if cache_padding_size W =? 64 then None else Some (cache_padding_size W).

Section Generate.
(** The C library's generator: its state, [rand], [srand] and [RAND_MAX]. *)
Variable rng : Type.
Variable rand : rng -> Z * rng.
Variable srand : Z -> rng -> rng.
Variable RAND_MAX : Z.

(** [(float)rand() / (float)RAND_MAX] *)
Definition random_unit (r : Z) : Binary32.float :=
  SFdiv Binary32.prec Binary32.emax (Binary32.of_Z r) (Binary32.of_Z RAND_MAX).

(** [int generate_data(int height, int width, float* *output)] of the
    variant with logical zero padding; [output] is [None] when [*output]
    is [NULL].  The result is the status, the generator and the array. *)
Definition generate_data (height width : Z)
    (output : option (outbuf Binary32.float)) (gen : rng)
    : Z * rng * option (outbuf Binary32.float) :=
  match output with
  | None => (1, gen, output)
  | Some out =>
      if (height <=? 0) || (width <=? 0) then (1, gen, output)
      else
        let (seed, gen) := rand gen in
        let gen := srand seed gen in
        let '(gen, out) :=
          for_lt 0 height (fun i st =>
            for_lt 0 width (fun j st =>
              let '(gen, out) := st in
              let (r, gen) := rand gen in
              (gen, store out (IDX i j width) (random_unit r))) st)
            (gen, out) in
        (0, gen, Some out)
  end.
End Generate.

(** ** Text files: the C library as the program uses it *)

From Stdlib Require Import Ascii.

(** Text is a sequence of characters; a file system maps the name of a
    file that can be opened for reading to its content. *)
Definition text : Type := list ascii.
Definition files : Type := text -> option text.

Definition NUL : ascii := "000"%char.
Definition LF : ascii := "010"%char.
Definition SP : ascii := " "%char.

(** What a call does: it returns, or it runs into behaviour the C standard
    leaves undefined. *)
Inductive run (A : Type) : Type :=
  | Returns (a : A)
  | Undefined.
Arguments Returns {A} _.
Arguments Undefined {A}.

(** The C string an array of characters holds: the characters before the
    first NUL. *)
Fixpoint c_str (buf : text) : text :=
  match buf with
  | [] => []
  | c :: rest => if Ascii.eqb c NUL then [] else c :: c_str rest
  end.

(** [fgets] copies characters up to and including the first newline, and at
    most [room] of them. *)
Fixpoint read_line (room : nat) (stream : text) : text * text :=
  match room, stream with
  | O, _ => ([], stream)
  | Datatypes.S _, [] => ([], [])
  | Datatypes.S room, c :: rest =>
      if Ascii.eqb c LF then ([c], rest)
      else let (line, rest) := read_line room rest in (c :: line, rest)
  end.

(** [fgets(buffer, size, stream)]: [None] at the end of the file, else the
    characters read and the rest of the stream. *)
Definition fgets (size : Z) (stream : text) : option (text * text) :=
  match stream with
  | [] => None
  | _ => Some (read_line (Z.to_nat (size - 1)) stream)
  end.

Fixpoint skip_spaces (s : text) : text :=
  match s with
  | c :: rest => if Ascii.eqb c SP then skip_spaces rest else s
  | [] => []
  end.

Fixpoint take_token (s : text) : text * text :=
  match s with
  | [] => ([], [])
  | c :: rest =>
      if Ascii.eqb c SP then ([], rest)
      else let (tok, rest) := take_token rest in (c :: tok, rest)
  end.

(** [strtok(s, " ")], and [strtok(NULL, " ")] on what the call before left:
    [None] when no token is left, else the token and the characters behind
    the delimiter that ended it. *)
Definition strtok (s : text) : option (text * text) :=
  match skip_spaces s with
  | [] => None
  | s => Some (take_token s)
  end.

(** [isspace] and [isdigit] in the C locale. *)
Definition isspace (c : ascii) : bool :=
  let n := nat_of_ascii c in
  ((9 <=? n) && (n <=? 13))%nat || (n =? 32)%nat.

Definition isdigit (c : ascii) : bool :=
  let n := nat_of_ascii c in ((48 <=? n) && (n <=? 57))%nat.

Definition digit_value (c : ascii) : Z := Z.of_nat (nat_of_ascii c) - 48.

Fixpoint skip_isspace (s : text) : text :=
  match s with
  | c :: rest => if isspace c then skip_isspace rest else s
  | [] => []
  end.

(** The value of the leading decimal digits of [s], continuing [acc]. *)
Fixpoint atoi_digits (s : text) (acc : Z) : Z :=
  match s with
  | c :: rest =>
      if isdigit c then atoi_digits rest (10 * acc + digit_value c) else acc
  | [] => acc
  end.

(** [atoi]: white space, an optional sign, decimal digits. *)
Definition atoi (s : text) : Z :=
  match skip_isspace s with
  | c :: rest =>
      if Ascii.eqb c "-"%char then - atoi_digits rest 0
      else if Ascii.eqb c "+"%char then atoi_digits rest 0
      else atoi_digits (c :: rest) 0
  | [] => 0
  end.

Definition digit_char (d : Z) : ascii := ascii_of_nat (48 + Z.to_nat d).

(** The decimal digits of [n >= 0], most significant first, before
    [tail]. *)
Fixpoint to_digits (fuel : nat) (n : Z) (tail : text) : text :=
  let tail := digit_char (n mod 10) :: tail in
  match fuel with
  | O => tail
  | Datatypes.S fuel => if n / 10 =? 0 then tail else to_digits fuel (n / 10) tail
  end.

(** [printf("%d", n)] *)
Definition print_int (n : Z) : text :=
  if n <? 0 then "-"%char :: to_digits (Z.to_nat (Z.log2 (- n))) (- n) []
  else to_digits (Z.to_nat (Z.log2 n)) n [].

(** [for (...; i < hi; i++)] with a body that can return from the
    function: [inr] carries the value returned. *)
Fixpoint iterate_ret {S R : Type} (count : nat) (i : Z)
    (body : Z -> S -> S + R) (s : S) : S + R :=
  match count with
  | O => inl s
  | Datatypes.S c =>
      match body i s with
      | inl s => iterate_ret c (i + 1) body s
      | inr r => inr r
      end
  end.

Definition for_lt_ret {S R : Type} (lo hi : Z) (body : Z -> S -> S + R)
    (s : S) : S + R :=
  iterate_ret (Z.to_nat (hi - lo)) lo body s.

(** [#define FLOAT_STRING_LENGTH 6] *)
Definition FLOAT_STRING_LENGTH : Z := 6.

(** [int extract_dimensions(char* filepath, int* height, int* width)]; the
    result is the status and the two integers behind the pointers.
    [firstline] holds 16 characters. *)
Definition extract_dimensions (fs : files) (filepath : option text)
    (height width : Z) : run (Z * Z * Z) :=
  match filepath with
  | None => Returns (1, height, width)
  | Some path =>
      match fs path with
      | None => Returns (1, height, width)
      | Some stream =>
          match fgets 16 stream with
          | None => Undefined
          | Some (firstline, _) =>
              match c_str firstline with
              | [] => Returns (2, height, width)
              | line =>
                  match strtok line with
                  | None => Undefined
                  | Some (token, rest) =>
                      let height := atoi token in
                      match strtok rest with
                      | None => Undefined
                      | Some (token, _) => Returns (0, height, atoi token)
                      end
                  end
              end
          end
      end
  end.

Section TextFiles.
Context {F : Type}.
(** [printf("%.3f", x)] and [(float)atof(token)]. *)
Variable fmt : F -> text.
Variable atof : text -> F.

(** The [while (token != NULL && column_index < width)] loop of
    [extract_data]; it runs at most [width] times. *)
Fixpoint read_tokens (fuel : nat) (token : option (text * text))
    (row_index column_index width : Z) (output : outbuf F) : outbuf F :=
  match fuel, token with
  | Datatypes.S fuel, Some (tok, rest) =>
      if column_index <? width then
        let output := store output (IDX row_index column_index width) (atof tok) in
        read_tokens fuel (strtok rest) row_index (column_index + 1) width output
      else output
  | _, _ => output
  end.

(** The [for] loop over the rows of [extract_data], left by [break] at the
    end of the file. *)
Fixpoint read_rows (count : nat) (row_index : Z) (buffer_size : Z)
    (stream : text) (width : Z) (output : outbuf F) : outbuf F :=
  match count with
  | O => output
  | Datatypes.S count =>
      match fgets buffer_size stream with
      | None => output
      | Some (buffer, stream) =>
          let token := strtok (c_str buffer) in
          let output :=
            read_tokens (Z.to_nat width) token row_index 0 width output in
          read_rows count (row_index + 1) buffer_size stream width output
      end
  end.

(** [int extract_data(char* filepath, int width, int height,
    float* *output)] of the variant with logical zero padding.  A negative
    [buffer_size] stands for an allocation no [malloc] can serve. *)
Definition extract_data (fs : files) (filepath : option text)
    (width height : Z) (output : outbuf F) : run (Z * outbuf F) :=
  match filepath with
  | None => Returns (1, output)
  | Some path =>
      match fs path with
      | None => Returns (1, output)
      | Some stream =>
          let buffer_size := FLOAT_STRING_LENGTH * width + 2 in
          if buffer_size <? 0 then Undefined
          else
            let stream :=
              match fgets buffer_size stream with
              | None => stream
              | Some (_, stream) => stream
              end in
            Returns (0, read_rows (Z.to_nat height) 0 buffer_size stream
                          width output)
      end
  end.

(** One value of a row: [fprintf(file_ptr, "%.3f ", x)]. *)
Definition print_value (x : F) : text := fmt x ++ [SP].

(** [int write_data_to_file(char* filepath, float* outputs,
    float_array padded_outputs, int h_dimension, int w_dimension)] of the
    variant with logical zero padding.  [writable] tells which files
    [fopen] opens for writing; [outputs] and [padded_arr] are [None] when
    [outputs] and [padded_outputs.arr] are [NULL].  The result is the
    status and the text sent to the file, if it was opened. *)
Definition write_data_to_file (writable : text -> bool)
    (filepath : option text) (outputs padded_arr : option (mem F))
    (h_dimension w_dimension : Z) : Z * option text :=
  match filepath with
  | None => (1, None)
  | Some path =>
      if negb (writable path) then (1, None)
      else
        let file := print_int h_dimension ++ [SP] ++
                    print_int w_dimension ++ [LF] in
        match
          for_lt_ret 0 h_dimension (fun i file =>
            match
              for_lt_ret 0 w_dimension (fun j file =>
                match outputs, padded_arr with
                | Some outputs, _ =>
                    inl (file ++ print_value (outputs (IDX i j w_dimension)))
                | None, Some arr =>
                    inl (file ++ print_value (arr (IDX i j w_dimension)))
                | None, None => inr (1, Some file)
                end) file
            with
            | inl file => inl (file ++ [LF])
            | inr r => inr r
            end) file
        with
        | inl file => (0, Some file)
        | inr r => r
        end
  end.

(** [write_data_to_file] of [conv2d.c], with its two padding arguments. *)
Definition write_data_to_file_padded (writable : text -> bool)
    (filepath : option text) (outputs padded_arr : option (mem F))
    (h_dimension w_dimension h_padding w_padding : Z) : Z * option text :=
  match filepath with
  | None => (1, None)
  | Some path =>
      if negb (writable path) then (1, None)
      else
        let file := print_int h_dimension ++ [SP] ++
                    print_int w_dimension ++ [LF] in
        match
          for_lt_ret h_padding (h_dimension + h_padding) (fun i file =>
            match
              for_lt_ret w_padding (w_dimension + w_padding) (fun j file =>
                match outputs, padded_arr with
                | Some outputs, _ =>
                    inl (file ++ print_value
                           (outputs (IDX (i - h_padding) (j - w_padding)
                                         w_dimension)))
                | None, Some arr =>
                    inl (file ++ print_value
                           (arr (IDX (i - h_padding) (j - w_padding)
                                     w_dimension)))
                | None, None => inr (1, Some file)
                end) file
            with
            | inl file => inl (file ++ [LF])
            | inr r => inr r
            end) file
        with
        | inl file => (0, Some file)
        | inr r => r
        end
  end.
End TextFiles.

(** The text of a matrix file in the words of the specification: a first
    line with height and width, then [height] lines of [width] values. *)
Definition matrix_text {F : Type} (fmt : F -> text) (data : mem F)
    (height width : Z) : text :=
  print_int height ++ [SP] ++ print_int width ++ [LF] ++
  flat_map (fun row =>
    flat_map (fun col => fmt (data (IDX row col width)) ++ [SP])
             (lt_values 0 width) ++ [LF])
    (lt_values 0 height).

(** A formatted value that [strtok] and [fgets] take as one token: not
    empty, and free of spaces, newlines and NULs. *)
Definition token_ok (t : text) : Prop :=
  t <> [] /\ forall c, In c t -> c <> SP /\ c <> LF /\ c <> NUL.

(** A character that is no space, no newline and no NUL. *)
Definition plain (c : ascii) : Prop :=
  Ascii.eqb c SP = false /\ Ascii.eqb c LF = false /\ Ascii.eqb c NUL = false.

(** The first line of a matrix file: [printf("%d %d\n", height, width)]. *)
Definition header (height width : Z) : text :=
  print_int height ++ [SP] ++ print_int width ++ [LF].

(** * Theorems *)

(** ** Loops as folds *)

Lemma zseq_length : forall count i, length (zseq count i) = count.
Proof. induction count as [|c IH]; intros i; cbn; [reflexivity | now rewrite IH]. Qed.

Lemma zseq_In : forall count i x,
  In x (zseq count i) <-> i <= x < i + Z.of_nat count.
Proof.
  induction count as [|c IH]; intros i x; cbn [zseq In].
  - lia.
  - rewrite IH. lia.
Qed.

Lemma zseq_NoDup : forall count i, NoDup (zseq count i).
Proof.
  induction count as [|c IH]; intros i; cbn [zseq]; constructor.
  - rewrite zseq_In. lia.
  - apply IH.
Qed.

Lemma zseq_app : forall a b i,
  zseq (a + b) i = zseq a i ++ zseq b (i + Z.of_nat a).
Proof.
  induction a as [|a IH]; intros b i; cbn [zseq Nat.add app].
  - f_equal. lia.
  - rewrite IH. do 3 f_equal. lia.
Qed.

Lemma zseq_shift : forall count i d,
  map (fun x => d + x) (zseq count i) = zseq count (d + i).
Proof.
  induction count as [|c IH]; intros i d; cbn [zseq map]; [reflexivity|].
  rewrite IH. do 2 f_equal. lia.
Qed.

Lemma iterate_fold : forall (S : Type) (body : Z -> S -> S) count i s,
  iterate count i body s = fold_left (fun s i => body i s) (zseq count i) s.
Proof.
  intros S body; induction count as [|c IH]; intros i s; cbn; [reflexivity | apply IH].
Qed.

Lemma iterate_values : forall count i seen,
  iterate count i (fun i seen => seen ++ [i]) seen = seen ++ zseq count i.
Proof.
  induction count as [|c IH]; intros i seen; cbn [iterate zseq].
  - now rewrite app_nil_r.
  - rewrite IH, <- app_assoc. reflexivity.
Qed.

Lemma le_values_zseq : forall lo hi,
  le_values lo hi = zseq (Z.to_nat (hi + 1 - lo)) lo.
Proof. intros; unfold le_values, for_le; now rewrite iterate_values. Qed.

Lemma lt_values_zseq : forall lo hi,
  lt_values lo hi = zseq (Z.to_nat (hi - lo)) lo.
Proof. intros; unfold lt_values, for_lt; now rewrite iterate_values. Qed.

Lemma for_le_fold : forall (S : Type) (body : Z -> S -> S) lo hi s,
  for_le lo hi body s = fold_left (fun s i => body i s) (le_values lo hi) s.
Proof. intros; rewrite le_values_zseq; apply iterate_fold. Qed.

Lemma for_lt_fold : forall (S : Type) (body : Z -> S -> S) lo hi s,
  for_lt lo hi body s = fold_left (fun s i => body i s) (lt_values lo hi) s.
Proof. intros; rewrite lt_values_zseq; apply iterate_fold. Qed.

Lemma le_values_In : forall lo hi x, In x (le_values lo hi) <-> lo <= x <= hi.
Proof. intros; rewrite le_values_zseq, zseq_In; lia. Qed.

Lemma lt_values_In : forall lo hi x, In x (lt_values lo hi) <-> lo <= x < hi.
Proof. intros; rewrite lt_values_zseq, zseq_In; lia. Qed.

Lemma fold_left_ext_In : forall (A B : Type) (f g : A -> B -> A) l a,
  (forall a x, In x l -> f a x = g a x) ->
  fold_left f l a = fold_left g l a.
Proof.
  intros A B f g; induction l as [|x l IH]; intros a Hfg; cbn; [reflexivity|].
  rewrite Hfg by now left. apply IH. intros; apply Hfg; now right.
Qed.

Lemma fold_left_snoc_map : forall (A B : Type) (h : A -> B) l seen,
  fold_left (fun seen x => seen ++ [h x]) l seen = seen ++ map h l.
Proof.
  intros A B h; induction l as [|x l IH]; intros seen; cbn.
  - now rewrite app_nil_r.
  - rewrite IH, <- app_assoc. reflexivity.
Qed.

Lemma fold_left_snoc_flat_map : forall (A B : Type) (h : A -> list B) l seen,
  fold_left (fun seen x => seen ++ h x) l seen = seen ++ flat_map h l.
Proof.
  intros A B h; induction l as [|x l IH]; intros seen; cbn.
  - now rewrite app_nil_r.
  - rewrite IH, <- app_assoc. reflexivity.
Qed.

Lemma fold_left_flat_map : forall (A B S : Type) (f : S -> B -> S)
    (h : A -> list B) l s,
  fold_left f (flat_map h l) s = fold_left (fun s x => fold_left f (h x) s) l s.
Proof.
  intros A B S f h; induction l as [|x l IH]; intros s; cbn; [reflexivity|].
  rewrite fold_left_app. apply IH.
Qed.

Lemma fold_left_map : forall (A B S : Type) (f : S -> B -> S) (h : A -> B) l s,
  fold_left f (map h l) s = fold_left (fun s x => f s (h x)) l s.
Proof.
  intros A B S f h; induction l as [|x l IH]; intros s; cbn; [reflexivity | apply IH].
Qed.

(** * Window geometry *)

Lemma half_pos : forall kdim, 1 <= kdim -> half kdim = kdim / 2.
Proof. intros; unfold half; apply Z.quot_div_nonneg; lia. Qed.

Lemma even_offset_pos : forall kdim, 1 <= kdim ->
  even_offset kdim = if Z.even kdim then 1 else 0.
Proof.
  intros kdim Hk; unfold even_offset.
  rewrite Z.rem_mod_nonneg by lia. rewrite Zmod_even.
  now destruct (Z.even kdim).
Qed.

Lemma window_span : forall kdim, 1 <= kdim ->
  half kdim - even_offset kdim + 1 - - half kdim = kdim.
Proof.
  intros kdim Hk. rewrite half_pos, even_offset_pos by assumption.
  pose proof (Zmod_even kdim) as Hm.
  pose proof (Z.div_mod kdim 2 ltac:(lia)) as Hd.
  destruct (Z.even kdim); lia.
Qed.

Lemma even_offset_range : forall kdim, 0 <= even_offset kdim <= 1.
Proof. intros; unfold even_offset; destruct (Z.rem kdim 2 =? 0); lia. Qed.

Lemma tap_offsets_In : forall kdim i,
  In i (tap_offsets kdim) <-> - half kdim <= i <= half kdim - even_offset kdim.
Proof. intros; unfold tap_offsets; apply le_values_In. Qed.

(** For a positive dimension the loop bounds are the range of the
    specification. *)
Lemma tap_offsets_refine : forall kdim, 1 <= kdim ->
  tap_offsets kdim = Spec.tap_range kdim.
Proof.
  intros kdim Hk. unfold tap_offsets, Spec.tap_range, Spec.half_of, Spec.offset_of.
  rewrite le_values_zseq, half_pos, even_offset_pos by assumption.
  reflexivity.
Qed.

(** The cells of both variants are folds over the tap offsets. *)
Lemma logical_conv2d_cell_taps :
  forall (F : Type) (ops : Scalar F) (f : mem F) H W (g : mem F) kH kW n k,
  Logical.conv2d_cell f H W g kH kW n k =
  fold_left (fun result i =>
    fold_left (fun result j =>
      Logical.tap f H W g kW (half kH) (half kW) n k i j result)
      (tap_offsets kW) result)
    (tap_offsets kH) fzero.
Proof.
  intros; unfold Logical.conv2d_cell, tap_offsets; cbv zeta.
  rewrite for_le_fold. apply fold_left_ext_In; intros a i _.
  apply for_le_fold.
Qed.

Lemma logical_parallel_conv2d_cell_taps :
  forall (F : Type) (ops : Scalar F) (f : mem F) H W (g : mem F) kH kW n k,
  Logical.parallel_conv2d_cell f H W g kH kW n k =
  fold_left (fun result j =>
    fold_left (fun result i =>
      Logical.tap f H W g kW (half kH) (half kW) n k i j result)
      (tap_offsets kH) result)
    (tap_offsets kW) fzero.
Proof.
  intros; unfold Logical.parallel_conv2d_cell, tap_offsets; cbv zeta.
  rewrite for_le_fold. apply fold_left_ext_In; intros a i _.
  apply for_le_fold.
Qed.

Lemma padded_conv2d_cell_taps :
  forall (F : Type) (ops : Scalar F) (f : mem F) W (g : mem F) kH kW wp n k,
  Padded.conv2d_cell f W g kH kW wp n k =
  fold_left (fun result i =>
    fold_left (fun result j =>
      fadd result (fmul (f (IDX (n + i) (k + j) (W + wp * 2)))
                        (g (IDX (i + half kH) (j + half kW) kW))))
      (tap_offsets kW) result)
    (tap_offsets kH) fzero.
Proof.
  intros; unfold Padded.conv2d_cell, tap_offsets; cbv zeta.
  rewrite for_le_fold. apply fold_left_ext_In; intros a i _.
  apply for_le_fold.
Qed.

Lemma padded_parallel_conv2d_cell_taps :
  forall (F : Type) (ops : Scalar F) (f : mem F) H W (g : mem F) kH kW n k,
  Padded.parallel_conv2d_cell f H W g kH kW n k =
  fold_left (fun result j =>
    fold_left (fun result i =>
      Padded.tap f H W g kW (half kH) (half kW) n k i j result)
      (tap_offsets kH) result)
    (tap_offsets kW) fzero.
Proof.
  intros; unfold Padded.parallel_conv2d_cell, tap_offsets; cbv zeta.
  rewrite for_le_fold. apply fold_left_ext_In; intros a i _.
  apply for_le_fold.
Qed.

(** The iterations of the loops of the window. *)
Lemma serial_space_flat : forall kH kW,
  serial_space kH kW =
  flat_map (fun i => map (fun j => (j, i)) (tap_offsets kW)) (tap_offsets kH).
Proof.
  intros kH kW; unfold serial_space, tap_offsets; cbv zeta. rewrite for_le_fold.
  rewrite <- (app_nil_l (flat_map _ _)), <- fold_left_snoc_flat_map.
  apply fold_left_ext_In; intros seen i _.
  rewrite for_le_fold. apply fold_left_snoc_map.
Qed.

Lemma simd_space_flat : forall kH kW,
  simd_space kH kW =
  flat_map (fun j => map (fun i => (j, i)) (tap_offsets kH)) (tap_offsets kW).
Proof.
  intros kH kW; unfold simd_space, tap_offsets; cbv zeta. rewrite for_le_fold.
  rewrite <- (app_nil_l (flat_map _ _)), <- fold_left_snoc_flat_map.
  apply fold_left_ext_In; intros seen j _.
  rewrite for_le_fold. apply fold_left_snoc_map.
Qed.

Lemma simd_space_In : forall kH kW j i,
  In (j, i) (simd_space kH kW) <-> In j (tap_offsets kW) /\ In i (tap_offsets kH).
Proof.
  intros kH kW j i. rewrite simd_space_flat, in_flat_map. split.
  - intros (j' & Hj & Hi). apply in_map_iff in Hi as (i' & E & Hi).
    inversion E; subst. tauto.
  - intros (Hj & Hi). exists j. split; [assumption|].
    apply in_map_iff. now exists i.
Qed.



(** C8.  For [kH, kW >= 1] and tap offsets [(i, j)] of the loops, the kernel
    element read, [g[IDX(i + M, j + N, kW)]], has its row [i + M] in
    [[0, kH)] and its column [j + N] in [[0, kW)]; the offset read lies
    inside the [kH * kW] elements of the kernel. *)
Theorem kernel_index_in_bounds : forall kH kW i j : Z,
  1 <= kH -> 1 <= kW ->
  In i (tap_offsets kH) -> In j (tap_offsets kW) ->
  0 <= i + kH / 2 < kH /\ 0 <= j + kW / 2 < kW /\
  i + half kH = i + kH / 2 /\ j + half kW = j + kW / 2 /\
  0 <= IDX (i + half kH) (j + half kW) kW < kH * kW.
Proof.
  intros kH kW i j HkH HkW Hi Hj.
  apply tap_offsets_In in Hi. apply tap_offsets_In in Hj.
  pose proof (window_span kH HkH) as SH.
  pose proof (window_span kW HkW) as SW.
  rewrite (half_pos kH HkH) in *. rewrite (half_pos kW HkW) in *.
  unfold IDX. repeat split; try lia; nia.
Qed.

Lemma kernel_index_in_bounds_witness :
  0 <= IDX (-2 + half 4) (1 + half 3) 3 < 4 * 3.
Proof.
  apply (kernel_index_in_bounds 4 3 (-2) 1); [lia | lia | | ];
    vm_compute; tauto.
Defined.

(** * The output array *)

Lemma iteration_space_flat : forall H W,
  iteration_space H W =
  flat_map (fun n => map (pair n) (lt_values 0 W)) (lt_values 0 H).
Proof.
  intros H W; unfold iteration_space. rewrite for_lt_fold.
  rewrite <- (app_nil_l (flat_map _ _)), <- fold_left_snoc_flat_map.
  apply fold_left_ext_In; intros seen n _.
  rewrite for_lt_fold. apply fold_left_snoc_map.
Qed.

Lemma iteration_space_In : forall H W n k,
  In (n, k) (iteration_space H W) <-> 0 <= n < H /\ 0 <= k < W.
Proof.
  intros H W n k. rewrite iteration_space_flat, in_flat_map. split.
  - intros (n' & Hn & Hk). apply in_map_iff in Hk as (k' & E & Hk).
    inversion E; subst. apply lt_values_In in Hn, Hk. lia.
  - intros (Hn & Hk). exists n. split; [now apply lt_values_In|].
    apply in_map. now apply lt_values_In.
Qed.

(** Two nested counting loops run their body over the iteration space in
    program order. *)
Lemma nested_loops_fold : forall (S : Type) (body : Z -> Z -> S -> S) H W s,
  for_lt 0 H (fun n s => for_lt 0 W (fun k s => body n k s) s) s =
  omp_for_collapse2 (iteration_space H W) body s.
Proof.
  intros S body H W s. unfold omp_for_collapse2.
  rewrite iteration_space_flat, fold_left_flat_map, for_lt_fold.
  apply fold_left_ext_In; intros a n _.
  rewrite fold_left_map, for_lt_fold. reflexivity.
Qed.

Lemma output_cells_zseq : forall H W, 0 <= W ->
  output_cells H W = lt_values 0 (H * W).
Proof.
  intros H W HW. unfold output_cells.
  rewrite iteration_space_flat, !lt_values_zseq, !Z.sub_0_r.
  rewrite flat_map_concat_map, concat_map, map_map, <- flat_map_concat_map.
  assert (Hrow : forall ch i,
    flat_map (fun n => map (fun nk => IDX (fst nk) (snd nk) W)
                         (map (pair n) (zseq (Z.to_nat W) 0))) (zseq ch i) =
    zseq (ch * Z.to_nat W) (i * W)).
  { induction ch as [|ch IH]; intros i; cbn [zseq flat_map Nat.mul]; [reflexivity|].
    rewrite IH, zseq_app, map_map. cbn [fst snd]. unfold IDX.
    rewrite zseq_shift. do 2 f_equal; lia. }
  rewrite Hrow. cbn [Z.mul]. f_equal.
  destruct (Z.le_gt_cases 0 H); [rewrite Z2Nat.inj_mul by lia; reflexivity|].
  replace (Z.to_nat H) with 0%nat by lia.
  replace (Z.to_nat (H * W)) with 0%nat by nia. reflexivity.
Qed.

Lemma IDX_inj : forall W n k n' k',
  0 <= k < W -> 0 <= k' < W -> IDX n k W = IDX n' k' W -> n = n' /\ k = k'.
Proof. unfold IDX; intros W n k n' k' Hk Hk' E. assert (n = n') by nia. subst; lia. Qed.

Lemma output_cells_In : forall H W idx, 0 <= W ->
  In idx (output_cells H W) <->
  exists n k, 0 <= n < H /\ 0 <= k < W /\ idx = IDX n k W.
Proof.
  intros H W idx HW. unfold output_cells. rewrite in_map_iff. split.
  - intros ([n k] & E & Hin). apply iteration_space_In in Hin.
    exists n, k. cbn in E. intuition congruence.
  - intros (n & k & Hn & Hk & E). exists (n, k). split; [now subst|].
    apply iteration_space_In. lia.
Qed.

Section Stores.
Context {F : Type} (W : Z) (v : Z -> Z -> F).

Lemma store_cells_written : forall l out,
  written (fold_left (store_cell W v) l out) =
  written out ++ map (fun nk => IDX (fst nk) (snd nk) W) l.
Proof.
  induction l as [|x l IH]; intros out; cbn [fold_left map].
  - now rewrite app_nil_r.
  - rewrite IH. cbn. now rewrite <- app_assoc.
Qed.

Lemma store_cells_frame : forall l out idx,
  ~ In idx (map (fun nk => IDX (fst nk) (snd nk) W) l) ->
  cells (fold_left (store_cell W v) l out) idx = cells out idx.
Proof.
  induction l as [|x l IH]; intros out idx Hn; cbn [fold_left]; [reflexivity|].
  cbn [map In] in Hn. rewrite IH by tauto. cbn.
  destruct (Z.eqb_spec idx (IDX (fst x) (snd x) W)); [|reflexivity].
  exfalso; apply Hn; left; congruence.
Qed.

Lemma store_cells_value : forall l out n k,
  (forall p, In p l -> 0 <= snd p < W) -> 0 <= k < W -> In (n, k) l ->
  cells (fold_left (store_cell W v) l out) (IDX n k W) = v n k.
Proof.
  induction l as [|x l IH] using rev_ind; intros out n k Hl Hk Hin; [destruct Hin|].
  rewrite fold_left_app. cbn.
  destruct (Z.eqb_spec (IDX n k W) (IDX (fst x) (snd x) W)) as [E|E].
  - apply IDX_inj in E as [-> ->]; [reflexivity | assumption |].
    apply Hl, in_or_app; right; now left.
  - apply IH; [intros p Hp; apply Hl, in_or_app; now left | assumption |].
    apply in_app_or in Hin as [Hin|[Ex|[]]]; [assumption|].
    subst x. now contradiction E.
Qed.
End Stores.

(** * What the convolvers store *)

Lemma logical_conv2d_stores :
  forall (F : Type) (ops : Scalar F) (f g : mem F) H W kH kW (output : outbuf F),
  snd (Logical.conv2d f H W g kH kW output) =
  fold_left (store_cell W (Logical.conv2d_cell f H W g kH kW))
            (iteration_space H W) output.
Proof.
  intros; unfold Logical.conv2d; cbn [snd].
  exact (nested_loops_fold _
    (fun n k out => store out (IDX n k W) (Logical.conv2d_cell f H W g kH kW n k))
    H W output).
Qed.

Lemma schedule_in_range : forall H W sched p,
  schedule_of H W sched -> In p sched -> 0 <= fst p < H /\ 0 <= snd p < W.
Proof.
  intros H W sched [n k] Hs Hin. apply iteration_space_In.
  exact (Permutation_in _ Hs Hin).
Qed.

Lemma schedule_covers : forall H W sched n k,
  schedule_of H W sched -> 0 <= n < H -> 0 <= k < W -> In (n, k) sched.
Proof.
  intros H W sched n k Hs Hn Hk.
  apply (Permutation_in _ (Permutation_sym Hs)), iteration_space_In. lia.
Qed.

Lemma logical_conv2d_output_cell :
  forall (F : Type) (ops : Scalar F) (f g : mem F) H W kH kW (output : outbuf F) n k,
  0 <= n < H -> 0 <= k < W ->
  cells (snd (Logical.conv2d f H W g kH kW output)) (IDX n k W) =
  Logical.conv2d_cell f H W g kH kW n k.
Proof.
  intros F ops f g H W kH kW output n k Hn Hk. rewrite logical_conv2d_stores.
  apply store_cells_value; [| assumption | now apply iteration_space_In].
  intros [n' k'] Hp. apply iteration_space_In in Hp. cbn; lia.
Qed.

Lemma logical_parallel_conv2d_output_cell :
  forall (F : Type) (ops : Scalar F) sched (f g : mem F) H W kH kW
         (padded_output : float_array F) n k,
  schedule_of H W sched -> 0 <= n < H -> 0 <= k < W ->
  cells (arr (snd (Logical.parallel_conv2d sched f H W g kH kW padded_output)))
        (IDX n k W) =
  Logical.parallel_conv2d_cell f H W g kH kW n k.
Proof.
  intros F ops sched f g H W kH kW po n k Hs Hn Hk.
  unfold Logical.parallel_conv2d, omp_for_collapse2; cbn [snd arr].
  apply (store_cells_value W (Logical.parallel_conv2d_cell f H W g kH kW));
    [| assumption | now apply (schedule_covers H W)].
  intros p Hp. now apply (schedule_in_range H W sched).
Qed.

Lemma padded_parallel_conv2d_output_cell :
  forall (F : Type) (ops : Scalar F) sched (f g : mem F) H W kH kW wp hp
         (padded_output : float_array F) n k,
  schedule_of H W sched -> 0 <= n < H -> 0 <= k < W ->
  cells (arr (snd (Padded.parallel_conv2d sched f H W g kH kW wp hp padded_output)))
        (IDX n k W) =
  Padded.parallel_conv2d_cell f H W g kH kW n k.
Proof.
  intros F ops sched f g H W kH kW wp hp po n k Hs Hn Hk.
  unfold Padded.parallel_conv2d, omp_for_collapse2; cbn [snd arr].
  apply (store_cells_value W (Padded.parallel_conv2d_cell f H W g kH kW));
    [| assumption | now apply (schedule_covers H W)].
  intros p Hp. now apply (schedule_in_range H W sched).
Qed.

(** C6.  For [H, W >= 1] and any kernel dimensions (larger than the feature
    map or not), the serial and the parallel convolver store to exactly the
    cells [(n, k)] of [[0,H) x [0,W)], each once: offsets [0 .. H*W-1].
    Every such cell ends up holding the value computed for it and nothing
    else of the output array changes, so the output is [H] by [W]. *)
Theorem output_is_H_by_W :
  forall (F : Type) (ops : Scalar F) (sched : list (Z * Z)) (f g : mem F)
         (H W kH kW : Z) (output : outbuf F) (padded_output : float_array F),
  1 <= H -> 1 <= W -> schedule_of H W sched ->
  let serial := snd (Logical.conv2d f H W g kH kW output) in
  let parallel :=
    arr (snd (Logical.parallel_conv2d sched f H W g kH kW padded_output)) in
  written serial = written output ++ output_cells H W /\
  (exists stores,
     written parallel = written (arr padded_output) ++ stores /\
     Permutation stores (output_cells H W)) /\
  output_cells H W = lt_values 0 (H * W) /\
  NoDup (output_cells H W) /\
  Z.of_nat (length (output_cells H W)) = H * W /\
  (forall idx, In idx (output_cells H W) <->
     exists n k, 0 <= n < H /\ 0 <= k < W /\ idx = IDX n k W) /\
  (forall n k, 0 <= n < H -> 0 <= k < W ->
     cells serial (IDX n k W) = Logical.conv2d_cell f H W g kH kW n k /\
     cells parallel (IDX n k W) = Logical.parallel_conv2d_cell f H W g kH kW n k) /\
  (forall idx, ~ In idx (output_cells H W) ->
     cells serial idx = cells output idx /\
     cells parallel idx = cells (arr padded_output) idx).
Proof.
  intros F ops sched f g H W kH kW output po HH HW Hs serial parallel.
  assert (Hz : output_cells H W = lt_values 0 (H * W))
    by (apply output_cells_zseq; lia).
  split; [|split; [|split; [|split; [|split; [|split; [|split]]]]]].
  - subst serial. rewrite logical_conv2d_stores. apply store_cells_written.
  - exists (map (fun nk => IDX (fst nk) (snd nk) W) sched). split.
    + subst parallel. unfold Logical.parallel_conv2d, omp_for_collapse2.
      cbn [snd arr].
      apply (store_cells_written W (Logical.parallel_conv2d_cell f H W g kH kW)).
    + apply Permutation_map, Hs.
  - exact Hz.
  - rewrite Hz, lt_values_zseq. apply zseq_NoDup.
  - rewrite Hz, lt_values_zseq, zseq_length. nia.
  - intros idx. apply output_cells_In. lia.
  - intros n k Hn Hk. split.
    + now apply logical_conv2d_output_cell.
    + now apply logical_parallel_conv2d_output_cell.
  - intros idx Hidx. split.
    + subst serial. rewrite logical_conv2d_stores. now apply store_cells_frame.
    + subst parallel. unfold Logical.parallel_conv2d, omp_for_collapse2.
      cbn [snd arr].
      apply (store_cells_frame W (Logical.parallel_conv2d_cell f H W g kH kW)).
      intros Hin. apply Hidx.
      exact (Permutation_in _ (Permutation_map _ Hs) Hin).
Qed.

Lemma output_is_H_by_W_witness :
  written (snd (Logical.conv2d (F := Z) (fun _ => 1) 2 3 (fun _ => 1) 5 4 (fresh 0)))
  = [0; 1; 2; 3; 4; 5].
Proof.
  destruct (output_is_H_by_W Z _ (iteration_space 2 3)
              (fun _ => 1) (fun _ => 1) 2 3 5 4 (fresh 0)
              {| arr := fresh 0; padding := None |}
              ltac:(lia) ltac:(lia) (Permutation_refl _)) as (Hw & _).
  exact Hw.
Defined.

(** C10.  Whatever the feature map, the kernel and the dimensions (positive
    or not), [conv2d] and [parallel_conv2d] of both variants return 0. *)
Theorem status_always_zero :
  forall (F : Type) (ops : Scalar F) (sched : list (Z * Z)) (f g : mem F)
         (H W kH kW w_padding h_padding : Z)
         (output : outbuf F) (padded_output : float_array F),
  fst (Logical.conv2d f H W g kH kW output) = 0 /\
  fst (Logical.parallel_conv2d sched f H W g kH kW padded_output) = 0 /\
  fst (Padded.conv2d f H W g kH kW w_padding h_padding output) = 0 /\
  fst (Padded.parallel_conv2d sched f H W g kH kW w_padding h_padding
         padded_output) = 0.
Proof. intros; repeat split. Qed.

(** * Dimensions that are not positive *)

Lemma iteration_space_empty : forall H W, H <= 0 \/ W <= 0 -> iteration_space H W = [].
Proof.
  intros H W Hd.
  destruct (iteration_space H W) as [|[n k] l] eqn:E; [reflexivity|].
  assert (Hin : In (n, k) (iteration_space H W)) by (rewrite E; now left).
  apply iteration_space_In in Hin. lia.
Qed.

Lemma tap_offsets_zero : tap_offsets 0 = [].
Proof. reflexivity. Qed.

Lemma logical_cells_without_taps :
  forall (F : Type) (ops : Scalar F) (f g : mem F) H W kH kW n k,
  kH = 0 \/ kW = 0 ->
  Logical.conv2d_cell f H W g kH kW n k = fzero /\
  Logical.parallel_conv2d_cell f H W g kH kW n k = fzero.
Proof.
  intros F ops f g H W kH kW n k Hk.
  rewrite logical_conv2d_cell_taps, logical_parallel_conv2d_cell_taps.
  destruct Hk as [-> | ->]; rewrite tap_offsets_zero; cbn [fold_left]; split;
    try reflexivity.
  - induction (tap_offsets kW) as [|j l IH]; [reflexivity | exact IH].
  - induction (tap_offsets kH) as [|j l IH]; [reflexivity | exact IH].
Qed.

(** C9, as the specification has it, fails: a feature map of height 0 is
    taken without complaint, and so is a kernel of height 0, for which all
    four cells of a 2 x 2 output are computed and stored. *)
Lemma invalid_dimension_accepted :
  let f : mem Binary32.float := fun _ => Binary32.one in
  let g : mem Binary32.float := fun _ => Binary32.one in
  invalid_dimensions 0 4 3 3 /\
  ~ rejected (Logical.conv2d f 0 4 g 3 3 (fresh fzero)) /\
  ~ rejected (Logical.parallel_conv2d (iteration_space 0 4) f 0 4 g 3 3
                {| arr := fresh fzero; padding := None |}) /\
  invalid_dimensions 2 2 0 3 /\
  ~ rejected (Logical.conv2d f 2 2 g 0 3 (fresh fzero)) /\
  written (snd (Logical.conv2d f 2 2 g 0 3 (fresh fzero))) = [0; 1; 2; 3].
Proof.
  intros f g. unfold invalid_dimensions, rejected; cbn [fst].
  split; [lia|].
  split; [intros E; now apply E|].
  split; [intros E; now apply E|].
  split; [lia|].
  split; [intros E; now apply E|].
  vm_compute; reflexivity.
Qed.

(** C9, amended.  A feature map or kernel whose height or width is not
    positive is not rejected: both convolvers return 0.  With a feature
    height or width [<= 0] they store to no cell and leave the output as it
    was; with a kernel height or width of 0 they store [0.0] to every cell
    of the output. *)
Theorem invalid_dimensions_pass :
  forall (F : Type) (ops : Scalar F) (sched : list (Z * Z)) (f g : mem F)
         (H W kH kW : Z) (output : outbuf F) (padded_output : float_array F),
  invalid_dimensions H W kH kW -> schedule_of H W sched ->
  let serial := Logical.conv2d f H W g kH kW output in
  let parallel := Logical.parallel_conv2d sched f H W g kH kW padded_output in
  ~ rejected serial /\ ~ rejected parallel /\
  (H <= 0 \/ W <= 0 -> snd serial = output /\ snd parallel = padded_output) /\
  (kH = 0 \/ kW = 0 -> forall n k, 0 <= n < H -> 0 <= k < W ->
     cells (snd serial) (IDX n k W) = fzero /\
     cells (arr (snd parallel)) (IDX n k W) = fzero).
Proof.
  intros F ops sched f g H W kH kW output po _ Hs serial parallel.
  split; [|split; [|split]].
  - intros E; now apply E.
  - intros E; now apply E.
  - intros Hd. pose proof (iteration_space_empty H W Hd) as He. split.
    + subst serial. rewrite logical_conv2d_stores, He. reflexivity.
    + subst parallel. unfold schedule_of in Hs. rewrite He in Hs.
      apply Permutation_sym, Permutation_nil in Hs. subst sched.
      destruct po; reflexivity.
  - intros Hk n k Hn Hk'.
    destruct (logical_cells_without_taps F ops f g H W kH kW n k Hk) as [E1 E2].
    split.
    + subst serial. now rewrite logical_conv2d_output_cell.
    + subst parallel. now rewrite logical_parallel_conv2d_output_cell.
Qed.

Lemma invalid_dimensions_pass_witness :
  ~ rejected (Logical.conv2d (fun _ => Binary32.one) 0 4 (fun _ => Binary32.one)
                3 3 (fresh fzero)).
Proof.
  destruct (invalid_dimensions_pass Binary32.float _ (iteration_space 0 4)
              (fun _ => Binary32.one) (fun _ => Binary32.one) 0 4 3 3
              (fresh fzero) {| arr := fresh fzero; padding := None |}
              (or_introl (Z.le_refl 0)) (Permutation_refl _)) as (Hr & _).
  exact Hr.
Defined.

(** * A kernel of one element *)

Lemma logical_cells_1x1 :
  forall (F : Type) (ops : Scalar F) (f g : mem F) H W n k,
  0 <= n < H -> 0 <= k < W ->
  Logical.conv2d_cell f H W g 1 1 n k =
    fadd fzero (fmul (f (IDX n k W)) (g (IDX 0 0 1))) /\
  Logical.parallel_conv2d_cell f H W g 1 1 n k =
    fadd fzero (fmul (f (IDX n k W)) (g (IDX 0 0 1))).
Proof.
  intros F ops f g H W n k Hn Hk.
  assert (Ht : Logical.tap_value f H W n k 0 0 = f (IDX n k W)).
  { unfold Logical.tap_value, Logical.guard. rewrite !Z.add_0_r.
    replace (n >=? 0) with true by lia. replace (n <? H) with true by lia.
    replace (k <? W) with true by lia. reflexivity. }
  split.
  - change (Logical.conv2d_cell f H W g 1 1 n k)
      with (fadd fzero (fmul (Logical.tap_value f H W n k 0 0) (g (IDX 0 0 1)))).
    now rewrite Ht.
  - change (Logical.parallel_conv2d_cell f H W g 1 1 n k)
      with (fadd fzero (fmul (Logical.tap_value f H W n k 0 0) (g (IDX 0 0 1)))).
    now rewrite Ht.
Qed.

(** ** Two facts of binary32 arithmetic *)

Lemma binary32_add_zero_l : forall p : Binary32.float,
  Binary32.same_number (fadd fzero p) p /\
  (p <> Binary32.neg_zero -> fadd fzero p = p).
Proof.
  intros [[|]|[|]| |s m e]; unfold Binary32.same_number, Binary32.neg_zero;
    cbn; split; auto; intros E; now contradiction E.
Qed.

Lemma binary32_one : Binary32.one = S754_finite false 8388608 (-23).
Proof. reflexivity. Qed.

Lemma digits2_shift23 : forall m : positive,
  Zpos (digits2_pos
          (m~0~0~0~0~0~0~0~0~0~0~0~0~0~0~0~0~0~0~0~0~0~0~0)) =
  Zpos (digits2_pos m) + 23.
Proof. intros m. cbn [digits2_pos]. lia. Qed.

Lemma shr_fexp_shifted : forall (m : positive) (e : Z),
  fexp Binary32.prec Binary32.emax (Zpos (digits2_pos m) + e) = e ->
  shr_fexp Binary32.prec Binary32.emax
    (Zpos (m~0~0~0~0~0~0~0~0~0~0~0~0~0~0~0~0~0~0~0~0~0~0~0)) (e + -23) loc_Exact =
  (Build_shr_record (Zpos m) false false, e).
Proof.
  intros m e Hc. unfold shr_fexp. cbn [Zdigits2 shr_record_of_loc].
  rewrite digits2_shift23.
  replace (Zpos (digits2_pos m) + 23 + (e + -23))
    with (Zpos (digits2_pos m) + e) by lia.
  rewrite Hc. replace (e - (e + -23)) with 23 by lia.
  cbn [shr]. f_equal. lia.
Qed.

Lemma shr_fexp_fixed : forall (m : positive) (e : Z),
  fexp Binary32.prec Binary32.emax (Zpos (digits2_pos m) + e) = e ->
  shr_fexp Binary32.prec Binary32.emax (Zpos m) e loc_Exact =
  (Build_shr_record (Zpos m) false false, e).
Proof.
  intros m e Hc. unfold shr_fexp. cbn [Zdigits2 shr_record_of_loc].
  rewrite Hc, Z.sub_diag. reflexivity.
Qed.

(** A product with [1.0f] is exact. *)
Lemma binary32_mul_one_r : forall x : Binary32.float,
  valid_binary Binary32.prec Binary32.emax x = true ->
  fmul x Binary32.one = x.
Proof.
  intros [s|s| |s m e] Hv; rewrite binary32_one; cbn [fmul Binary32.binary32 SFmul];
    [destruct s; reflexivity | destruct s; reflexivity | reflexivity | ].
  cbn [valid_binary] in Hv. unfold bounded, canonical_mantissa in Hv.
  apply andb_true_iff in Hv as [Hc He]. apply Z.eqb_eq in Hc.
  rewrite xorb_false_r, Pos.mul_comm.
  change (8388608 * m)%positive
    with (m~0~0~0~0~0~0~0~0~0~0~0~0~0~0~0~0~0~0~0~0~0~0~0)%positive.
  unfold binary_round_aux.
  rewrite (shr_fexp_shifted m e Hc).
  cbn [shr_m loc_of_shr_record round_nearest_even].
  rewrite (shr_fexp_fixed m e Hc). cbn [shr_m].
  rewrite He. reflexivity.
Qed.

(** C7.  With a 1 x 1 kernel every output cell [(n, k)] of the serial and of
    the parallel convolver is [feature[n,k] * kernel[0,0]], a single
    product with no rounding beside its own: the cell holds that very
    [float] (a product of [-0.0] is held as [0.0], the same number).  With
    the kernel [[1.0]] the output is the feature map. *)
Theorem one_by_one_kernel_scales :
  forall (sched : list (Z * Z)) (f g : mem Binary32.float) (H W : Z)
         (output : outbuf Binary32.float)
         (padded_output : float_array Binary32.float) (n k : Z),
  0 <= n < H -> 0 <= k < W -> schedule_of H W sched ->
  let serial := cells (snd (Logical.conv2d f H W g 1 1 output)) (IDX n k W) in
  let parallel :=
    cells (arr (snd (Logical.parallel_conv2d sched f H W g 1 1 padded_output)))
          (IDX n k W) in
  let product := fmul (f (IDX n k W)) (g (IDX 0 0 1)) in
  Binary32.same_number serial product /\
  Binary32.same_number parallel product /\
  (product <> Binary32.neg_zero -> serial = product /\ parallel = product) /\
  (g (IDX 0 0 1) = Binary32.one ->
   valid_binary Binary32.prec Binary32.emax (f (IDX n k W)) = true ->
   Binary32.same_number serial (f (IDX n k W)) /\
   Binary32.same_number parallel (f (IDX n k W))).
Proof.
  intros sched f g H W output po n k Hn Hk Hs serial parallel product.
  destruct (logical_cells_1x1 _ _ f g H W n k Hn Hk) as [Es Ep].
  assert (Hser : serial = fadd fzero product).
  { subst serial. now rewrite logical_conv2d_output_cell. }
  assert (Hpar : parallel = fadd fzero product).
  { subst parallel. now rewrite logical_parallel_conv2d_output_cell. }
  destruct (binary32_add_zero_l product) as [Hsame Hexact].
  rewrite Hser, Hpar. split; [exact Hsame | split; [exact Hsame | split]].
  - intros Hnz. split; now apply Hexact.
  - intros Hg Hv. subst product.
    rewrite Hg, binary32_mul_one_r in Hsame |- * by exact Hv.
    split; exact Hsame.
Qed.

Lemma one_by_one_kernel_scales_witness :
  Binary32.same_number
    (cells (snd (Logical.conv2d
                   (mem_of_list fzero (map Binary32.of_Z [5; 6; 7; 8])) 2 2
                   (mem_of_list fzero [Binary32.of_Z 3]) 1 1 (fresh fzero)))
           (IDX 1 0 2))
    (Binary32.of_Z 21).
Proof.
  destruct (one_by_one_kernel_scales (iteration_space 2 2)
              (mem_of_list fzero (map Binary32.of_Z [5; 6; 7; 8]))
              (mem_of_list fzero [Binary32.of_Z 3]) 2 2 (fresh fzero)
              {| arr := fresh fzero; padding := None |} 1 0
              ltac:(lia) ltac:(lia) (Permutation_refl _)) as (Hw & _).
  exact Hw.
Defined.

(** * The border of the feature map *)

(** The test of [conv2d.c]'s [parallel_conv2d] is the boundary policy. *)
Lemma padded_tap_value_policy :
  forall (F : Type) (ops : Scalar F) (f : mem F) H W n k i j,
  Padded.tap_value f H W n k i j = Spec.boundaryRead f H W (n + i) (k + j).
Proof.
  intros; unfold Padded.tap_value, Padded.guard, Spec.boundaryRead; cbv zeta.
  now rewrite !Z.geb_leb.
Qed.

(** The test of the logical variant is the boundary policy on every tap whose
    column is not negative. *)
Lemma logical_tap_value_policy :
  forall (F : Type) (ops : Scalar F) (f : mem F) H W n k i j,
  0 <= k + j ->
  Logical.tap_value f H W n k i j = Spec.boundaryRead f H W (n + i) (k + j).
Proof.
  intros F ops f H W n k i j Hc.
  unfold Logical.tap_value, Logical.guard, Spec.boundaryRead; cbv zeta.
  rewrite !Z.geb_leb. replace (0 <=? k + j) with true by lia.
  now destruct (0 <=? n + i), (n + i <? H), (k + j <? W).
Qed.

(** On a tap in a row of the feature map whose column is negative, the
    logical variant reads the feature map at the offset the macro computes,
    which is an element of the row above (or lies before the array). *)
Lemma logical_tap_value_wraps :
  forall (F : Type) (ops : Scalar F) (f : mem F) H W n k i j,
  0 <= W -> 0 <= n + i < H -> k + j < 0 ->
  Logical.tap_value f H W n k i j = f (IDX (n + i) (k + j) W) /\
  IDX (n + i) (k + j) W = IDX (n + i - 1) (W + (k + j)) W.
Proof.
  intros F ops f H W n k i j HW Hr Hc.
  unfold Logical.tap_value, Logical.guard, IDX; cbv zeta.
  replace (n + i >=? 0) with true by lia. replace (n + i <? H) with true by lia.
  replace (k + j <? W) with true by lia. split; [reflexivity | lia].
Qed.

(** The first cell of every run with a kernel at least two columns wide
    consults the element before the feature map. *)
Lemma logical_first_cell_reads_before :
  forall H W kH kW, 1 <= H -> 1 <= W -> 1 <= kH -> 2 <= kW ->
  In (-1) (Logical.cell_reads H W kH kW 0 0).
Proof.
  intros H W kH kW HH HW HkH HkW. unfold Logical.cell_reads.
  pose proof (window_span kH ltac:(lia)) as SH.
  pose proof (window_span kW ltac:(lia)) as SW.
  assert (1 <= half kW).
  { rewrite half_pos by lia. apply Z.div_le_lower_bound; lia. }
  assert (0 <= half kH).
  { rewrite half_pos by lia. apply Z.div_pos; lia. }
  pose proof (even_offset_range kH). pose proof (even_offset_range kW).
  apply in_flat_map. exists 0. split; [apply tap_offsets_In; lia|].
  apply in_flat_map. exists (-1). split; [apply tap_offsets_In; lia|].
  unfold Logical.guard, IDX. cbn [Z.add Z.mul].
  replace (0 <? H) with true by lia. replace (-1 <? W) with true by lia.
  now left.
Qed.

(** ** The serial convolver of [conv2d.c] on a zero-padded copy *)

Lemma zero_padded_read :
  forall (F : Type) (ops : Scalar F) (feature : mem F) H W hp wp r c,
  0 <= c < W + wp * 2 ->
  Spec.zero_padded feature H W hp wp (IDX r c (W + wp * 2)) =
  Spec.boundaryRead feature H W (r - hp) (c - wp).
Proof.
  intros F ops feature H W hp wp r c Hc. unfold Spec.zero_padded, IDX; cbv zeta.
  rewrite Z.div_add_l, Z.div_small, Z.add_0_r by lia.
  rewrite Z.add_comm, Z_mod_plus_full, Z.mod_small by lia. reflexivity.
Qed.

(** On the zero-padded copy, with the paddings [kH/2] and [kW/2] that [main]
    passes, [conv2d] of [conv2d.c] computes the sum of the specification. *)
Lemma padded_conv2d_cell_policy :
  forall (F : Type) (ops : Scalar F) (feature g : mem F) H W kH kW n k,
  1 <= kH -> 1 <= kW -> 0 <= k < W ->
  Padded.conv2d_cell (Spec.zero_padded feature H W (half kH) (half kW)) W g
    kH kW (half kW) (n + half kH) (k + half kW) =
  Spec.serialConvolve_cell feature H W g kH kW n k.
Proof.
  intros F ops feature g H W kH kW n k HkH HkW Hk.
  rewrite padded_conv2d_cell_taps. unfold Spec.serialConvolve_cell, Spec.half_of.
  rewrite <- !tap_offsets_refine by assumption.
  pose proof (even_offset_range kW) as OW.
  apply fold_left_ext_In; intros a i Hi.
  apply fold_left_ext_In; intros b j Hj.
  apply tap_offsets_In in Hj.
  rewrite zero_padded_read by lia.
  rewrite <- (half_pos kH HkH), <- (half_pos kW HkW).
  do 3 f_equal; lia.
Qed.

(** Away from the left border the logical variant computes the same sum. *)
Lemma logical_conv2d_cell_policy :
  forall (F : Type) (ops : Scalar F) (f g : mem F) H W kH kW n k,
  1 <= kH -> 1 <= kW -> half kW <= k ->
  Logical.conv2d_cell f H W g kH kW n k =
  Spec.serialConvolve_cell f H W g kH kW n k.
Proof.
  intros F ops f g H W kH kW n k HkH HkW Hk.
  rewrite logical_conv2d_cell_taps. unfold Spec.serialConvolve_cell, Spec.half_of.
  rewrite <- !tap_offsets_refine by assumption.
  apply fold_left_ext_In; intros a i Hi.
  apply fold_left_ext_In; intros b j Hj.
  apply tap_offsets_In in Hj. unfold Logical.tap.
  rewrite logical_tap_value_policy by lia.
  now rewrite <- (half_pos kH HkH), <- (half_pos kW HkW).
Qed.

Lemma iterate_shift : forall (S : Type) (body : Z -> S -> S) count i d s,
  iterate count (i + d) body s = iterate count i (fun x => body (x + d)) s.
Proof.
  intros S body; induction count as [|c IH]; intros i d s; cbn; [reflexivity|].
  rewrite <- IH. f_equal. lia.
Qed.

Lemma for_lt_shift : forall (S : Type) (body : Z -> S -> S) lo len s,
  for_lt lo (len + lo * 2 - lo) body s = for_lt 0 len (fun x => body (x + lo)) s.
Proof.
  intros; unfold for_lt. rewrite <- iterate_shift. f_equal; lia.
Qed.

Lemma padded_conv2d_stores :
  forall (F : Type) (ops : Scalar F) (f g : mem F) H W kH kW wp hp (output : outbuf F),
  snd (Padded.conv2d f H W g kH kW wp hp output) =
  fold_left
    (store_cell W (fun n k => Padded.conv2d_cell f W g kH kW wp (n + hp) (k + wp)))
    (iteration_space H W) output.
Proof.
  intros; unfold Padded.conv2d; cbn [snd].
  change (fold_left (store_cell W ?v) ?l ?s)
    with (omp_for_collapse2 l (fun n k out => store out (IDX n k W) (v n k)) s).
  rewrite <- nested_loops_fold, for_lt_shift, !for_lt_fold.
  apply fold_left_ext_In; intros a n _.
  rewrite for_lt_shift, !for_lt_fold.
  apply fold_left_ext_In; intros b k _.
  f_equal. f_equal; lia.
Qed.

Lemma padded_conv2d_output_cell :
  forall (F : Type) (ops : Scalar F) (f g : mem F) H W kH kW wp hp
         (output : outbuf F) n k,
  0 <= n < H -> 0 <= k < W ->
  cells (snd (Padded.conv2d f H W g kH kW wp hp output)) (IDX n k W) =
  Padded.conv2d_cell f W g kH kW wp (n + hp) (k + wp).
Proof.
  intros F ops f g H W kH kW wp hp output n k Hn Hk. rewrite padded_conv2d_stores.
  apply (store_cells_value W
           (fun n k => Padded.conv2d_cell f W g kH kW wp (n + hp) (k + wp)));
    [| assumption | now apply iteration_space_In].
  intros [n' k'] Hp. apply iteration_space_In in Hp. cbn; lia.
Qed.

(** ** A tap left of the feature map *)

(** C1.  In the logical variant the tap of output cell [(1, 0)] at column
    [-1] does not contribute [0.0]: the test lets it through, it reads
    offset 1, that is [feature[0,1] = 2.0], and both convolvers store [2.0]
    where the boundary policy gives [0.0].  [parallel_conv2d] of [conv2d.c],
    whose test has the comparison of the column with 0, stores [0.0]. *)
Theorem negative_column_tap_is_read :
  forall junk : Binary32.float,
  Spec.boundaryRead (feature_2x2 junk) 2 2 (1 + 0) (0 + -1) = fzero /\
  Logical.guard 2 2 (1 + 0) (0 + -1) = true /\
  Logical.tap_value (feature_2x2 junk) 2 2 1 0 0 (-1) = Binary32.of_Z 2 /\
  cells (snd (Logical.conv2d (feature_2x2 junk) 2 2 (kernel_1x3 junk) 1 3
                (fresh junk)))
        (IDX 1 0 2) = Binary32.of_Z 2 /\
  cells (arr (snd (Logical.parallel_conv2d (iteration_space 2 2)
                     (feature_2x2 junk) 2 2 (kernel_1x3 junk) 1 3
                     (no_output junk))))
        (IDX 1 0 2) = Binary32.of_Z 2 /\
  cells (arr (snd (Padded.parallel_conv2d (iteration_space 2 2)
                     (feature_2x2 junk) 2 2 (kernel_1x3 junk) 1 3 1 0
                     (no_output junk))))
        (IDX 1 0 2) = fzero.
Proof.
  intros junk.
  split; [vm_compute; reflexivity|].
  split; [vm_compute; reflexivity|].
  split; [vm_compute; reflexivity|].
  rewrite logical_conv2d_output_cell by lia.
  rewrite logical_parallel_conv2d_output_cell
    by (try apply Permutation_refl; lia).
  rewrite padded_parallel_conv2d_output_cell
    by (try apply Permutation_refl; lia).
  repeat split; vm_compute; reflexivity.
Qed.

(** C3.  On the same input the two ways of handling the border differ in
    cell [(1, 0)]: [conv2d] of [conv2d.c] on the zero-padded copy stores
    [0.0], [conv2d] of the logical variant stores [2.0]. *)
Theorem padded_and_logical_differ :
  forall junk : Binary32.float,
  cells (snd (Padded.conv2d
                (Spec.zero_padded (feature_2x2 junk) 2 2 (half 1) (half 3)) 2 2
                (kernel_1x3 junk) 1 3 (half 3) (half 1) (fresh junk)))
        (IDX 1 0 2) = fzero /\
  cells (snd (Logical.conv2d (feature_2x2 junk) 2 2 (kernel_1x3 junk) 1 3
                (fresh junk)))
        (IDX 1 0 2) = Binary32.of_Z 2 /\
  Spec.serialConvolve_cell (feature_2x2 junk) 2 2 (kernel_1x3 junk) 1 3 1 0
  = fzero.
Proof.
  intros junk.
  rewrite padded_conv2d_output_cell by lia.
  rewrite logical_conv2d_output_cell by lia.
  repeat split; vm_compute; reflexivity.
Qed.

(** ** The boundary example: a 3 x 3 feature map of ones, a 3 x 3 kernel of
    [1.0/9.0] *)

(** C5.  In the logical variant the corner cell [(2, 0)] of the example is not
    [0.444]: the two taps at column [-1] in rows 1 and 2 read
    [feature[0,2]] and [feature[1,2]], six taps count, and the cell holds
    [11184811 * 2^-24], about [0.667].  The centre and the edge midpoint
    [(0, 1)] are as expected. *)
Theorem boundary_example_corner :
  forall junk : Binary32.float,
  let out :=
    snd (Logical.conv2d (ones_3x3 junk) 3 3 (ninths_3x3 junk) 3 3
           (fresh junk)) in
  let par :=
    arr (snd (Logical.parallel_conv2d (iteration_space 3 3)
                (ones_3x3 junk) 3 3 (ninths_3x3 junk) 3 3 (no_output junk))) in
  cells out (IDX 2 0 3) = S754_finite false 11184811 (-24) /\
  cells par (IDX 2 0 3) = S754_finite false 11184811 (-24) /\
  ~ Binary32.within (1 # 1000) (444 # 1000) (cells out (IDX 2 0 3)) /\
  ~ Binary32.within (1 # 1000) (444 # 1000) (cells par (IDX 2 0 3)) /\
  Logical.cell_reads 3 3 3 3 2 0 = [2; 3; 4; 5; 6; 7] /\
  Binary32.within (1 # 1000) 1 (cells out (IDX 1 1 3)) /\
  Binary32.within (1 # 1000) (667 # 1000) (cells out (IDX 0 1 3)).
Proof.
  intros junk.
  intros out par. subst out par.
  rewrite !logical_conv2d_output_cell by lia.
  rewrite !logical_parallel_conv2d_output_cell
    by (try apply Permutation_refl; lia).
  split; [vm_compute; reflexivity|].
  split; [vm_compute; reflexivity|].
  split; [intros Hw; vm_compute in Hw; apply Hw; reflexivity|].
  split; [intros Hw; vm_compute in Hw; apply Hw; reflexivity|].
  split; [vm_compute; reflexivity|].
  split; vm_compute; discriminate.
Qed.

(** [parallel_conv2d] of [conv2d.c] meets the example in all nine cells. *)
Lemma boundary_example_checked :
  forall junk : Binary32.float,
  let par :=
    arr (snd (Padded.parallel_conv2d (iteration_space 3 3)
                (ones_3x3 junk) 3 3 (ninths_3x3 junk) 3 3 1 1
                (no_output junk))) in
  Binary32.within (1 # 1000) 1 (cells par (IDX 1 1 3)) /\
  Forall (fun nk => Binary32.within (1 # 1000) (667 # 1000)
                      (cells par (IDX (fst nk) (snd nk) 3)))
         [(0, 1); (1, 0); (1, 2); (2, 1)] /\
  Forall (fun nk => Binary32.within (1 # 1000) (444 # 1000)
                      (cells par (IDX (fst nk) (snd nk) 3)))
         [(0, 0); (0, 2); (2, 0); (2, 2)].
Proof.
  intros junk.
  intros par. subst par.
  assert (Hcell : forall n k tol target, 0 <= n < 3 -> 0 <= k < 3 ->
    Binary32.within tol target
      (Padded.parallel_conv2d_cell (ones_3x3 junk) 3 3 (ninths_3x3 junk) 3 3 n k) ->
    Binary32.within tol target
      (cells (arr (snd (Padded.parallel_conv2d (iteration_space 3 3)
                          (ones_3x3 junk) 3 3 (ninths_3x3 junk) 3 3 1 1
                          (no_output junk))))
             (IDX n k 3))).
  { intros n k tol target Hn Hk Hw.
    rewrite padded_parallel_conv2d_output_cell;
      [exact Hw | apply Permutation_refl | exact Hn | exact Hk]. }
  split; [apply Hcell; [lia | lia | vm_compute; discriminate]|].
  split; repeat first
    [ apply Forall_nil
    | apply Forall_cons;
        [cbv beta; cbn [fst snd];
         apply Hcell; [lia | lia | vm_compute; discriminate]|] ].
Qed.

(** * Serial against parallel *)

(** C2, as the specification has it, fails in binary32: on this input cell
    [(1, 1)], whose four taps all lie in the feature map, is
    [((2^24 + 1) - 2^24) + 0 = 0] for the serial convolver, which goes
    through the window row by row, and [((2^24 - 2^24) + 1) + 0 = 1] for the
    parallel one, which goes through it column by column. *)
Lemma serial_parallel_differ :
  let serial :=
    cells (snd (Logical.conv2d feature_cancelling 2 2 kernel_ones_2x2 2 2
                  (fresh fzero))) (IDX 1 1 2) in
  let parallel :=
    cells (arr (snd (Logical.parallel_conv2d (iteration_space 2 2)
                       feature_cancelling 2 2 kernel_ones_2x2 2 2
                       {| arr := fresh fzero; padding := None |}))) (IDX 1 1 2) in
  Logical.cell_reads 2 2 2 2 1 1 = [0; 1; 2; 3] /\
  serial = fzero /\ parallel = Binary32.one /\
  ~ Binary32.closer_than (1 # 10000) serial parallel.
Proof.
  intros serial parallel. subst serial parallel.
  rewrite logical_conv2d_output_cell by lia.
  rewrite logical_parallel_conv2d_output_cell
    by (try apply Permutation_refl; lia).
  split; [vm_compute; reflexivity|].
  split; [vm_compute; reflexivity|].
  split; [vm_compute; reflexivity|].
  intros Hc. vm_compute in Hc. discriminate Hc.
Qed.

Section Exact.
Context {F : Type} {ops : Scalar F} {exact : ExactAdd F}.

Lemma fold_left_fadd_perm : forall l l' : list F,
  Permutation l l' -> forall a, fold_left fadd l a = fold_left fadd l' a.
Proof.
  induction 1 as [|x l l' _ IH|x y l|l l' l'' _ IH1 _ IH2]; intros a; cbn.
  - reflexivity.
  - apply IH.
  - f_equal. rewrite !fadd_assoc. f_equal. apply fadd_comm.
  - now rewrite IH1.
Qed.
End Exact.

Lemma flat_map_split : forall (A B : Type) (a : A -> B) (b : A -> list B) l,
  Permutation (flat_map (fun x => a x :: b x) l) (map a l ++ flat_map b l).
Proof.
  intros A B a b; induction l as [|x l IH]; cbn; [constructor|].
  constructor. rewrite IH. apply Permutation_app_swap_app.
Qed.

(** Going through a window by rows or by columns meets the same taps. *)
Lemma window_transpose : forall (A : Type) (t : Z -> Z -> A) rows cols,
  Permutation (flat_map (fun i => map (fun j => t i j) cols) rows)
              (flat_map (fun j => map (fun i => t i j) rows) cols).
Proof.
  intros A t; induction rows as [|i rows IH]; intros cols; cbn.
  - induction cols as [|j cols IHc]; [constructor | exact IHc].
  - rewrite IH. symmetry. apply flat_map_split.
Qed.

(** ** The reduction of the parallel convolver *)

Lemma iterations_in_order : forall l, iterations (in_order l) = l.
Proof.
  assert (Hgen : forall l r,
    iterations (fold_left (fun r ji => Combine r (Iteration (fst ji) (snd ji)))
                  l r) = iterations r ++ l).
  { induction l as [|[j i] l IH]; intros r; cbn [fold_left].
    - now rewrite app_nil_r.
    - rewrite IH. cbn [iterations fst snd]. now rewrite <- app_assoc. }
  intros l. unfold in_order. now rewrite Hgen.
Qed.

Lemma reduce_in_order :
  forall (F : Type) (ops : Scalar F) (product : Z -> Z -> F) l,
  reduce product (in_order l) =
  fold_left (fun result ji => fadd result (product (fst ji) (snd ji))) l fzero.
Proof.
  intros F ops product.
  assert (Hgen : forall l r,
    reduce product
      (fold_left (fun r ji => Combine r (Iteration (fst ji) (snd ji))) l r) =
    fold_left (fun result ji => fadd result (product (fst ji) (snd ji))) l
      (reduce product r)).
  { induction l as [|[j i] l IH]; intros r; cbn [fold_left]; [reflexivity|].
    now rewrite IH. }
  intros l. unfold in_order. now rewrite Hgen.
Qed.

(** The loops of [conv2d] and those of [parallel_conv2d] go through the
    same iterations. *)
Lemma serial_simd_space : forall kH kW,
  Permutation (serial_space kH kW) (simd_space kH kW).
Proof.
  intros kH kW. rewrite serial_space_flat, simd_space_flat.
  apply (window_transpose (Z * Z) (fun i j => (j, i))).
Qed.

(** Without the pragma the reduction is the one in program order. *)
Lemma program_order_reduction : forall kH kW,
  reduction_of kH kW (in_order (simd_space kH kW)).
Proof. intros; unfold reduction_of; now rewrite iterations_in_order. Qed.

Lemma logical_conv2d_cell_reduction :
  forall (F : Type) (ops : Scalar F) (f g : mem F) H W kH kW n k,
  Logical.conv2d_cell f H W g kH kW n k =
  reduce (Logical.product f H W g kH kW n k) (in_order (serial_space kH kW)).
Proof.
  intros. rewrite logical_conv2d_cell_taps, reduce_in_order, serial_space_flat.
  rewrite fold_left_flat_map.
  apply fold_left_ext_In; intros a i _. now rewrite fold_left_map.
Qed.

Lemma logical_parallel_cell_program_order :
  forall (F : Type) (ops : Scalar F) (f g : mem F) H W kH kW n k,
  Logical.parallel_conv2d_cell_simd (in_order (simd_space kH kW)) f H W g
    kH kW n k =
  Logical.parallel_conv2d_cell f H W g kH kW n k.
Proof.
  intros. unfold Logical.parallel_conv2d_cell_simd.
  rewrite logical_parallel_conv2d_cell_taps, reduce_in_order, simd_space_flat.
  rewrite fold_left_flat_map.
  apply fold_left_ext_In; intros a j _. now rewrite fold_left_map.
Qed.

(** [parallel_conv2d] of the logical variant is [parallel_conv2d_simd] with
    the reduction of every cell in program order. *)
Lemma logical_parallel_program_order :
  forall (F : Type) (ops : Scalar F) sched (f g : mem F) H W kH kW
         (padded_output : float_array F),
  Logical.parallel_conv2d_simd sched (fun _ _ => in_order (simd_space kH kW))
    f H W g kH kW padded_output =
  Logical.parallel_conv2d sched f H W g kH kW padded_output.
Proof.
  intros. unfold Logical.parallel_conv2d_simd, Logical.parallel_conv2d,
    omp_for_collapse2; cbv zeta.
  do 2 f_equal. apply fold_left_ext_In; intros out nk _.
  now rewrite logical_parallel_cell_program_order.
Qed.

Lemma logical_parallel_simd_output_cell :
  forall (F : Type) (ops : Scalar F) sched red (f g : mem F) H W kH kW
         (padded_output : float_array F) n k,
  schedule_of H W sched -> 0 <= n < H -> 0 <= k < W ->
  cells (arr (snd (Logical.parallel_conv2d_simd sched red f H W g kH kW
                     padded_output))) (IDX n k W) =
  reduce (Logical.product f H W g kH kW n k) (red n k).
Proof.
  intros F ops sched red f g H W kH kW po n k Hs Hn Hk.
  unfold Logical.parallel_conv2d_simd, omp_for_collapse2; cbn [snd arr].
  apply (store_cells_value W
    (fun n k => Logical.parallel_conv2d_cell_simd (red n k) f H W g kH kW n k));
    [| assumption | now apply (schedule_covers H W)].
  intros p Hp. now apply (schedule_in_range H W sched).
Qed.

(** ** Exact arithmetic *)

Section ExactReductions.
Context {F : Type} {ops : Scalar F} {exact : ExactAdd F}.
Hypothesis fadd_zero_l : forall x : F, fadd fzero x = x.

Lemma fold_left_fadd_from : forall (l : list F) (a : F),
  fold_left fadd l a = fadd a (fold_left fadd l fzero).
Proof.
  induction l as [|x l IH]; intros a; cbn [fold_left].
  - now rewrite fadd_comm, fadd_zero_l.
  - rewrite IH, (IH (fadd fzero x)), fadd_zero_l. apply fadd_assoc.
Qed.

Lemma reduce_exact : forall (product : Z -> Z -> F) (r : reduction),
  reduce product r =
  fold_left fadd (map (fun ji => product (fst ji) (snd ji)) (iterations r)) fzero.
Proof.
  intros product; induction r as [|j i|a IHa b IHb]; cbn [reduce iterations map fold_left].
  - reflexivity.
  - now rewrite fadd_zero_l.
  - rewrite map_app, fold_left_app, IHa, IHb. symmetry. apply fold_left_fadd_from.
Qed.

(** Where addition is exact, the order of a reduction does not show. *)
Lemma reductions_agree_exact : forall (product : Z -> Z -> F) (r1 r2 : reduction),
  Permutation (iterations r1) (iterations r2) ->
  reduce product r1 = reduce product r2.
Proof.
  intros product r1 r2 Hperm. rewrite !reduce_exact.
  apply fold_left_fadd_perm, Permutation_map, Hperm.
Qed.

(** In exact arithmetic the serial and the parallel convolver of the
    logical variant compute the same cell, whatever the order of the
    reduction. *)
Lemma logical_cells_agree_exact :
  forall (red : reduction) (f g : mem F) H W kH kW n k,
  reduction_of kH kW red ->
  Logical.conv2d_cell f H W g kH kW n k =
  Logical.parallel_conv2d_cell_simd red f H W g kH kW n k.
Proof.
  intros red f g H W kH kW n k Hred.
  rewrite logical_conv2d_cell_reduction. unfold Logical.parallel_conv2d_cell_simd.
  apply reductions_agree_exact. rewrite iterations_in_order.
  etransitivity; [apply serial_simd_space|]. symmetry. exact Hred.
Qed.
End ExactReductions.

(** ** Rounding *)

Lemma exact_sum_app : forall product l1 l2,
  (exact_sum product (l1 ++ l2) ==
   exact_sum product l1 + exact_sum product l2)%Q.
Proof.
  intros product; induction l1 as [|x l1 IH]; intros l2;
    unfold exact_sum in *; cbn [app fold_right].
  - lra.
  - rewrite IH. lra.
Qed.

Lemma exact_sum_perm : forall product l l',
  Permutation l l' -> (exact_sum product l == exact_sum product l')%Q.
Proof.
  intros product l l' Hp.
  induction Hp as [|x l l' _ IH|x y l|l l' l'' _ IH1 _ IH2];
    unfold exact_sum in *; cbn [fold_right]; lra.
Qed.

Lemma exact_sum_ext : forall product1 product2 l,
  (forall j i, In (j, i) l -> product1 j i = product2 j i) ->
  (exact_sum product1 l == exact_sum product2 l)%Q.
Proof.
  intros product1 product2; induction l as [|[j i] l IH]; intros Hext;
    unfold exact_sum in *; cbn [fold_right fst snd].
  - lra.
  - rewrite (Hext j i) by now left.
    rewrite IH by (intros; apply Hext; now right). lra.
Qed.

(** The [float] a reduction leaves differs from the sum without rounding of
    its products by no more than the rounding errors of its additions. *)
Lemma rounding_sound : forall (product : Z -> Z -> Binary32.float) r e,
  rounding product r = Some e ->
  exists v, Binary32.to_Q (reduce product r) = Some v /\
            (Qabs (v - exact_sum product (iterations r)) <= e)%Q.
Proof.
  intros product; induction r as [|j i|a IHa b IHb]; intros e Hr;
    cbn [rounding reduce iterations] in *.
  - injection Hr as <-. exists 0%Q. split; [reflexivity|].
    vm_compute. discriminate.
  - destruct (Binary32.to_Q (product j i)) as [v|] eqn:Ev; [|discriminate].
    injection Hr as <-. exists v. split; [reflexivity|].
    unfold exact_sum, value; cbn [fold_right fst snd]. rewrite Ev.
    apply Qabs_Qle_condition. split; lra.
  - destruct (rounding product a) as [ea|]; [|discriminate].
    destruct (rounding product b) as [eb|]; [|discriminate].
    destruct (add_error (reduce product a) (reduce product b)) as [err|] eqn:Eerr;
      [|discriminate].
    injection Hr as <-.
    destruct (IHa ea eq_refl) as (p & Hp & Hpa).
    destruct (IHb eb eq_refl) as (q & Hq & Hqb).
    unfold add_error in Eerr. rewrite Hp, Hq in Eerr.
    destruct (Binary32.to_Q (fadd (reduce product a) (reduce product b)))
      as [s|] eqn:Es; [|discriminate].
    pose proof (f_equal (fun o => match o with Some x => x | None => 0%Q end)
                  Eerr) as Herr.
    cbv beta iota in Herr. clear Eerr.
    exists s. split; [reflexivity|].
    pose proof (exact_sum_app product (iterations a) (iterations b)) as Happ.
    apply Qabs_Qle_condition in Hpa, Hqb.
    pose proof (Qle_Qabs (s - (p + q))) as Hup.
    pose proof (Qle_Qabs (- (s - (p + q)))) as Hlo. rewrite Qabs_opp in Hlo.
    rewrite Herr in Hup, Hlo.
    apply Qabs_Qle_condition. split; lra.
Qed.

(** Two reductions of the same products differ by no more than the rounding
    errors of both. *)
Lemma reductions_within_rounding :
  forall (product1 product2 : Z -> Z -> Binary32.float) r1 r2 e1 e2,
  Permutation (iterations r1) (iterations r2) ->
  (forall j i, In (j, i) (iterations r1) -> product1 j i = product2 j i) ->
  rounding product1 r1 = Some e1 -> rounding product2 r2 = Some e2 ->
  exists p q : Q,
    Binary32.to_Q (reduce product1 r1) = Some p /\
    Binary32.to_Q (reduce product2 r2) = Some q /\
    (Qabs (p - q) <= e1 + e2)%Q /\
    ((e1 + e2 < 1 # 10000)%Q ->
     Binary32.closer_than (1 # 10000) (reduce product1 r1) (reduce product2 r2)) /\
    ((e1 + e2 == 0)%Q -> (p == q)%Q).
Proof.
  intros product1 product2 r1 r2 e1 e2 Hperm Hext H1 H2.
  destruct (rounding_sound product1 r1 e1 H1) as (p & Hp & Hpe).
  destruct (rounding_sound product2 r2 e2 H2) as (q & Hq & Hqe).
  pose proof (exact_sum_ext product1 product2 (iterations r1) Hext) as E1.
  pose proof (exact_sum_perm product2 _ _ Hperm) as E2.
  assert (Hpq : (Qabs (p - q) <= e1 + e2)%Q).
  { apply Qabs_Qle_condition in Hpe, Hqe.
    apply Qabs_Qle_condition. split; lra. }
  exists p, q. split; [exact Hp | split; [exact Hq | split; [exact Hpq | split]]].
  - intros Htol. unfold Binary32.closer_than. rewrite Hp, Hq.
    eapply Qle_lt_trans; eassumption.
  - intros Hzero. apply Qabs_Qle_condition in Hpq. lra.
Qed.

(** ** Additions in binary32

    What [SpecFloat] computes for an addition: the sum of the two numbers,
    rounded to 24 bits. *)

Lemma digits2_pos_bounds : forall p : positive,
  2 ^ (Zpos (digits2_pos p) - 1) <= Zpos p < 2 ^ Zpos (digits2_pos p).
Proof.
  induction p as [p IH|p IH|]; cbn [digits2_pos].
  - rewrite Pos2Z.inj_succ, (Pos2Z.inj_xI p).
    replace (Z.succ (Zpos (digits2_pos p)) - 1) with (Z.succ (Zpos (digits2_pos p) - 1)) by lia.
    rewrite !Z.pow_succ_r by lia. lia.
  - rewrite Pos2Z.inj_succ, (Pos2Z.inj_xO p).
    replace (Z.succ (Zpos (digits2_pos p)) - 1) with (Z.succ (Zpos (digits2_pos p) - 1)) by lia.
    rewrite !Z.pow_succ_r by lia. lia.
  - cbn. lia.
Qed.

Lemma digits2_pos_unique : forall (p : positive) (d : Z),
  2 ^ (d - 1) <= Zpos p < 2 ^ d -> Zpos (digits2_pos p) = d.
Proof.
  intros p d [Hlo Hhi]. pose proof (digits2_pos_bounds p) as [Blo Bhi].
  assert (0 < d).
  { destruct (Z.lt_ge_cases 0 d) as [|Hd]; [assumption|].
    destruct (Z.eq_dec d 0) as [->|]; [cbn in Hhi; lia|].
    rewrite Z.pow_neg_r in Hhi by lia. lia. }
  destruct (Z.lt_trichotomy (Zpos (digits2_pos p)) d) as [Hlt|[Heq|Hgt]];
    [|assumption|].
  - assert (2 ^ Zpos (digits2_pos p) <= 2 ^ (d - 1))
      by (apply Z.pow_le_mono_r; lia). lia.
  - assert (2 ^ d <= 2 ^ (Zpos (digits2_pos p) - 1))
      by (apply Z.pow_le_mono_r; lia). lia.
Qed.

Lemma iter_pos_nat : forall (A : Type) (f : A -> A) (p : positive) (x : A),
  SpecFloat.iter_pos f p x = Nat.iter (Pos.to_nat p) f x.
Proof.
  intros A f; induction p as [p IH|p IH|]; intros x; cbn [SpecFloat.iter_pos].
  - rewrite !IH, Pos2Nat.inj_xI.
    replace (S (2 * Pos.to_nat p)) with (Pos.to_nat p + Pos.to_nat p + 1)%nat by lia.
    rewrite !Nat.iter_add. reflexivity.
  - rewrite !IH, Pos2Nat.inj_xO.
    replace (2 * Pos.to_nat p)%nat with (Pos.to_nat p + Pos.to_nat p)%nat by lia.
    rewrite Nat.iter_add. reflexivity.
  - reflexivity.
Qed.

Lemma shr_1_nonneg : forall m r s, 0 <= m ->
  shr_1 (Build_shr_record m r s) = Build_shr_record (Z.div2 m) (Z.odd m) (r || s).
Proof.
  intros [|[p|p|]|p] r s Hm; try reflexivity. lia.
Qed.

Lemma shr_iter : forall (k : nat) (M : Z), 0 <= M ->
  exists m r s L,
    Nat.iter k shr_1 (Build_shr_record M false false) = Build_shr_record m r s /\
    0 <= m /\
    2 * M = 2 ^ Z.of_nat k * (2 * m + Z.b2z r) + L /\
    0 <= L < 2 ^ Z.of_nat k /\ (s = false <-> L = 0).
Proof.
  induction k as [|k IH]; intros M HM.
  - exists M, false, false, 0. cbn [Z.b2z]. change (Nat.iter 0 shr_1 ?x) with x.
    change (Z.of_nat 0) with 0. rewrite Z.pow_0_r.
    split; [reflexivity|]. split; [lia|]. split; [lia|]. split; [lia|].
    split; intros; [lia | reflexivity].
  - destruct (IH M HM) as (m & r & s & L & E & Hm & HM2 & HL & Hs).
    rewrite Nat.iter_succ, E, shr_1_nonneg by assumption.
    exists (Z.div2 m), (Z.odd m), (r || s)%bool, (2 ^ Z.of_nat k * Z.b2z r + L).
    pose proof (Z.div2_odd m) as Hdo.
    assert (0 < 2 ^ Z.of_nat k) by (apply Z.pow_pos_nonneg; lia).
    rewrite Nat2Z.inj_succ, Z.pow_succ_r by lia.
    assert (0 <= Z.b2z r <= 1) by (destruct r; cbn; lia).
    assert (0 <= Z.b2z (Z.odd m) <= 1) by (destruct (Z.odd m); cbn; lia).
    split; [reflexivity|]. split; [lia|]. split; [nia|]. split; [nia|].
    destruct r, s; cbn in *; split; intros; try discriminate; try lia; try nia.
Qed.

Lemma rne_shr : forall (n : nat) (M : Z), 0 <= M ->
  let rec := Nat.iter n shr_1 (Build_shr_record M false false) in
  let m' := round_nearest_even (shr_m rec) (loc_of_shr_record rec) in
  let P := 2 ^ Z.of_nat n in
  0 <= shr_m rec /\ P * shr_m rec <= M < P * (shr_m rec + 1) /\
  shr_m rec <= m' <= shr_m rec + 1 /\ - P <= 2 * M - 2 * P * m' <= P.
Proof.
  intros n M HM rec m' P. subst rec m' P.
  destruct (shr_iter n M HM) as (m & r & s & L & E & Hm & HM2 & HL & Hs).
  rewrite E. cbn [shr_m loc_of_shr_record].
  assert (0 < 2 ^ Z.of_nat n) by (apply Z.pow_pos_nonneg; lia).
  destruct r, s; cbn [round_nearest_even Z.b2z] in *.
  - assert (L <> 0) by (intros ->; destruct Hs as [_ Hs]; discriminate Hs; reflexivity).
    repeat split; nia.
  - assert (L = 0) by now apply Hs. subst L.
    destruct (Z.even m); repeat split; nia.
  - repeat split; nia.
  - assert (L = 0) by now apply Hs. subst L. repeat split; nia.
Qed.

Lemma fexp32 : forall e,
  fexp Binary32.prec Binary32.emax e = Z.max (e - 24) (-149).
Proof. reflexivity. Qed.

Lemma emax32 : Binary32.emax - Binary32.prec = 104.
Proof. reflexivity. Qed.

(** Rounding a positive integer [mx * 2^ex] that is not below the grid. *)
Lemma binary_round_aux_spec : forall (s : bool) (mx : positive) (ex : Z),
  -149 <= ex ->
  ex <= fexp Binary32.prec Binary32.emax (Zpos (digits2_pos mx) + ex) ->
  Zpos (digits2_pos mx) + ex <= 127 ->
  exists (m' : positive) (e' : Z),
    binary_round_aux Binary32.prec Binary32.emax s (Zpos mx) ex loc_Exact =
    S754_finite s m' e' /\
    ex <= e' /\
    2 ^ 24 * Z.abs (Zpos m' * 2 ^ (e' - ex) - Zpos mx) <= Zpos mx /\
    bounded Binary32.prec Binary32.emax m' e' = true.
Proof.
  intros s mx ex Hlo Hhi HD. rewrite fexp32 in Hhi.
  pose proof (digits2_pos_bounds mx) as [Blo Bhi].
  set (dx := Zpos (digits2_pos mx)) in *.
  unfold binary_round_aux, shr_fexp. cbn [Zdigits2 shr_record_of_loc].
  fold dx. rewrite fexp32, emax32.
  destruct (Z.max (dx + ex - 24) (-149) - ex) as [|p|p] eqn:En; [| |lia].
  - cbn [shr shr_m loc_of_shr_record round_nearest_even Zdigits2].
    fold dx. rewrite fexp32, En. cbn [shr shr_m].
    replace (ex <=? 104) with true by (symmetry; apply Z.leb_le; lia).
    exists mx, ex. split; [reflexivity|]. split; [lia|]. split.
    + rewrite Z.sub_diag, Z.pow_0_r, Z.mul_1_r, Z.sub_diag. cbn. lia.
    + unfold bounded, canonical_mantissa. fold dx. rewrite fexp32, emax32.
      apply andb_true_iff; split; [apply Z.eqb_eq | apply Z.leb_le]; lia.
  - cbn [shr]. rewrite iter_pos_nat.
    pose proof (rne_shr (Pos.to_nat p) (Zpos mx) ltac:(lia)) as Hr.
    cbv zeta in Hr. rewrite positive_nat_Z in Hr.
    set (rec := Nat.iter (Pos.to_nat p) shr_1
                  {| shr_m := Zpos mx; shr_r := false; shr_s := false |}) in *.
    set (m2 := round_nearest_even (shr_m rec) (loc_of_shr_record rec)) in *.
    destruct Hr as (Hm0 & HmM & Hm2 & Herr).
    assert (Ep : Zpos p = dx - 24) by lia.
    assert (HP : 0 < 2 ^ Zpos p) by (apply Z.pow_pos_nonneg; lia).
    assert (E1 : 2 ^ (dx - 1) = 2 ^ 23 * 2 ^ Zpos p).
    { rewrite <- Z.pow_add_r by lia. f_equal. lia. }
    assert (E2 : 2 ^ dx = 2 ^ 24 * 2 ^ Zpos p).
    { rewrite <- Z.pow_add_r by lia. f_equal. lia. }
    rewrite E1 in Blo. rewrite E2 in Bhi.
    set (P := 2 ^ Zpos p) in *.
    change (2 ^ 23) with 8388608 in *. change (2 ^ 24) with 16777216 in *.
    assert (Hb : 8388608 <= m2 <= 16777216) by nia.
    destruct m2 as [|q|q] eqn:Em2; [lia| |lia].
    destruct (Z.eq_dec (Zpos q) 16777216) as [Eq|Nq].
    + injection Eq as ->.
      cbn [Zdigits2 digits2_pos Pos.succ]. rewrite fexp32.
      replace (Z.max (25 + (ex + Zpos p) - 24) (-149) - (ex + Zpos p)) with 1 by lia.
      cbn [shr SpecFloat.iter_pos shr_1 shr_record_of_loc shr_m orb].
      replace (ex + Zpos p + 1 <=? 104) with true by (symmetry; apply Z.leb_le; lia).
      exists 8388608%positive, (ex + Zpos p + 1). split; [reflexivity|].
      split; [lia|]. split.
      * replace (ex + Zpos p + 1 - ex) with (Z.succ (Zpos p)) by lia.
        rewrite Z.pow_succ_r by lia. fold P. nia.
      * unfold bounded, canonical_mantissa. cbn [digits2_pos Pos.succ].
        rewrite fexp32, emax32.
        apply andb_true_iff; split; [apply Z.eqb_eq | apply Z.leb_le]; lia.
    + assert (Hd : Zpos (digits2_pos q) = 24).
      { apply digits2_pos_unique. change (2 ^ (24 - 1)) with 8388608.
        change (2 ^ 24) with 16777216. lia. }
      cbn [Zdigits2]. rewrite Hd, fexp32.
      replace (Z.max (24 + (ex + Zpos p) - 24) (-149) - (ex + Zpos p)) with 0 by lia.
      cbn [shr shr_record_of_loc shr_m].
      replace (ex + Zpos p <=? 104) with true by (symmetry; apply Z.leb_le; lia).
      exists q, (ex + Zpos p). split; [reflexivity|]. split; [lia|]. split.
      * replace (ex + Zpos p - ex) with (Zpos p) by lia. fold P. nia.
      * unfold bounded, canonical_mantissa. rewrite Hd, fexp32, emax32.
        apply andb_true_iff; split; [apply Z.eqb_eq | apply Z.leb_le]; lia.
Qed.

Lemma pos_iter_xO : forall (m d : positive),
  Zpos (Pos.iter xO m d) = Zpos m * 2 ^ Zpos d.
Proof.
  intros m d; induction d as [|d IH] using Pos.peano_ind.
  - cbn [Pos.iter]. rewrite (Pos2Z.inj_xO m). change (2 ^ 1) with 2. lia.
  - rewrite Pos.iter_succ, (Pos2Z.inj_xO (Pos.iter xO m d)), IH.
    rewrite Pos2Z.inj_succ, Z.pow_succ_r by lia. lia.
Qed.

Lemma digits2_pos_shift : forall (m mz : positive) (d : Z),
  0 <= d -> Zpos mz = Zpos m * 2 ^ d ->
  Zpos (digits2_pos mz) = Zpos (digits2_pos m) + d.
Proof.
  intros m mz d Hd E. pose proof (digits2_pos_bounds m) as [Blo Bhi].
  assert (0 < 2 ^ d) by (apply Z.pow_pos_nonneg; lia).
  apply digits2_pos_unique. rewrite E.
  replace (Zpos (digits2_pos m) + d - 1) with (Zpos (digits2_pos m) - 1 + d) by lia.
  rewrite !Z.pow_add_r by lia. nia.
Qed.

Lemma shl_align_fst : forall (m : positive) (e ez : Z), ez <= e ->
  Zpos (fst (shl_align m e ez)) = Zpos m * 2 ^ (e - ez).
Proof.
  intros m e ez Hle. unfold shl_align.
  destruct (ez - e) as [|p|p] eqn:Ed; [| lia |].
  - replace (e - ez) with 0 by lia. cbn [fst]. rewrite Z.pow_0_r. lia.
  - cbn [fst]. rewrite pos_iter_xO. f_equal. f_equal. lia.
Qed.

(** Rounding a positive integer [mx * 2^ex] given on the grid. *)
Lemma binary_round_spec : forall (s : bool) (mx : positive) (ex : Z),
  -149 <= ex -> Zpos (digits2_pos mx) + ex <= 127 ->
  exists (m' : positive) (e' : Z),
    binary_round Binary32.prec Binary32.emax s mx ex = S754_finite s m' e' /\
    -149 <= e' /\
    2 ^ 24 * Z.abs (Zpos m' * 2 ^ (e' + 149) - Zpos mx * 2 ^ (ex + 149)) <=
    Zpos mx * 2 ^ (ex + 149) /\
    bounded Binary32.prec Binary32.emax m' e' = true.
Proof.
  intros s mx ex Hlo HD.
  unfold binary_round, shl_align. rewrite fexp32.
  set (dx := Zpos (digits2_pos mx)) in *.
  destruct (Z.max (dx + ex - 24) (-149) - ex) as [|p|p] eqn:Ed.
  - destruct (binary_round_aux_spec s mx ex Hlo) as (m' & e' & E & He & Herr & Hb);
      [rewrite fexp32; fold dx; lia | fold dx; lia |].
    exists m', e'. split; [exact E|]. split; [lia|]. split; [|exact Hb].
    assert (0 < 2 ^ (ex + 149)) by (apply Z.pow_pos_nonneg; lia).
    replace (e' + 149) with (e' - ex + (ex + 149)) by lia.
    rewrite Z.pow_add_r by lia.
    replace (Zpos m' * (2 ^ (e' - ex) * 2 ^ (ex + 149)) - Zpos mx * 2 ^ (ex + 149))
      with ((Zpos m' * 2 ^ (e' - ex) - Zpos mx) * 2 ^ (ex + 149)) by ring.
    rewrite Z.abs_mul, (Z.abs_eq (2 ^ (ex + 149))) by lia. nia.
  - destruct (binary_round_aux_spec s mx ex Hlo) as (m' & e' & E & He & Herr & Hb);
      [rewrite fexp32; fold dx; lia | fold dx; lia |].
    exists m', e'. split; [exact E|]. split; [lia|]. split; [|exact Hb].
    assert (0 < 2 ^ (ex + 149)) by (apply Z.pow_pos_nonneg; lia).
    replace (e' + 149) with (e' - ex + (ex + 149)) by lia.
    rewrite Z.pow_add_r by lia.
    replace (Zpos m' * (2 ^ (e' - ex) * 2 ^ (ex + 149)) - Zpos mx * 2 ^ (ex + 149))
      with ((Zpos m' * 2 ^ (e' - ex) - Zpos mx) * 2 ^ (ex + 149)) by ring.
    rewrite Z.abs_mul, (Z.abs_eq (2 ^ (ex + 149))) by lia. nia.
  - set (ez := Z.max (dx + ex - 24) (-149)) in *.
    set (mz := Pos.iter xO mx p).
    assert (Emz : Zpos mz = Zpos mx * 2 ^ Zpos p) by apply pos_iter_xO.
    assert (Edz : Zpos (digits2_pos mz) = dx + Zpos p)
      by (apply (digits2_pos_shift mx mz); [lia | exact Emz]).
    destruct (binary_round_aux_spec s mz ez) as (m' & e' & E & He & Herr & Hb);
      [lia | rewrite fexp32, Edz; lia | rewrite Edz; lia |].
    exists m', e'. split; [exact E|]. split; [lia|]. split; [|exact Hb].
    assert (0 < 2 ^ (ez + 149)) by (apply Z.pow_pos_nonneg; lia).
    assert (Es : Zpos mx * 2 ^ (ex + 149) = Zpos mz * 2 ^ (ez + 149)).
    { rewrite Emz. replace (ex + 149) with (Zpos p + (ez + 149)) by lia.
      rewrite Z.pow_add_r by lia. ring. }
    rewrite Es.
    replace (e' + 149) with (e' - ez + (ez + 149)) by lia.
    rewrite Z.pow_add_r by lia.
    replace (Zpos m' * (2 ^ (e' - ez) * 2 ^ (ez + 149)) - Zpos mz * 2 ^ (ez + 149))
      with ((Zpos m' * 2 ^ (e' - ez) - Zpos mz) * 2 ^ (ez + 149)) by ring.
    rewrite Z.abs_mul, (Z.abs_eq (2 ^ (ez + 149))) by lia. nia.
Qed.

Lemma cond_Zopp_mul : forall s a c, cond_Zopp s a * c = cond_Zopp s (a * c).
Proof. intros [|] a c; cbn; lia. Qed.

(** An addition of binary32 numbers is the sum rounded with a relative
    error of at most [2^-24], as long as it does not overflow. *)
Lemma SFadd_spec : forall x y : Binary32.float,
  representable x = true -> representable y = true ->
  Z.abs (scaled x + scaled y) < 2 ^ 276 ->
  representable (fadd x y) = true /\
  2 ^ 24 * Z.abs (scaled (fadd x y) - (scaled x + scaled y)) <=
  Z.abs (scaled x + scaled y).
Proof.
  intros [sx|sx| |sx mx ex] [sy|sy| |sy my ey] Hx Hy Hmag;
    try discriminate Hx; try discriminate Hy.
  - destruct sx, sy; cbn; split; (reflexivity || lia).
  - cbn [fadd Binary32.binary32 SFadd]. split; [exact Hy|].
    cbn [scaled]. rewrite Z.add_0_l, Z.sub_diag. cbn [Z.abs]. lia.
  - cbn [fadd Binary32.binary32 SFadd]. split; [exact Hx|].
    cbn [scaled]. rewrite Z.add_0_r, Z.sub_diag. cbn [Z.abs]. lia.
  - cbn [representable] in Hx, Hy. apply Z.leb_le in Hx, Hy.
    cbn [fadd Binary32.binary32 SFadd]. cbv zeta.
    set (ez := Z.min ex ey) in *.
    set (M := cond_Zopp sx (Zpos (fst (shl_align mx ex ez))) +
              cond_Zopp sy (Zpos (fst (shl_align my ey ez)))).
    assert (HP : 0 < 2 ^ (ez + 149)) by (apply Z.pow_pos_nonneg; lia).
    assert (EM : scaled (S754_finite sx mx ex) + scaled (S754_finite sy my ey) =
                 M * 2 ^ (ez + 149)).
    { subst M. cbn [scaled]. rewrite !shl_align_fst by lia.
      rewrite Z.mul_add_distr_r, !cond_Zopp_mul, <- !Z.mul_assoc.
      rewrite <- !Z.pow_add_r by lia.
      replace (ex - ez + (ez + 149)) with (ex + 149) by lia.
      replace (ey - ez + (ez + 149)) with (ey + 149) by lia. reflexivity. }
    rewrite EM in *. clearbody M.
    destruct M as [|M|M]; cbn [binary_normalize].
    + split; [reflexivity|]. cbn. lia.
    + pose proof (digits2_pos_bounds M) as [Blo _].
      assert (HD : Zpos (digits2_pos M) + ez <= 127).
      { rewrite Z.abs_eq in Hmag by lia.
        assert (Hlt : 2 ^ (Zpos (digits2_pos M) - 1 + (ez + 149)) < 2 ^ 276).
        { rewrite Z.pow_add_r by lia. nia. }
        apply Z.pow_lt_mono_r_iff in Hlt; lia. }
      destruct (binary_round_spec false M ez ltac:(lia) HD)
        as (m' & e' & E & He & Herr & _).
      rewrite E. cbn [representable scaled cond_Zopp].
      split; [apply Z.leb_le; lia|].
      rewrite (Z.abs_eq (Zpos M * _)) by lia. exact Herr.
    + pose proof (digits2_pos_bounds M) as [Blo _].
      assert (HD : Zpos (digits2_pos M) + ez <= 127).
      { rewrite Z.abs_neq in Hmag by lia.
        assert (Hlt : 2 ^ (Zpos (digits2_pos M) - 1 + (ez + 149)) < 2 ^ 276).
        { rewrite Z.pow_add_r by lia. nia. }
        apply Z.pow_lt_mono_r_iff in Hlt; lia. }
      destruct (binary_round_spec true M ez ltac:(lia) HD)
        as (m' & e' & E & He & Herr & _).
      rewrite E. cbn [representable scaled cond_Zopp].
      split; [apply Z.leb_le; lia|].
      rewrite (Z.abs_neq (Zneg M * _)) by lia.
      replace (- Zpos m' * 2 ^ (e' + 149) - Zneg M * 2 ^ (ez + 149))
        with (- (Zpos m' * 2 ^ (e' + 149) - Zpos M * 2 ^ (ez + 149))) by lia.
      rewrite Z.abs_opp.
      replace (- (Zneg M * 2 ^ (ez + 149))) with (Zpos M * 2 ^ (ez + 149)) by lia.
      exact Herr.
Qed.

Lemma grid_pos : (0 < grid)%Q.
Proof. reflexivity. Qed.

Lemma Zpos_pow149 : Zpos (2 ^ 149) = 2 ^ 149.
Proof. apply Pos2Z.inj_pow. Qed.

Lemma value_scaled : forall x : Binary32.float, representable x = true ->
  Binary32.to_Q x = Some (value x) /\
  (value x == inject_Z (scaled x) * grid)%Q.
Proof.
  intros [s|s| |s m e] Hx; try discriminate Hx.
  - split; reflexivity.
  - cbn [representable] in Hx. apply Z.leb_le in Hx.
    unfold value, Binary32.to_Q. split; [reflexivity|].
    cbn [scaled]. unfold grid, Qeq, Qmult, inject_Z. cbn [Qnum Qden].
    rewrite Pos.mul_1_l, Zpos_pow149.
    destruct e as [|p|p].
    + destruct s; cbn [cond_Zopp Qopp Qnum Qden Z.add]; lia.
    + replace (Zpos p + 149) with (149 + Zpos p) by lia.
      rewrite Z.pow_add_r by lia.
      destruct s; cbn [cond_Zopp Qopp Qnum Qden]; lia.
    + assert (E : 2 ^ 149 = 2 ^ (Zneg p + 149) * 2 ^ Zpos p).
      { rewrite <- Z.pow_add_r by lia. f_equal. lia. }
      destruct s; cbn [cond_Zopp Qopp Qnum Qden];
        rewrite Pos2Z.inj_pow, E; change (Zpos 2) with 2; lia.
Qed.

Lemma Qabs_scaled : forall a : Z,
  (Qabs (inject_Z a * grid) == inject_Z (Z.abs a) * grid)%Q.
Proof.
  intros a. rewrite Qabs_Qmult. rewrite (Qabs_pos grid) by (apply Qlt_le_weak, grid_pos).
  reflexivity.
Qed.

Lemma huge_scaled : (inject_Z (2 ^ 127) == inject_Z (2 ^ 276) * grid)%Q.
Proof.
  unfold grid, Qeq, Qmult, inject_Z. cbn [Qnum Qden].
  rewrite Pos.mul_1_l, Zpos_pow149.
  change (2 ^ 276) with (2 ^ 127 * 2 ^ 149). lia.
Qed.

(** One addition: when the sum of the two numbers is below [2^127], the
    result is a binary32 number again and the rounding error is at most
    [2^-24] of the sum. *)
Lemma add_error_bound : forall x y : Binary32.float,
  representable x = true -> representable y = true ->
  (Qabs (value x + value y) < inject_Z (2 ^ 127))%Q ->
  representable (fadd x y) = true /\
  exists e : Q,
    add_error x y = Some e /\
    (e == Qabs (value (fadd x y) - (value x + value y)))%Q /\
    (e <= rel_eps * Qabs (value x + value y))%Q.
Proof.
  intros x y Hx Hy Hmag.
  destruct (value_scaled x Hx) as [Tx Vx].
  destruct (value_scaled y Hy) as [Ty Vy].
  assert (Vs : (value x + value y == inject_Z (scaled x + scaled y) * grid)%Q).
  { rewrite Vx, Vy, inject_Z_plus. ring. }
  assert (Hz : Z.abs (scaled x + scaled y) < 2 ^ 276).
  { rewrite Vs, Qabs_scaled, huge_scaled in Hmag.
    apply Qmult_lt_r in Hmag; [|exact grid_pos].
    rewrite Zlt_Qlt. exact Hmag. }
  destruct (SFadd_spec x y Hx Hy Hz) as [Hr Herr].
  destruct (value_scaled (fadd x y) Hr) as [Tz Vz].
  split; [exact Hr|].
  exists (Qabs (value (fadd x y) - (value x + value y))).
  split; [|split; [reflexivity|]].
  - unfold add_error. rewrite Tx, Ty, Tz. reflexivity.
  - assert (Vd : (value (fadd x y) - (value x + value y) ==
                  inject_Z (scaled (fadd x y) - (scaled x + scaled y)) * grid)%Q).
    { rewrite Vz, Vs.
      replace (scaled (fadd x y) - (scaled x + scaled y))
        with (scaled (fadd x y) + - (scaled x + scaled y)) by lia.
      repeat (rewrite inject_Z_plus || rewrite inject_Z_opp). ring. }
    rewrite Vd, Vs, !Qabs_scaled.
    rewrite Zle_Qle, inject_Z_mult in Herr.
    change (inject_Z (2 ^ 24)) with (16777216 # 1)%Q in Herr.
    rewrite Qmult_assoc. apply Qmult_le_compat_r; [|apply Qlt_le_weak, grid_pos].
    unfold rel_eps. lra.
Qed.

Lemma shr_exponent : forall rec e n, snd (shr rec e n) = e + Z.max n 0.
Proof. intros rec e [|p|p]; cbn [shr snd]; lia. Qed.

Lemma shr_fexp_exponent : forall m e l,
  -149 <= snd (shr_fexp Binary32.prec Binary32.emax m e l) /\
  e <= snd (shr_fexp Binary32.prec Binary32.emax m e l).
Proof.
  intros m e l. unfold shr_fexp. rewrite shr_exponent, fexp32. lia.
Qed.

(** A product that is finite is a binary32 number on the grid. *)
Lemma fmul_representable : forall x y : Binary32.float,
  finite32 (fmul x y) = true -> representable (fmul x y) = true.
Proof.
  intros [sx|sx| |sx mx ex] [sy|sy| |sy my ey]; cbn [fmul Binary32.binary32 SFmul];
    try (intros H; discriminate H); try reflexivity.
  unfold binary_round_aux.
  destruct (shr_fexp Binary32.prec Binary32.emax (Zpos (mx * my)) (ex + ey) loc_Exact)
    as [mrs' e'] eqn:E1.
  pose proof (shr_fexp_exponent (Zpos (mx * my)) (ex + ey) loc_Exact) as [H1 _].
  rewrite E1 in H1. cbn [snd] in H1.
  destruct (shr_fexp Binary32.prec Binary32.emax
              (round_nearest_even (shr_m mrs') (loc_of_shr_record mrs')) e' loc_Exact)
    as [mrs'' e''] eqn:E2.
  pose proof (shr_fexp_exponent
                (round_nearest_even (shr_m mrs') (loc_of_shr_record mrs')) e' loc_Exact)
    as [_ H2].
  rewrite E2 in H2. cbn [snd] in H2.
  destruct (shr_m mrs'') as [|m|m]; [reflexivity | | intros H; discriminate H].
  destruct (e'' <=? Binary32.emax - Binary32.prec); [|intros H; discriminate H].
  intros _. cbn [representable]. apply Z.leb_le. lia.
Qed.

(** ** The rounding of a reduction, bounded before the run *)

Lemma abs_sum_nonneg : forall product l, (0 <= abs_sum product l)%Q.
Proof.
  intros product; induction l as [|x l IH]; unfold abs_sum in *; cbn [fold_right].
  - lra.
  - pose proof (Qabs_nonneg (value (product (fst x) (snd x)))). lra.
Qed.

Lemma abs_sum_app : forall product l1 l2,
  (abs_sum product (l1 ++ l2) == abs_sum product l1 + abs_sum product l2)%Q.
Proof.
  intros product; induction l1 as [|x l1 IH]; intros l2;
    unfold abs_sum in *; cbn [app fold_right].
  - lra.
  - rewrite IH. lra.
Qed.

Lemma abs_sum_perm : forall product l l',
  Permutation l l' -> (abs_sum product l == abs_sum product l')%Q.
Proof.
  intros product l l' Hp.
  induction Hp as [|x l l' _ IH|x y l|l l' l'' _ IH1 _ IH2];
    unfold abs_sum in *; cbn [fold_right]; lra.
Qed.

Lemma abs_sum_ext : forall product1 product2 l,
  (forall j i, In (j, i) l -> product1 j i = product2 j i) ->
  (abs_sum product1 l == abs_sum product2 l)%Q.
Proof.
  intros product1 product2; induction l as [|[j i] l IH]; intros Hext;
    unfold abs_sum in *; cbn [fold_right fst snd].
  - lra.
  - rewrite (Hext j i) by now left.
    rewrite IH by (intros; apply Hext; now right). lra.
Qed.

Lemma growth_ge_1 : forall h, (1 <= growth h)%Q.
Proof.
  induction h as [|h IH]; cbn [growth]; [lra|].
  unfold rel_eps. nra.
Qed.

Lemma growth_mono : forall h h', (h <= h')%nat -> (growth h <= growth h')%Q.
Proof.
  intros h h' Hle; induction Hle as [|h' _ IH]; [lra|].
  cbn [growth]. pose proof (growth_ge_1 h'). unfold rel_eps. nra.
Qed.

(** The rounding errors of a reduction of binary32 numbers, bounded before
    the run: for a reduction [h] additions deep of products whose magnitudes
    add up to [A], they total at most [((1 + 2^-24)^h - 1) * A]. *)
Lemma rounding_bound : forall (product : Z -> Z -> Binary32.float) (r : reduction),
  (forall j i, In (j, i) (iterations r) -> representable (product j i) = true) ->
  (growth (height r) * abs_sum product (iterations r) < inject_Z (2 ^ 127))%Q ->
  representable (reduce product r) = true /\
  (Qabs (value (reduce product r)) <=
   growth (height r) * abs_sum product (iterations r))%Q /\
  exists e : Q,
    rounding product r = Some e /\ (0 <= e)%Q /\
    (e <= (growth (height r) - 1) * abs_sum product (iterations r))%Q.
Proof.
  intros product; induction r as [|j i|a IHa b IHb]; intros Hrep Hmag;
    cbn [reduce rounding iterations height growth] in *.
  - split; [reflexivity|]. split; [vm_compute; discriminate|].
    exists 0%Q. split; [reflexivity|]. split; [lra|]. vm_compute; discriminate.
  - assert (Hv : representable (product j i) = true) by (apply Hrep; now left).
    destruct (value_scaled _ Hv) as [Tv _]. rewrite Tv.
    unfold abs_sum; cbn [fold_right fst snd].
    split; [exact Hv|]. split; [lra|].
    exists 0%Q. split; [reflexivity|]. split; lra.
  - set (ha := height a) in *. set (hb := height b) in *.
    set (Aa := abs_sum product (iterations a)) in *.
    set (Ab := abs_sum product (iterations b)) in *.
    pose proof (abs_sum_app product (iterations a) (iterations b)) as EA.
    fold Aa Ab in EA.
    pose proof (abs_sum_nonneg product (iterations a)) as NAa. fold Aa in NAa.
    pose proof (abs_sum_nonneg product (iterations b)) as NAb. fold Ab in NAb.
    set (G := growth (Nat.max ha hb)) in *.
    pose proof (growth_ge_1 (Nat.max ha hb)) as HG. fold G in HG.
    pose proof (growth_mono ha (Nat.max ha hb) (Nat.le_max_l _ _)) as HGa. fold G in HGa.
    pose proof (growth_mono hb (Nat.max ha hb) (Nat.le_max_r _ _)) as HGb. fold G in HGb.
    pose proof (growth_ge_1 ha) as HGa1. pose proof (growth_ge_1 hb) as HGb1.
    rewrite EA in Hmag.
    assert (Ha : (growth ha * Aa <= G * Aa)%Q) by (apply Qmult_le_compat_r; assumption).
    assert (Hb : (growth hb * Ab <= G * Ab)%Q) by (apply Qmult_le_compat_r; assumption).
    assert (NX : (0 <= G * Aa)%Q) by (apply Qmult_le_0_compat; lra).
    assert (NY : (0 <= G * Ab)%Q) by (apply Qmult_le_0_compat; lra).
    assert (EG : (G * (1 + rel_eps) * (Aa + Ab) ==
                  (1 + rel_eps) * (G * Aa + G * Ab))%Q) by ring.
    assert (EG1 : ((G * (1 + rel_eps) - 1) * (Aa + Ab) ==
                   (1 + rel_eps) * (G * Aa + G * Ab) - (Aa + Ab))%Q) by ring.
    assert (Ea1 : ((growth ha - 1) * Aa == growth ha * Aa - Aa)%Q) by ring.
    assert (Eb1 : ((growth hb - 1) * Ab == growth hb * Ab - Ab)%Q) by ring.
    rewrite EG in Hmag.
    set (X := (G * Aa)%Q) in *. set (Y := (G * Ab)%Q) in *.
    set (Ta := (growth ha * Aa)%Q) in *. set (Tb := (growth hb * Ab)%Q) in *.
    unfold rel_eps in *.
    destruct IHa as (Ra & Va & ea & Hea & Nea & Bea);
      [intros; apply Hrep, in_or_app; now left | lra |].
    destruct IHb as (Rb & Vb & eb & Heb & Neb & Beb);
      [intros; apply Hrep, in_or_app; now right | lra |].
    rewrite Ea1 in Bea. rewrite Eb1 in Beb. fold Ta in Bea. fold Tb in Beb.
    set (va := value (reduce product a)) in *.
    set (vb := value (reduce product b)) in *.
    apply Qabs_Qle_condition in Va, Vb.
    assert (Hs : (Qabs (va + vb) <= X + Y)%Q)
      by (apply Qabs_Qle_condition; lra).
    destruct (add_error_bound (reduce product a) (reduce product b) Ra Rb)
      as (Rz & err & Herr & Eerr & Berr); [fold va vb; lra|].
    fold va vb in Eerr, Berr. unfold rel_eps in Berr.
    set (vz := value (fadd (reduce product a) (reduce product b))) in *.
    pose proof (Qle_Qabs (vz - (va + vb))) as Hup.
    pose proof (Qle_Qabs (- (vz - (va + vb)))) as Hlo. rewrite Qabs_opp in Hlo.
    rewrite <- Eerr in Hup, Hlo.
    pose proof (Qabs_nonneg (vz - (va + vb))) as Nerr. rewrite <- Eerr in Nerr.
    pose proof Hs as Hs'. apply Qabs_Qle_condition in Hs.
    split; [exact Rz|]. split.
    { rewrite EA, EG. apply Qabs_Qle_condition; lra. }
    rewrite Hea, Heb, Herr. exists (ea + eb + err)%Q.
    split; [reflexivity|]. split; [lra|]. rewrite EA, EG1. lra.
Qed.

Lemma height_in_order : forall l, height (in_order l) = length l.
Proof.
  assert (Hgen : forall l r,
    height (fold_left (fun r ji => Combine r (Iteration (fst ji) (snd ji))) l r) =
    (length l + height r)%nat).
  { induction l as [|x l IH]; intros r; cbn [fold_left length]; [reflexivity|].
    rewrite IH. cbn [height]. rewrite Nat.max_0_r. lia. }
  intros l. unfold in_order. rewrite Hgen. cbn [height]. lia.
Qed.

Lemma tap_offsets_length : forall kdim, 1 <= kdim ->
  length (tap_offsets kdim) = Z.to_nat kdim.
Proof.
  intros kdim Hk. unfold tap_offsets.
  rewrite le_values_zseq, zseq_length, window_span by assumption. reflexivity.
Qed.

Lemma serial_space_length : forall kH kW, 1 <= kH -> 1 <= kW ->
  length (serial_space kH kW) = Z.to_nat (kH * kW).
Proof.
  intros kH kW HkH HkW. rewrite serial_space_flat.
  assert (Hlen : forall (rows cols : list Z),
    length (flat_map (fun i => map (fun j => (j, i)) cols) rows) =
    (length rows * length cols)%nat).
  { induction rows as [|i rows IH]; intros cols; cbn [flat_map length]; [reflexivity|].
    rewrite length_app, length_map, IH. cbn [Nat.mul]. reflexivity. }
  rewrite Hlen, !tap_offsets_length by assumption.
  rewrite Z2Nat.inj_mul by lia. reflexivity.
Qed.

Lemma growth_numbers :
  (growth 64 * 14 < inject_Z (2 ^ 127))%Q /\
  ((growth 49 - 1) * 14 + (growth 64 - 1) * 14 < 1 # 10000)%Q.
Proof. split; vm_compute; reflexivity. Qed.

(** Two reductions of the same finite products, the one at most 49 additions
    deep and the other at most 64, are within 1e-4 of each other when the
    magnitudes of the products add up to at most 14. *)
Lemma reductions_within_tolerance :
  forall (product1 product2 : Z -> Z -> Binary32.float) (r1 r2 : reduction),
  Permutation (iterations r1) (iterations r2) ->
  (forall j i, In (j, i) (iterations r1) -> product1 j i = product2 j i) ->
  (height r1 <= 49)%nat -> (height r2 <= 64)%nat ->
  (forall j i, In (j, i) (iterations r2) -> representable (product2 j i) = true) ->
  (abs_sum product2 (iterations r2) <= 14)%Q ->
  Binary32.closer_than (1 # 10000) (reduce product1 r1) (reduce product2 r2).
Proof.
  intros product1 product2 r1 r2 Hperm Hext Hh1 Hh2 Hrep HA.
  destruct growth_numbers as [N1 N2].
  pose proof (growth_mono _ _ Hh1) as G1. pose proof (growth_mono _ _ Hh2) as G2.
  pose proof (growth_mono 49 64 ltac:(lia)) as G3.
  pose proof (growth_ge_1 (height r1)) as L1.
  pose proof (growth_ge_1 (height r2)) as L2.
  pose proof (abs_sum_nonneg product2 (iterations r2)) as NA.
  assert (EA : (abs_sum product1 (iterations r1) ==
                abs_sum product2 (iterations r2))%Q).
  { rewrite (abs_sum_ext product1 product2) by exact Hext.
    now apply abs_sum_perm. }
  set (A := abs_sum product2 (iterations r2)) in *.
  set (g1 := growth (height r1)) in *. set (g2 := growth (height r2)) in *.
  set (c49 := growth 49) in *. set (c64 := growth 64) in *.
  destruct (rounding_bound product2 r2 Hrep) as (_ & _ & ep & Hep & Nep & Bep).
  { fold A g2. apply Qle_lt_trans with (c64 * 14)%Q; [nra | exact N1]. }
  destruct (rounding_bound product1 r1) as (_ & _ & es & Hes & Nes & Bes).
  { intros j i Hin. rewrite (Hext j i Hin). apply Hrep.
    exact (Permutation_in _ Hperm Hin). }
  { rewrite EA. fold g1. apply Qle_lt_trans with (c64 * 14)%Q; [nra | exact N1]. }
  rewrite EA in Bes. fold A g1 in Bes. fold A g2 in Bep.
  destruct (reductions_within_rounding product1 product2 r1 r2 es ep
              Hperm Hext Hes Hep) as (p & q & _ & _ & _ & Hclose & _).
  apply Hclose.
  apply Qle_lt_trans with ((c49 - 1) * 14 + (c64 - 1) * 14)%Q; [nra | exact N2].
Qed.

(** The order of the reduction shows in the result even when the kernel has
    one row: on this input cell [(0, 2)], whose four taps all lie in the
    feature map, is [((2^24 + 1) - 2^24) + 0 = 0] when the products are
    added in program order, as [conv2d] adds them, and
    [(2^24 - 2^24) + (1 + 0) = 1] when two lanes take them in turn. *)
Lemma one_row_kernel_reduction_matters :
  reduction_of 1 4 two_lanes_1x4 /\
  Logical.conv2d_cell feature_row_cancelling 1 4 kernel_ones_1x4 1 4 0 2 = fzero /\
  Logical.parallel_conv2d_cell_simd (in_order (simd_space 1 4))
    feature_row_cancelling 1 4 kernel_ones_1x4 1 4 0 2 = fzero /\
  Logical.parallel_conv2d_cell_simd two_lanes_1x4
    feature_row_cancelling 1 4 kernel_ones_1x4 1 4 0 2 = Binary32.one.
Proof.
  split; [|split; [|split]]; try (vm_compute; reflexivity).
  vm_compute. apply perm_skip, perm_swap.
Qed.

(** C2, amended.  For every feature map, kernel and output cell the serial
    and the parallel convolver add the same tap products to [0.0]: the
    serial one row by row of the window, the parallel one in whatever order
    its [omp simd reduction] and the schedule of its outer loops take.  In
    binary32, as long as the products and the sums are finite, the two
    output cells differ by no more than the rounding errors of the
    additions the two convolvers perform, added up; so their difference is
    below 1e-4 whenever these errors add up to less than 1e-4, and it is 0
    when every addition is exact.  That is the case before any run when the
    kernel has at most 49 elements (7 x 7), the reduction of the parallel
    convolver is at most 64 additions deep, every tap product of the cell is
    finite and the magnitudes of these products add up to at most 14: then
    the two cells are less than 1e-4 apart. *)
Theorem serial_parallel_within_rounding :
  forall (sched : list (Z * Z)) (red : Z -> Z -> reduction)
         (f g : mem Binary32.float) (H W kH kW : Z)
         (output : outbuf Binary32.float)
         (padded_output : float_array Binary32.float) (n k : Z),
  0 <= n < H -> 0 <= k < W -> schedule_of H W sched ->
  reduction_of kH kW (red n k) ->
  let serial :=
    cells (snd (Logical.conv2d f H W g kH kW output)) (IDX n k W) in
  let parallel :=
    cells (arr (snd (Logical.parallel_conv2d_simd sched red f H W g kH kW
                       padded_output))) (IDX n k W) in
  let product := Logical.product f H W g kH kW n k in
  (forall es ep : Q,
     rounding product (in_order (serial_space kH kW)) = Some es ->
     rounding product (red n k) = Some ep ->
     exists p q : Q,
       Binary32.to_Q serial = Some p /\ Binary32.to_Q parallel = Some q /\
       (Qabs (p - q) <= es + ep)%Q /\
       ((es + ep < 1 # 10000)%Q ->
        Binary32.closer_than (1 # 10000) serial parallel) /\
       ((es + ep == 0)%Q -> (p == q)%Q)) /\
  (1 <= kH -> 1 <= kW -> kH * kW <= 49 -> (height (red n k) <= 64)%nat ->
   (forall j i, In (j, i) (simd_space kH kW) -> finite32 (product j i) = true) ->
   (abs_sum product (simd_space kH kW) <= 14)%Q ->
   Binary32.closer_than (1 # 10000) serial parallel).
Proof.
  intros sched red f g H W kH kW output po n k Hn Hk Hs Hred
    serial parallel product.
  subst serial parallel product.
  rewrite logical_conv2d_output_cell by assumption.
  rewrite logical_parallel_simd_output_cell by assumption.
  rewrite logical_conv2d_cell_reduction.
  assert (Hperm : Permutation (iterations (in_order (serial_space kH kW)))
                              (iterations (red n k))).
  { rewrite iterations_in_order.
    etransitivity; [apply serial_simd_space|]. symmetry. exact Hred. }
  split.
  - intros es ep Hes Hep.
    now apply reductions_within_rounding.
  - intros HkH HkW Htaps Hheight Hfin HA.
    apply reductions_within_tolerance; try assumption; [reflexivity | | |].
    + rewrite height_in_order, serial_space_length by assumption. lia.
    + intros j i Hin. unfold Logical.product.
      apply fmul_representable. apply (Hfin j i).
      exact (Permutation_in _ Hred Hin).
    + rewrite (abs_sum_perm _ _ _ Hred). exact HA.
Qed.

Lemma serial_parallel_within_rounding_witness :
  let serial :=
    cells (snd (Logical.conv2d feature_tenths 2 2 kernel_thirds_2x2 2 2
                  (fresh fzero))) (IDX 1 1 2) in
  let parallel :=
    cells (arr (snd (Logical.parallel_conv2d_simd (iteration_space 2 2)
                       (fun _ _ => two_lanes) feature_tenths 2 2
                       kernel_thirds_2x2 2 2
                       {| arr := fresh fzero; padding := None |})))
          (IDX 1 1 2) in
  serial <> parallel /\ Binary32.closer_than (1 # 10000) serial parallel /\
  exists p q : Q,
    Binary32.to_Q serial = Some p /\ Binary32.to_Q parallel = Some q /\
    (Qabs (p - q) <= 1 # 1000000)%Q.
Proof.
  intros serial parallel. subst serial parallel.
  split; [vm_compute; discriminate|].
  destruct (serial_parallel_within_rounding (iteration_space 2 2)
              (fun _ _ => two_lanes) feature_tenths kernel_thirds_2x2 2 2 2 2
              (fresh fzero) {| arr := fresh fzero; padding := None |} 1 1
              ltac:(lia) ltac:(lia) (Permutation_refl _)
              ltac:(vm_compute; apply perm_skip, perm_swap))
    as [Hmeasured Hbounded].
  split.
  - apply Hbounded; [lia | lia | lia | vm_compute; lia | | vm_compute; discriminate].
    intros j i Hin. vm_compute in Hin.
    destruct Hin as [E|[E|[E|[E|[]]]]]; injection E as <- <-;
      vm_compute; reflexivity.
  - pose (es := match rounding (Logical.product feature_tenths 2 2
                                  kernel_thirds_2x2 2 2 1 1)
                        (in_order (serial_space 2 2)) with
                | Some e => e
                | None => 0%Q
                end).
    pose (ep := match rounding (Logical.product feature_tenths 2 2
                                  kernel_thirds_2x2 2 2 1 1) two_lanes with
                | Some e => e
                | None => 0%Q
                end).
    destruct (Hmeasured es ep ltac:(vm_compute; reflexivity)
                ltac:(vm_compute; reflexivity))
      as (p & q & Hp & Hq & Hpq & _).
    exists p, q. split; [exact Hp | split; [exact Hq|]].
    apply (Qle_trans _ _ _ Hpq). vm_compute. discriminate.
Defined.

(** * Where the two ways of handling the border agree *)

(** In every output cell at least [kW/2] columns away from the left border,
    [conv2d] of [conv2d.c] on the zero-padded copy and [conv2d] of the
    logical variant store the same value, the sum of the specification. *)
Lemma padded_logical_agree_inside :
  forall (F : Type) (ops : Scalar F) (f g : mem F) (H W kH kW : Z)
         (out1 out2 : outbuf F) (n k : Z),
  1 <= kH -> 1 <= kW -> 0 <= n < H -> half kW <= k < W ->
  cells (snd (Padded.conv2d (Spec.zero_padded f H W (half kH) (half kW)) H W g
                kH kW (half kW) (half kH) out1)) (IDX n k W) =
  cells (snd (Logical.conv2d f H W g kH kW out2)) (IDX n k W).
Proof.
  intros F ops f g H W kH kW out1 out2 n k HkH HkW Hn Hk.
  assert (0 <= half kW) by (rewrite half_pos by lia; apply Z.div_pos; lia).
  rewrite padded_conv2d_output_cell, logical_conv2d_output_cell by lia.
  rewrite padded_conv2d_cell_policy, logical_conv2d_cell_policy by lia.
  reflexivity.
Qed.

(** * Further properties of the convolvers *)

(** ** [conv2d] of [conv2d.c] *)

Lemma half_nonneg : forall kdim, 1 <= kdim -> 0 <= half kdim.
Proof. intros; rewrite half_pos by lia; apply Z.div_pos; lia. Qed.

(** X1.  [conv2d] of [conv2d.c] stores to the cells [0 .. H*W-1] of the
    output, in this order and each once, whatever the kernel and the two
    padding arguments are, and changes nothing else of the output. *)
Theorem padded_conv2d_writes :
  forall (F : Type) (ops : Scalar F) (f g : mem F)
         (H W kH kW w_padding h_padding : Z) (output : outbuf F),
  0 <= W ->
  let out := snd (Padded.conv2d f H W g kH kW w_padding h_padding output) in
  written out = written output ++ lt_values 0 (H * W) /\
  (forall idx, ~ 0 <= idx < H * W -> cells out idx = cells output idx).
Proof.
  intros F ops f g H W kH kW wp hp output HW out. subst out.
  rewrite padded_conv2d_stores. split.
  - rewrite store_cells_written. f_equal.
    exact (output_cells_zseq H W HW).
  - intros idx Hidx. apply store_cells_frame.
    change (~ In idx (output_cells H W)).
    rewrite output_cells_zseq by assumption. rewrite lt_values_In. lia.
Qed.

Lemma padded_conv2d_writes_witness :
  written (snd (Padded.conv2d (F := Z) (fun x => x) 2 2 (fun _ => 1) 3 3 1 1
                  (fresh 0))) = [0; 1; 2; 3].
Proof.
  destruct (padded_conv2d_writes Z _ (fun x => x) (fun _ => 1) 2 2 3 3 1 1
              (fresh 0) ltac:(lia)) as [Hw _].
  exact Hw.
Defined.

(** X2.  Given the zero-padded copy of a feature map, with the paddings
    [kH/2] and [kW/2], [conv2d] of [conv2d.c] leaves in every output cell
    [(n, k)] the zero-padding sum of the specification. *)
Theorem padded_conv2d_computes_policy :
  forall (F : Type) (ops : Scalar F) (feature g : mem F) (H W kH kW : Z)
         (output : outbuf F) (n k : Z),
  1 <= kH -> 1 <= kW -> 0 <= n < H -> 0 <= k < W ->
  cells (snd (Padded.conv2d
                (Spec.zero_padded feature H W (half kH) (half kW)) H W g
                kH kW (half kW) (half kH) output)) (IDX n k W) =
  Spec.serialConvolve_cell feature H W g kH kW n k.
Proof.
  intros F ops feature g H W kH kW output n k HkH HkW Hn Hk.
  rewrite padded_conv2d_output_cell by assumption.
  now apply padded_conv2d_cell_policy.
Qed.

Lemma padded_conv2d_computes_policy_witness :
  cells (snd (Padded.conv2d (F := Z)
                (Spec.zero_padded (fun x => x + 1) 2 3 (half 3) (half 2)) 2 3
                (fun _ => 1) 3 2 (half 2) (half 3) (fresh 0))) (IDX 0 0 3) =
  Spec.serialConvolve_cell (fun x => x + 1) 2 3 (fun _ => 1) 3 2 0 0.
Proof.
  apply (padded_conv2d_computes_policy Z _ (fun x => x + 1) (fun _ => 1)
           2 3 3 2 (fresh 0) 0 0); lia.
Defined.

(** X3.  With the paddings [kH/2] and [kW/2], every read of the feature
    buffer by [conv2d] of [conv2d.c] falls inside the
    [(H + 2 h_padding) * (W + 2 w_padding)] elements of the padded
    buffer. *)
Theorem padded_conv2d_reads_in_bounds :
  forall (H W kH kW n k idx : Z),
  1 <= kH -> 1 <= kW ->
  In n (lt_values (half kH) (H + half kH * 2 - half kH)) ->
  In k (lt_values (half kW) (W + half kW * 2 - half kW)) ->
  In idx (padded_cell_reads W kH kW (half kW) n k) ->
  0 <= idx < (H + half kH * 2) * (W + half kW * 2).
Proof.
  intros H W kH kW n k idx HkH HkW Hn Hk Hidx.
  apply lt_values_In in Hn. apply lt_values_In in Hk.
  unfold padded_cell_reads in Hidx.
  apply in_flat_map in Hidx as (i & Hi & Hidx).
  apply in_map_iff in Hidx as (j & <- & Hj).
  apply tap_offsets_In in Hi. apply tap_offsets_In in Hj.
  pose proof (even_offset_range kH). pose proof (even_offset_range kW).
  pose proof (half_nonneg kH HkH). pose proof (half_nonneg kW HkW).
  unfold IDX. split; nia.
Qed.

Lemma padded_conv2d_reads_in_bounds_witness :
  0 <= 0 < (2 + half 3 * 2) * (2 + half 3 * 2).
Proof.
  apply (padded_conv2d_reads_in_bounds 2 2 3 3 1 1 0); try lia;
    vm_compute; tauto.
Defined.

(** ** [parallel_conv2d] of [conv2d.c] *)

(** X4.  [parallel_conv2d] of [conv2d.c] reads the feature map only at
    offsets inside its [H * W] elements, for every cell and every kernel
    size. *)
Theorem checked_reads_in_bounds :
  forall (H W kH kW n k idx : Z),
  In idx (checked_cell_reads H W kH kW n k) -> 0 <= idx < H * W.
Proof.
  intros H W kH kW n k idx Hidx. unfold checked_cell_reads in Hidx.
  apply in_flat_map in Hidx as (j & _ & Hidx).
  apply in_flat_map in Hidx as (i & _ & Hidx).
  unfold Padded.guard in Hidx.
  destruct (n + i >=? 0) eqn:E1; [|destruct Hidx].
  destruct (n + i <? H) eqn:E2; [|destruct Hidx].
  destruct (k + j >=? 0) eqn:E3; [|destruct Hidx].
  destruct (k + j <? W) eqn:E4; [|destruct Hidx].
  cbn in Hidx. destruct Hidx as [<- | []].
  unfold IDX. split; nia.
Qed.

Lemma checked_reads_in_bounds_witness : 0 <= 1 < 2 * 2.
Proof.
  apply (checked_reads_in_bounds 2 2 3 3 0 0 1). vm_compute. tauto.
Defined.

(** The cell of [parallel_conv2d] of [conv2d.c] is the sum of the boundary
    policy, columns of the window outermost. *)
Lemma padded_parallel_cell_policy :
  forall (F : Type) (ops : Scalar F) (f g : mem F) H W kH kW n k,
  Padded.parallel_conv2d_cell f H W g kH kW n k =
  fold_left (fun result j =>
    fold_left (fun result i =>
      fadd result (fmul (Spec.boundaryRead f H W (n + i) (k + j))
                        (g (IDX (i + half kH) (j + half kW) kW))))
      (tap_offsets kH) result)
    (tap_offsets kW) fzero.
Proof.
  intros. rewrite padded_parallel_conv2d_cell_taps.
  apply fold_left_ext_In; intros a j _.
  apply fold_left_ext_In; intros b i _.
  unfold Padded.tap. now rewrite padded_tap_value_policy.
Qed.

Lemma padded_conv2d_cell_reduction :
  forall (F : Type) (ops : Scalar F) (f g : mem F) W kH kW wp n k,
  Padded.conv2d_cell f W g kH kW wp n k =
  reduce (Padded.conv2d_product f W g kH kW wp n k)
    (in_order (serial_space kH kW)).
Proof.
  intros. rewrite padded_conv2d_cell_taps, reduce_in_order, serial_space_flat.
  rewrite fold_left_flat_map.
  apply fold_left_ext_In; intros a i _. now rewrite fold_left_map.
Qed.

Lemma padded_parallel_cell_program_order :
  forall (F : Type) (ops : Scalar F) (f g : mem F) H W kH kW n k,
  Padded.parallel_conv2d_cell_simd (in_order (simd_space kH kW)) f H W g
    kH kW n k =
  Padded.parallel_conv2d_cell f H W g kH kW n k.
Proof.
  intros. unfold Padded.parallel_conv2d_cell_simd.
  rewrite padded_parallel_conv2d_cell_taps, reduce_in_order, simd_space_flat.
  rewrite fold_left_flat_map.
  apply fold_left_ext_In; intros a j _. now rewrite fold_left_map.
Qed.

(** [parallel_conv2d] of [conv2d.c] is [parallel_conv2d_simd] with the
    reduction of every cell in program order. *)
Lemma padded_parallel_program_order :
  forall (F : Type) (ops : Scalar F) sched (f g : mem F) H W kH kW wp hp
         (padded_output : float_array F),
  Padded.parallel_conv2d_simd sched (fun _ _ => in_order (simd_space kH kW))
    f H W g kH kW wp hp padded_output =
  Padded.parallel_conv2d sched f H W g kH kW wp hp padded_output.
Proof.
  intros. unfold Padded.parallel_conv2d_simd, Padded.parallel_conv2d,
    omp_for_collapse2; cbv zeta.
  do 2 f_equal. apply fold_left_ext_In; intros out nk _.
  now rewrite padded_parallel_cell_program_order.
Qed.

Lemma padded_parallel_simd_output_cell :
  forall (F : Type) (ops : Scalar F) sched red (f g : mem F) H W kH kW wp hp
         (padded_output : float_array F) n k,
  schedule_of H W sched -> 0 <= n < H -> 0 <= k < W ->
  cells (arr (snd (Padded.parallel_conv2d_simd sched red f H W g kH kW wp hp
                     padded_output))) (IDX n k W) =
  reduce (Padded.product f H W g kH kW n k) (red n k).
Proof.
  intros F ops sched red f g H W kH kW wp hp po n k Hs Hn Hk.
  unfold Padded.parallel_conv2d_simd, omp_for_collapse2; cbn [snd arr].
  apply (store_cells_value W
    (fun n k => Padded.parallel_conv2d_cell_simd (red n k) f H W g kH kW n k));
    [| assumption | now apply (schedule_covers H W)].
  intros p Hp. now apply (schedule_in_range H W sched).
Qed.

(** On the zero-padded copy [conv2d] multiplies what [parallel_conv2d]
    multiplies on the feature map itself. *)
Lemma padded_products_agree :
  forall (F : Type) (ops : Scalar F) (feature g : mem F) H W kH kW n k j i,
  1 <= kH -> 1 <= kW -> 0 <= k < W -> In j (tap_offsets kW) ->
  Padded.conv2d_product (Spec.zero_padded feature H W (half kH) (half kW)) W g
    kH kW (half kW) (n + half kH) (k + half kW) j i =
  Padded.product feature H W g kH kW n k j i.
Proof.
  intros F ops feature g H W kH kW n k j i HkH HkW Hk Hj.
  apply tap_offsets_In in Hj. pose proof (even_offset_range kW) as OW.
  unfold Padded.conv2d_product, Padded.product; cbv zeta.
  rewrite zero_padded_read by lia. rewrite padded_tap_value_policy.
  f_equal. f_equal; lia.
Qed.

(** X9.  The two functions of [conv2d.c] add the same tap products:
    [conv2d] on the zero-padded copy row by row of the window,
    [parallel_conv2d] on the feature map itself in whatever order its
    [omp simd reduction] and the schedule of its outer loops take.  In
    binary32, as long as the products and the sums are finite, their
    output cells differ by no more than the rounding errors of the
    additions the two perform, added up; so the difference is below 1e-4
    whenever these errors add up to less than 1e-4, and it is 0 when every
    addition is exact.  With a kernel of at most 49 elements, a reduction
    at most 64 additions deep and finite tap products whose magnitudes add
    up to at most 14, the two cells are less than 1e-4 apart. *)
Theorem padded_serial_parallel_within_rounding :
  forall (sched : list (Z * Z)) (red : Z -> Z -> reduction)
         (feature g : mem Binary32.float) (H W kH kW w_padding h_padding : Z)
         (output : outbuf Binary32.float)
         (padded_output : float_array Binary32.float) (n k : Z),
  1 <= kH -> 1 <= kW -> 0 <= n < H -> 0 <= k < W -> schedule_of H W sched ->
  reduction_of kH kW (red n k) ->
  let padded := Spec.zero_padded feature H W (half kH) (half kW) in
  let serial :=
    cells (snd (Padded.conv2d padded H W g kH kW (half kW) (half kH) output))
          (IDX n k W) in
  let parallel :=
    cells (arr (snd (Padded.parallel_conv2d_simd sched red feature H W g kH kW
                       w_padding h_padding padded_output))) (IDX n k W) in
  let serial_product :=
    Padded.conv2d_product padded W g kH kW (half kW)
      (n + half kH) (k + half kW) in
  let product := Padded.product feature H W g kH kW n k in
  (forall es ep : Q,
     rounding serial_product (in_order (serial_space kH kW)) = Some es ->
     rounding product (red n k) = Some ep ->
     exists p q : Q,
       Binary32.to_Q serial = Some p /\ Binary32.to_Q parallel = Some q /\
       (Qabs (p - q) <= es + ep)%Q /\
       ((es + ep < 1 # 10000)%Q ->
        Binary32.closer_than (1 # 10000) serial parallel) /\
       ((es + ep == 0)%Q -> (p == q)%Q)) /\
  (kH * kW <= 49 -> (height (red n k) <= 64)%nat ->
   (forall j i, In (j, i) (simd_space kH kW) -> finite32 (product j i) = true) ->
   (abs_sum product (simd_space kH kW) <= 14)%Q ->
   Binary32.closer_than (1 # 10000) serial parallel).
Proof.
  intros sched red feature g H W kH kW wp hp output po n k
    HkH HkW Hn Hk Hs Hred padded serial parallel serial_product product.
  subst padded serial parallel serial_product product.
  rewrite padded_conv2d_output_cell by assumption.
  rewrite padded_parallel_simd_output_cell by assumption.
  rewrite padded_conv2d_cell_reduction.
  assert (Hperm : Permutation (iterations (in_order (serial_space kH kW)))
                              (iterations (red n k))).
  { rewrite iterations_in_order.
    etransitivity; [apply serial_simd_space|]. symmetry. exact Hred. }
  assert (Hext : forall j i,
    In (j, i) (iterations (in_order (serial_space kH kW))) ->
    Padded.conv2d_product (Spec.zero_padded feature H W (half kH) (half kW)) W g
      kH kW (half kW) (n + half kH) (k + half kW) j i =
    Padded.product feature H W g kH kW n k j i).
  { intros j i Hin. rewrite iterations_in_order in Hin.
    apply (Permutation_in _ (serial_simd_space kH kW)) in Hin.
    apply simd_space_In in Hin as [Hj _].
    now apply padded_products_agree. }
  split.
  - intros es ep Hes Hep.
    now apply reductions_within_rounding.
  - intros Htaps Hheight Hfin HA.
    apply reductions_within_tolerance; try assumption.
    + rewrite height_in_order, serial_space_length by assumption. lia.
    + intros j i Hin. unfold Padded.product.
      apply fmul_representable. apply (Hfin j i).
      exact (Permutation_in _ Hred Hin).
    + rewrite (abs_sum_perm _ _ _ Hred). exact HA.
Qed.

Lemma padded_serial_parallel_within_rounding_witness :
  Binary32.closer_than (1 # 10000)
    (cells (snd (Padded.conv2d
                   (Spec.zero_padded feature_tenths 2 2 (half 2) (half 2)) 2 2
                   kernel_thirds_2x2 2 2 (half 2) (half 2) (fresh fzero)))
           (IDX 0 1 2))
    (cells (arr (snd (Padded.parallel_conv2d_simd (iteration_space 2 2)
                        (fun _ _ => two_lanes) feature_tenths 2 2
                        kernel_thirds_2x2 2 2 1 1
                        {| arr := fresh fzero; padding := None |})))
           (IDX 0 1 2)).
Proof.
  destruct (padded_serial_parallel_within_rounding (iteration_space 2 2)
              (fun _ _ => two_lanes) feature_tenths kernel_thirds_2x2
              2 2 2 2 1 1 (fresh fzero)
              {| arr := fresh fzero; padding := None |} 0 1
              ltac:(lia) ltac:(lia) ltac:(lia) ltac:(lia) (Permutation_refl _)
              ltac:(vm_compute; apply perm_skip, perm_swap))
    as [_ Hbounded].
  apply Hbounded; [lia | vm_compute; lia | | vm_compute; discriminate].
  intros j i Hin. vm_compute in Hin.
  destruct Hin as [E|[E|[E|[E|[]]]]]; injection E as <- <-;
    vm_compute; reflexivity.
Defined.

(** ** The order of the iterations *)

Lemma parallel_stores_schedule_free :
  forall (F : Type) (v : Z -> Z -> F) (H W : Z) (s1 s2 : list (Z * Z))
         (out : outbuf F) (idx : Z),
  schedule_of H W s1 -> schedule_of H W s2 ->
  cells (fold_left (store_cell W v) s1 out) idx =
  cells (fold_left (store_cell W v) s2 out) idx.
Proof.
  intros F v H W s1 s2 out idx H1 H2.
  destruct (in_dec Z.eq_dec idx (map (fun nk => IDX (fst nk) (snd nk) W) s1))
    as [Hin | Hout].
  - apply in_map_iff in Hin as ([n k] & <- & Hin). cbn [fst snd].
    pose proof (schedule_in_range H W s1 (n, k) H1 Hin) as [Hn Hk].
    cbn [fst snd] in Hn, Hk.
    rewrite !store_cells_value; try reflexivity; try assumption.
    + intros p Hp. now apply (schedule_in_range H W s2).
    + now apply (schedule_covers H W).
    + intros p Hp. now apply (schedule_in_range H W s1).
  - rewrite !store_cells_frame; try reflexivity; try assumption.
    intros Hin. apply Hout.
    refine (Permutation_in _ (Permutation_map _ _) Hin).
    unfold schedule_of in *. now rewrite H2, H1.
Qed.

(** X5.  The output of [parallel_conv2d], of either variant, does not
    depend on the order in which the iterations of the collapsed loops
    are run: any two schedules leave the same value at every offset of the
    output array. *)
Theorem parallel_conv2d_schedule_free :
  forall (F : Type) (ops : Scalar F) (s1 s2 : list (Z * Z)) (f g : mem F)
         (H W kH kW w_padding h_padding : Z)
         (padded_output : float_array F) (idx : Z),
  schedule_of H W s1 -> schedule_of H W s2 ->
  cells (arr (snd (Logical.parallel_conv2d s1 f H W g kH kW padded_output))) idx =
  cells (arr (snd (Logical.parallel_conv2d s2 f H W g kH kW padded_output))) idx /\
  cells (arr (snd (Padded.parallel_conv2d s1 f H W g kH kW w_padding h_padding
                     padded_output))) idx =
  cells (arr (snd (Padded.parallel_conv2d s2 f H W g kH kW w_padding h_padding
                     padded_output))) idx.
Proof.
  intros F ops s1 s2 f g H W kH kW wp hp po idx H1 H2.
  unfold Logical.parallel_conv2d, Padded.parallel_conv2d, omp_for_collapse2.
  cbn [snd arr]. split.
  - exact (parallel_stores_schedule_free F
             (Logical.parallel_conv2d_cell f H W g kH kW) H W s1 s2
             (arr po) idx H1 H2).
  - exact (parallel_stores_schedule_free F
             (Padded.parallel_conv2d_cell f H W g kH kW) H W s1 s2
             (arr po) idx H1 H2).
Qed.

Lemma parallel_conv2d_schedule_free_witness :
  cells (arr (snd (Logical.parallel_conv2d (F := Z) [(0, 0); (0, 1)]
                     (fun x => x) 1 2 (fun _ => 1) 1 1
                     {| arr := fresh 0; padding := None |}))) 1 =
  cells (arr (snd (Logical.parallel_conv2d (F := Z) [(0, 1); (0, 0)]
                     (fun x => x) 1 2 (fun _ => 1) 1 1
                     {| arr := fresh 0; padding := None |}))) 1.
Proof.
  destruct (parallel_conv2d_schedule_free Z _ [(0, 0); (0, 1)] [(0, 1); (0, 0)]
              (fun x => x) (fun _ => 1) 1 2 1 1 0 0
              {| arr := fresh 0; padding := None |} 1
              (Permutation_refl _) (perm_swap _ _ _)) as [Hl _].
  exact Hl.
Defined.

(** ** The variant with logical zero padding *)

(** X6.  In every output cell whose column is at least [kW/2], and so in
    every cell when the kernel has one column, [conv2d] with the logical
    zero padding leaves the zero-padding sum of the specification. *)
Theorem logical_conv2d_computes_policy :
  forall (F : Type) (ops : Scalar F) (f g : mem F) (H W kH kW : Z)
         (output : outbuf F) (n k : Z),
  1 <= kH -> 1 <= kW -> 0 <= n < H -> kW / 2 <= k < W ->
  cells (snd (Logical.conv2d f H W g kH kW output)) (IDX n k W) =
  Spec.serialConvolve_cell f H W g kH kW n k.
Proof.
  intros F ops f g H W kH kW output n k HkH HkW Hn Hk.
  rewrite <- (half_pos kW HkW) in Hk.
  pose proof (half_nonneg kW HkW).
  rewrite logical_conv2d_output_cell by lia.
  apply logical_conv2d_cell_policy; lia.
Qed.

Lemma logical_conv2d_computes_policy_witness :
  cells (snd (Logical.conv2d (F := Z) (fun x => x + 1) 3 3 (fun x => x) 3 3
                (fresh 0))) (IDX 0 1 3) =
  Spec.serialConvolve_cell (fun x => x + 1) 3 3 (fun x => x) 3 3 0 1.
Proof.
  apply (logical_conv2d_computes_policy Z _ (fun x => x + 1) (fun x => x)
           3 3 3 3 (fresh 0) 0 1); try lia.
  change (3 / 2) with 1. lia.
Defined.

(** X7.  With the logical zero padding, no cell of the convolvers reads
    the feature map beyond its last element, and none reads more than
    [kW/2] elements before its first. *)
Theorem logical_reads_bounded :
  forall (H W kH kW n k idx : Z),
  1 <= kW -> 0 <= k < W ->
  In idx (Logical.cell_reads H W kH kW n k) ->
  - (kW / 2) <= idx < H * W.
Proof.
  intros H W kH kW n k idx HkW Hk Hidx. unfold Logical.cell_reads in Hidx.
  apply in_flat_map in Hidx as (i & _ & Hidx).
  apply in_flat_map in Hidx as (j & Hj & Hidx).
  apply tap_offsets_In in Hj. rewrite half_pos in Hj by assumption.
  unfold Logical.guard in Hidx.
  destruct (n + i >=? 0) eqn:E1; [|destruct Hidx].
  destruct (n + i <? H) eqn:E2; [|destruct Hidx].
  destruct (k + j <? W) eqn:E4; [|destruct Hidx].
  cbn in Hidx. destruct Hidx as [<- | []].
  unfold IDX. split; nia.
Qed.

Lemma logical_reads_bounded_witness : - (3 / 2) <= -1 < 2 * 2.
Proof.
  apply (logical_reads_bounded 2 2 1 3 0 0 (-1)); try lia.
  vm_compute. tauto.
Defined.

(** ** A kernel of zeros *)

Lemma fold_left_invariant :
  forall (A B : Type) (P : A -> Prop) (f : A -> B -> A) (l : list B) (a : A),
  P a -> (forall a x, In x l -> P a -> P (f a x)) -> P (fold_left f l a).
Proof.
  intros A B P f; induction l as [|x l IH]; intros a Ha Hf; cbn; [exact Ha|].
  apply IH; [apply Hf; [now left | exact Ha]|].
  intros a' y Hy. apply Hf. now right.
Qed.

Lemma kernel_offset_range : forall kH kW i j,
  1 <= kH -> 1 <= kW -> In i (tap_offsets kH) -> In j (tap_offsets kW) ->
  0 <= IDX (i + half kH) (j + half kW) kW < kH * kW.
Proof.
  intros kH kW i j HkH HkW Hi Hj.
  apply tap_offsets_In in Hi. apply tap_offsets_In in Hj.
  pose proof (window_span kH HkH). pose proof (window_span kW HkW).
  unfold IDX. split; nia.
Qed.

Lemma zero_tap32 : forall x y : Binary32.float,
  finite32 x = true -> zero32 y = true -> fadd fzero (fmul x y) = fzero.
Proof.
  intros [sx|sx| |sx mx ex] [sy|sy| |sy my ey] Hx Hy; try discriminate;
    cbn; destruct sx, sy; reflexivity.
Qed.

Lemma boundaryRead_finite32 :
  forall (f : mem Binary32.float) H W row col,
  (forall idx, 0 <= idx < H * W -> finite32 (f idx) = true) ->
  finite32 (Spec.boundaryRead f H W row col) = true.
Proof.
  intros f H W row col Hf. unfold Spec.boundaryRead.
  destruct (0 <=? row) eqn:E1; [|reflexivity].
  destruct (row <? H) eqn:E2; [|reflexivity].
  destruct (0 <=? col) eqn:E3; [|reflexivity].
  destruct (col <? W) eqn:E4; [|reflexivity].
  cbn. apply Hf. unfold IDX. split; nia.
Qed.

(** X8.  In binary32, when every element of the kernel is [0.0] or [-0.0]
    and every element of the feature map is finite, [parallel_conv2d] of
    [conv2d.c] leaves [0.0] in every output cell. *)
Theorem zero_kernel_zero_output :
  forall (sched : list (Z * Z)) (f g : mem Binary32.float)
         (H W kH kW w_padding h_padding : Z)
         (padded_output : float_array Binary32.float) (n k : Z),
  1 <= kH -> 1 <= kW ->
  (forall idx, 0 <= idx < H * W -> finite32 (f idx) = true) ->
  (forall idx, 0 <= idx < kH * kW -> zero32 (g idx) = true) ->
  0 <= n < H -> 0 <= k < W -> schedule_of H W sched ->
  cells (arr (snd (Padded.parallel_conv2d sched f H W g kH kW
                     w_padding h_padding padded_output))) (IDX n k W) = fzero.
Proof.
  intros sched f g H W kH kW wp hp po n k HkH HkW Hf Hg Hn Hk Hs.
  rewrite padded_parallel_conv2d_output_cell by assumption.
  rewrite padded_parallel_cell_policy.
  apply (fold_left_invariant _ _ (fun r => r = fzero)); [reflexivity|].
  intros a j Hj ->.
  apply (fold_left_invariant _ _ (fun r => r = fzero)); [reflexivity|].
  intros a i Hi ->.
  apply zero_tap32.
  - now apply boundaryRead_finite32.
  - apply Hg. now apply kernel_offset_range.
Qed.

Lemma zero_kernel_zero_output_witness :
  cells (arr (snd (Padded.parallel_conv2d (iteration_space 2 2)
                     (fun _ => Binary32.one) 2 2 (fun _ => Binary32.neg_zero)
                     3 3 1 1 {| arr := fresh Binary32.one; padding := None |})))
        (IDX 1 1 2) = fzero.
Proof.
  apply (zero_kernel_zero_output (iteration_space 2 2)
           (fun _ => Binary32.one) (fun _ => Binary32.neg_zero) 2 2 3 3 1 1
           {| arr := fresh Binary32.one; padding := None |} 1 1);
    try lia; try reflexivity; try apply Permutation_refl.
Defined.

(** * The glue around the convolvers *)

(** X10.  The padding block [main] attaches to the output of the parallel
    convolver has between 1 and 63 bytes and completes the bytes of one
    row of [W] floats to a multiple of 64; it is absent ([NULL]) exactly
    when [W] is a multiple of 16.  The height plays no part. *)
Theorem cache_padding_completes_row : forall W : Z,
  1 <= cache_padding_size W <= 64 /\
  (W * sizeof_float + cache_padding_size W) mod 64 = 0 /\
  (output_padding W = None <-> W mod 16 = 0) /\
  (forall p, output_padding W = Some p ->
     1 <= p <= 63 /\ (W * sizeof_float + p) mod 64 = 0).
Proof.
  intros W. unfold output_padding, cache_padding_size, sizeof_float.
  assert (E : ((W * 4) mod 2 ^ 64) mod 64 = (W * 4) mod 64).
  { set (a := W * 4).
    pose proof (Z.div_mod a (2 ^ 64) ltac:(lia)) as Hd.
    pose proof (Z.div_mod (a mod 2 ^ 64) 64 ltac:(lia)) as Hd'.
    pose proof (Z.mod_pos_bound (a mod 2 ^ 64) 64 ltac:(lia)) as Hb'.
    apply (Z.mod_unique a 64
             (288230376151711744 * (a / 2 ^ 64) + (a mod 2 ^ 64) / 64));
      [left; exact Hb'|].
    change (2 ^ 64) with (64 * 288230376151711744) in *. lia. }
  rewrite E.
  pose proof (Z.mod_pos_bound (W * 4) 64 ltac:(lia)) as Hb.
  assert (Hsum : (W * 4 + (64 - (W * 4) mod 64)) mod 64 = 0).
  { pose proof (Z.div_mod (W * 4) 64 ltac:(lia)) as Hd.
    replace (W * 4 + (64 - (W * 4) mod 64))
      with ((W * 4 / 64 + 1) * 64) by lia.
    apply Z.mod_mul. lia. }
  assert (Hz : (W * 4) mod 64 = 0 <-> W mod 16 = 0).
  { pose proof (Z.div_mod W 16 ltac:(lia)) as Hd.
    pose proof (Z.mod_pos_bound W 16 ltac:(lia)) as Hb16.
    replace (W * 4) with (W mod 16 * 4 + (W / 16) * 64) at 1 by lia.
    rewrite Z_mod_plus_full, Z.mod_small by lia. lia. }
  split; [lia|]. split; [exact Hsum|]. split.
  - destruct (Z.eqb_spec (64 - (W * 4) mod 64) 64) as [E64|E64].
    + split; [intros _; apply Hz; lia | reflexivity].
    + split; [discriminate | intros H16; apply Hz in H16; lia].
  - intros p. destruct (Z.eqb_spec (64 - (W * 4) mod 64) 64) as [E64|E64];
      [discriminate|].
    intros Hp. assert (Ep : p = 64 - (W * 4) mod 64) by congruence.
    subst p. split; [lia | exact Hsum].
Qed.

Section GenerateFacts.
Variable rng : Type.
Variable rand : rng -> Z * rng.
Variable srand : Z -> rng -> rng.
Variable RAND_MAX : Z.

Lemma generate_rows_written :
  forall (width : Z) (l : list (Z * Z)) (gen : rng)
         (out : outbuf Binary32.float),
  written (snd (fold_left (fun st nk =>
             let '(gen, out) := st in
             let (r, gen) := rand gen in
             (gen, store out (IDX (fst nk) (snd nk) width)
                         (random_unit RAND_MAX r))) l (gen, out))) =
  written out ++ map (fun nk => IDX (fst nk) (snd nk) width) l.
Proof.
  intros width; induction l as [|x l IH]; intros gen out; cbn [fold_left map].
  - now rewrite app_nil_r.
  - destruct (rand gen) as [r gen']. rewrite IH. cbn.
    now rewrite <- app_assoc.
Qed.

Lemma generate_rows_frame :
  forall (width : Z) (l : list (Z * Z)) (gen : rng)
         (out : outbuf Binary32.float) (idx : Z),
  ~ In idx (map (fun nk => IDX (fst nk) (snd nk) width) l) ->
  cells (snd (fold_left (fun st nk =>
           let '(gen, out) := st in
           let (r, gen) := rand gen in
           (gen, store out (IDX (fst nk) (snd nk) width)
                       (random_unit RAND_MAX r))) l (gen, out))) idx =
  cells out idx.
Proof.
  intros width; induction l as [|x l IH]; intros gen out idx Hn;
    cbn [fold_left]; [reflexivity|].
  cbn [map In] in Hn. destruct (rand gen) as [r gen'].
  rewrite IH by tauto. cbn.
  destruct (Z.eqb_spec idx (IDX (fst x) (snd x) width)); [|reflexivity].
  exfalso; apply Hn; left; congruence.
Qed.

(** X11.  [generate_data] refuses a height or width [<= 0] and a [NULL]
    array with status 1, touching neither the array nor the random
    generator.  Otherwise it returns 0 and stores to the cells
    [0 .. height*width-1] of the array, in this order and each once, and
    to nothing else. *)
Theorem generate_data_fills :
  forall (height width : Z) (output : option (outbuf Binary32.float))
         (gen : rng),
  let r := generate_data rng rand srand RAND_MAX height width output gen in
  (height <= 0 \/ width <= 0 \/ output = None -> r = (1, gen, output)) /\
  (forall out, 1 <= height -> 1 <= width -> output = Some out ->
     exists gen' out',
       r = (0, gen', Some out') /\
       written out' = written out ++ lt_values 0 (height * width) /\
       (forall idx, ~ 0 <= idx < height * width ->
          cells out' idx = cells out idx)).
Proof.
  intros height width output gen r. subst r. unfold generate_data. split.
  - intros Hbad. destruct output as [out|]; [|reflexivity].
    destruct Hbad as [Hh | [Hw | Hn]]; [| | discriminate].
    + replace (height <=? 0) with true by lia. reflexivity.
    + replace (width <=? 0) with true by lia.
      now rewrite orb_true_r.
  - intros out Hh Hw ->.
    replace (height <=? 0) with false by lia.
    replace (width <=? 0) with false by lia. cbn [orb].
    destruct (rand gen) as [seed gen1].
    rewrite (nested_loops_fold _
      (fun i j st => let '(gen, out) := st in
                     let (r, gen) := rand gen in
                     (gen, store out (IDX i j width) (random_unit RAND_MAX r)))).
    unfold omp_for_collapse2.
    pose proof (generate_rows_written width (iteration_space height width)
                  (srand seed gen1) out) as Hwr.
    pose proof (generate_rows_frame width (iteration_space height width)
                  (srand seed gen1) out) as Hfr.
    destruct (fold_left _ (iteration_space height width) (srand seed gen1, out))
      as [gen' out'] eqn:E.
    cbn [snd] in Hwr, Hfr.
    exists gen', out'. split; [reflexivity|]. split.
    + rewrite Hwr. f_equal. apply (output_cells_zseq height width). lia.
    + intros idx Hidx. apply Hfr.
      change (~ In idx (output_cells height width)).
      rewrite output_cells_zseq, lt_values_In by lia. lia.
Qed.
End GenerateFacts.

Lemma generate_data_fills_witness :
  generate_data Z (fun s => (s, s + 1)) (fun seed _ => seed) 32767 0 3
    (Some (fresh fzero)) 5 = (1, 5, Some (fresh fzero)).
Proof.
  destruct (generate_data_fills Z (fun s => (s, s + 1)) (fun seed _ => seed)
              32767 0 3 (Some (fresh fzero)) 5) as [Hbad _].
  apply Hbad. left. lia.
Defined.

(** * Text files *)

(** ** Decimal integers *)

Lemma digit_char_facts : forall d, 0 <= d < 10 ->
  isdigit (digit_char d) = true /\ digit_value (digit_char d) = d /\
  isspace (digit_char d) = false /\
  Ascii.eqb (digit_char d) SP = false /\ Ascii.eqb (digit_char d) LF = false /\
  Ascii.eqb (digit_char d) NUL = false /\
  Ascii.eqb (digit_char d) "-"%char = false /\
  Ascii.eqb (digit_char d) "+"%char = false.
Proof.
  intros d Hd.
  assert (Hc : d = 0 \/ d = 1 \/ d = 2 \/ d = 3 \/ d = 4 \/ d = 5 \/ d = 6 \/
               d = 7 \/ d = 8 \/ d = 9) by lia.
  repeat (destruct Hc as [-> | Hc]; [vm_compute; repeat split|]).
  subst d. vm_compute; repeat split.
Qed.

Lemma to_digits_app : forall fuel n tail,
  to_digits fuel n tail = to_digits fuel n [] ++ tail.
Proof.
  induction fuel as [|fuel IH]; intros n tail; cbn [to_digits].
  - reflexivity.
  - destruct (n / 10 =? 0); [reflexivity|].
    rewrite (IH _ (_ :: tail)), (IH _ [_]), <- app_assoc. reflexivity.
Qed.

Lemma to_digits_head : forall fuel n tail, 0 <= n ->
  exists d s, 0 <= d < 10 /\ to_digits fuel n tail = digit_char d :: s.
Proof.
  induction fuel as [|fuel IH]; intros n tail Hn; cbn [to_digits].
  - exists (n mod 10), tail. split; [apply Z.mod_pos_bound; lia | reflexivity].
  - destruct (n / 10 =? 0).
    + exists (n mod 10), tail. split; [apply Z.mod_pos_bound; lia | reflexivity].
    + apply IH. apply Z.div_pos; lia.
Qed.

Lemma to_digits_plain : forall fuel n tail c, 0 <= n ->
  In c (to_digits fuel n tail) -> plain c \/ In c tail.
Proof.
  induction fuel as [|fuel IH]; intros n tail c Hn Hin; cbn [to_digits] in Hin.
  - destruct Hin as [<- | Hin]; [left | now right].
    destruct (digit_char_facts (n mod 10)) as (_ & _ & _ & ? & ? & ? & _);
      [apply Z.mod_pos_bound; lia | now repeat split].
  - assert (Hd : plain (digit_char (n mod 10))).
    { destruct (digit_char_facts (n mod 10)) as (_ & _ & _ & ? & ? & ? & _);
        [apply Z.mod_pos_bound; lia | now repeat split]. }
    destruct (n / 10 =? 0).
    + destruct Hin as [<- | Hin]; [now left | now right].
    + apply IH in Hin; [|apply Z.div_pos; lia].
      destruct Hin as [Hp | [<- | Hin]]; [now left | now left | now right].
Qed.

Lemma atoi_to_digits : forall fuel n tail,
  0 <= n < 2 ^ (Z.of_nat fuel + 1) ->
  atoi_digits (to_digits fuel n tail) 0 = atoi_digits tail n.
Proof.
  induction fuel as [|fuel IH]; intros n tail Hn; cbn [to_digits].
  - change (2 ^ (Z.of_nat 0 + 1)) with 2 in Hn.
    cbn [atoi_digits].
    destruct (digit_char_facts (n mod 10)) as (-> & -> & _);
      [apply Z.mod_pos_bound; lia|].
    f_equal. rewrite Z.mod_small; lia.
  - pose proof (Z.div_mod n 10 ltac:(lia)) as Hdm.
    pose proof (Z.mod_pos_bound n 10 ltac:(lia)) as Hb.
    destruct (Z.eqb_spec (n / 10) 0) as [E|E].
    + cbn [atoi_digits].
      destruct (digit_char_facts (n mod 10)) as (-> & -> & _); [lia|].
      f_equal. lia.
    + rewrite IH.
      * cbn [atoi_digits].
        destruct (digit_char_facts (n mod 10)) as (-> & -> & _); [lia|].
        f_equal. lia.
      * replace (Z.of_nat (Datatypes.S fuel) + 1) with (Z.succ (Z.of_nat fuel + 1))
          in Hn by lia.
        rewrite Z.pow_succ_r in Hn by lia.
        split; [apply Z.div_pos; lia|].
        apply Z.div_lt_upper_bound; lia.
Qed.

Lemma log2_fuel : forall n, 0 <= n -> n < 2 ^ (Z.of_nat (Z.to_nat (Z.log2 n)) + 1).
Proof.
  intros n Hn. rewrite Z2Nat.id by apply Z.log2_nonneg.
  destruct (Z.eq_dec n 0) as [-> | Hz]; [reflexivity|].
  apply Z.log2_spec. lia.
Qed.

Lemma print_int_plain : forall n c, In c (print_int n) ->
  plain c.
Proof.
  intros n c Hin. unfold print_int in Hin.
  destruct (n <? 0) eqn:E.
  - destruct Hin as [<- | Hin]; [now repeat split|].
    apply to_digits_plain in Hin; [|lia]. now destruct Hin.
  - apply to_digits_plain in Hin; [|lia]. now destruct Hin.
Qed.

Lemma print_int_nonempty : forall n, print_int n <> [].
Proof.
  intros n. unfold print_int. destruct (n <? 0) eqn:E; [discriminate|].
  destruct (to_digits_head (Z.to_nat (Z.log2 n)) n []) as (d & s & _ & ->);
    [lia | discriminate].
Qed.

(** [atoi] reads back what [printf("%d")] wrote, whatever follows the
    digits, as long as it is no digit. *)
Lemma atoi_print_int : forall n rest,
  (forall c r, rest = c :: r -> isdigit c = false) ->
  atoi (print_int n ++ rest) = n.
Proof.
  intros n rest Hrest.
  assert (Htail : forall m, atoi_digits rest m = m).
  { intros m. destruct rest as [|c r]; [reflexivity|].
    cbn. now rewrite (Hrest c r eq_refl). }
  unfold print_int. destruct (n <? 0) eqn:E.
  - unfold atoi. cbn [app skip_isspace].
    change (isspace "-") with false. cbv iota.
    change (Ascii.eqb "-" "-") with true. cbv iota.
    rewrite to_digits_app, <- app_assoc, <- to_digits_app.
    rewrite atoi_to_digits, Htail; [lia|].
    split; [lia | apply log2_fuel; lia].
  - rewrite to_digits_app, <- app_assoc, <- to_digits_app. cbn [app].
    destruct (to_digits_head (Z.to_nat (Z.log2 n)) n rest) as (d & s & Hd & Es);
      [lia|].
    unfold atoi. rewrite Es. cbn [skip_isspace].
    destruct (digit_char_facts d Hd) as (_ & _ & -> & _ & _ & _ & -> & ->).
    rewrite <- Es, atoi_to_digits, Htail; [reflexivity|].
    split; [lia | apply log2_fuel; lia].
Qed.

(** ** Lines and tokens *)

Lemma read_line_full : forall line room rest,
  (forall c, In c line -> Ascii.eqb c LF = false) ->
  (length line < room)%nat ->
  read_line room (line ++ LF :: rest) = (line ++ [LF], rest).
Proof.
  induction line as [|c line IH]; intros room rest Hline Hroom;
    destruct room as [|room]; try (cbn in Hroom; lia); cbn.
  - reflexivity.
  - rewrite (Hline c) by now left.
    rewrite IH; [reflexivity | | cbn in Hroom; lia].
    intros c' Hc'. apply Hline. now right.
Qed.

Lemma c_str_plain : forall s,
  (forall c, In c s -> Ascii.eqb c NUL = false) -> c_str s = s.
Proof.
  induction s as [|c s IH]; intros Hs; cbn; [reflexivity|].
  rewrite (Hs c) by now left. f_equal. apply IH.
  intros c' Hc'. apply Hs. now right.
Qed.

Lemma take_token_sp : forall t rest,
  (forall c, In c t -> Ascii.eqb c SP = false) ->
  take_token (t ++ SP :: rest) = (t, rest).
Proof.
  induction t as [|c t IH]; intros rest Ht; cbn; [reflexivity|].
  rewrite (Ht c) by now left. rewrite IH; [reflexivity|].
  intros c' Hc'. apply Ht. now right.
Qed.

Lemma take_token_end : forall t,
  (forall c, In c t -> Ascii.eqb c SP = false) -> take_token t = (t, []).
Proof.
  induction t as [|c t IH]; intros Ht; cbn; [reflexivity|].
  rewrite (Ht c) by now left. rewrite IH; [reflexivity|].
  intros c' Hc'. apply Ht. now right.
Qed.

Lemma strtok_token : forall t rest,
  t <> [] -> (forall c, In c t -> Ascii.eqb c SP = false) ->
  strtok (t ++ SP :: rest) = Some (t, rest).
Proof.
  intros [|c t] rest Hne Ht; [contradiction|].
  unfold strtok. cbn [app skip_spaces]. rewrite (Ht c) by now left.
  f_equal. exact (take_token_sp (c :: t) rest Ht).
Qed.

Lemma strtok_end : forall t,
  t <> [] -> (forall c, In c t -> Ascii.eqb c SP = false) ->
  strtok t = Some (t, []).
Proof.
  intros [|c t] Hne Ht; [contradiction|].
  unfold strtok. cbn [skip_spaces]. rewrite (Ht c) by now left.
  f_equal. exact (take_token_end (c :: t) Ht).
Qed.

(** ** What [write_data_to_file] sends to the file *)

Lemma iterate_ret_total :
  forall (S R : Type) (body : Z -> S -> S + R) (g : Z -> S -> S) count i s,
  (forall i s, body i s = inl (g i s)) ->
  iterate_ret count i body s = inl (iterate count i g s).
Proof.
  intros S R body g; induction count as [|c IH]; intros i s Hb; cbn;
    [reflexivity|].
  rewrite Hb. now apply IH.
Qed.

Lemma iterate_ret_ext :
  forall (S R : Type) (b1 b2 : Z -> S -> S + R) count i s,
  (forall i s, b1 i s = b2 i s) ->
  iterate_ret count i b1 s = iterate_ret count i b2 s.
Proof.
  intros S R b1 b2; induction count as [|c IH]; intros i s Hb; cbn;
    [reflexivity|].
  rewrite Hb. destruct (b2 i s); [now apply IH | reflexivity].
Qed.

Lemma for_lt_ret_ext :
  forall (S R : Type) (b1 b2 : Z -> S -> S + R) lo hi s,
  (forall i s, b1 i s = b2 i s) ->
  for_lt_ret lo hi b1 s = for_lt_ret lo hi b2 s.
Proof. intros; unfold for_lt_ret; now apply iterate_ret_ext. Qed.

Lemma for_lt_ret_append :
  forall (R A : Type) (h : Z -> list A) lo hi (file : list A),
  for_lt_ret (R := R) lo hi (fun j file => inl (file ++ h j)) file =
  inl (file ++ flat_map h (lt_values lo hi)).
Proof.
  intros. unfold for_lt_ret.
  rewrite (iterate_ret_total _ _ _ (fun j file => file ++ h j)) by reflexivity.
  f_equal. change (iterate ?c lo ?b file) with (for_lt lo hi b file).
  rewrite for_lt_fold. apply fold_left_snoc_flat_map.
Qed.

Lemma matrix_text_header : forall (F : Type) (fmt : F -> text) data height width,
  matrix_text fmt data height width =
  header height width ++
  flat_map (fun row =>
    flat_map (fun col => fmt (data (IDX row col width)) ++ [SP])
             (lt_values 0 width) ++ [LF])
    (lt_values 0 height).
Proof. intros; unfold matrix_text, header; now rewrite <- !app_assoc. Qed.

Lemma write_rows_text :
  forall (F : Type) (fmt : F -> text) (outputs padded_arr : option (mem F))
         (data : mem F) (h w : Z) (file : text),
  outputs = Some data \/ (outputs = None /\ padded_arr = Some data) ->
  for_lt_ret (R := Z * option text) 0 h (fun i file =>
    match
      for_lt_ret 0 w (fun j file =>
        match outputs, padded_arr with
        | Some outputs, _ => inl (file ++ print_value fmt (outputs (IDX i j w)))
        | None, Some arr => inl (file ++ print_value fmt (arr (IDX i j w)))
        | None, None => inr (1, Some file)
        end) file
    with
    | inl file => inl (file ++ [LF])
    | inr r => inr r
    end) file =
  inl (file ++ flat_map (fun row =>
         flat_map (fun col => fmt (data (IDX row col w)) ++ [SP])
                  (lt_values 0 w) ++ [LF]) (lt_values 0 h)).
Proof.
  intros F fmt outputs padded data h w file Hdata.
  rewrite <- (for_lt_ret_append (Z * option text) _
    (fun row => flat_map (fun col => fmt (data (IDX row col w)) ++ [SP])
                         (lt_values 0 w) ++ [LF]) 0 h file).
  apply for_lt_ret_ext. intros i file'.
  assert (E : for_lt_ret (R := Z * option text) 0 w (fun j file =>
        match outputs, padded with
        | Some outputs, _ => inl (file ++ print_value fmt (outputs (IDX i j w)))
        | None, Some arr => inl (file ++ print_value fmt (arr (IDX i j w)))
        | None, None => inr (1, Some file)
        end) file' =
      inl (file' ++ flat_map (fun col => fmt (data (IDX i col w)) ++ [SP])
                             (lt_values 0 w))).
  { rewrite <- (for_lt_ret_append (Z * option text)).
    destruct Hdata as [-> | [-> ->]]; reflexivity. }
  match goal with
  | |- match ?x with inl _ => _ | inr _ => _ end = _ =>
      replace x with (@inl text (Z * option text)
        (file' ++ flat_map (fun col => fmt (data (IDX i col w)) ++ [SP])
                           (lt_values 0 w))) by (symmetry; exact E)
  end.
  now rewrite <- app_assoc.
Qed.

Lemma write_text_of_data :
  forall (F : Type) (fmt : F -> text) (writable : text -> bool) (path : text)
         (outputs padded_arr : option (mem F)) (data : mem F) (h w : Z),
  writable path = true ->
  outputs = Some data \/ (outputs = None /\ padded_arr = Some data) ->
  write_data_to_file fmt writable (Some path) outputs padded_arr h w =
  (0, Some (matrix_text fmt data h w)).
Proof.
  intros F fmt writable path outputs padded data h w Hw Hdata.
  unfold write_data_to_file. rewrite Hw. cbn [negb].
  rewrite (write_rows_text F fmt outputs padded data h w) by exact Hdata.
  now rewrite matrix_text_header.
Qed.

(** X12.  [write_data_to_file] fails with status 1, sending nothing, when
    the path is [NULL] or the file cannot be opened, and with status 1
    after the first line when both arrays are [NULL] and there is a cell
    to print.  Otherwise it returns 0 and the file holds the line
    "height width" followed by [height] lines, each made of [width] values
    with a space behind every one of them; [outputs] is printed when it is
    not [NULL], [padded_outputs.arr] else. *)
Theorem write_data_to_file_text :
  forall (F : Type) (fmt : F -> text) (writable : text -> bool)
         (filepath : option text) (outputs padded_arr : option (mem F))
         (h w : Z),
  let r := write_data_to_file fmt writable filepath outputs padded_arr h w in
  (filepath = None -> r = (1, None)) /\
  (forall path, filepath = Some path -> writable path = false ->
     r = (1, None)) /\
  (forall path, filepath = Some path -> writable path = true ->
     (forall data, outputs = Some data ->
        r = (0, Some (matrix_text fmt data h w))) /\
     (forall data, outputs = None -> padded_arr = Some data ->
        r = (0, Some (matrix_text fmt data h w))) /\
     (outputs = None -> padded_arr = None -> 1 <= h -> 1 <= w ->
        r = (1, Some (header h w)))).
Proof.
  intros F fmt writable filepath outputs padded h w r. subst r.
  unfold write_data_to_file. split; [intros ->; reflexivity|]. split.
  - intros path -> Hw. now rewrite Hw.
  - intros path -> Hw. rewrite Hw. cbn [negb]. split; [|split].
    + intros data ->.
      rewrite (write_rows_text F fmt (Some data) padded data h w) by now left.
      now rewrite matrix_text_header.
    + intros data -> ->.
      rewrite (write_rows_text F fmt None (Some data) data h w) by (right; easy).
      now rewrite matrix_text_header.
    + intros -> -> Hh Hw1. unfold for_lt_ret.
      destruct (Z.to_nat (h - 0)) as [|ch] eqn:Eh; [lia|].
      destruct (Z.to_nat (w - 0)) as [|cw] eqn:Ew; [lia|].
      reflexivity.
Qed.

Lemma write_data_to_file_text_witness :
  write_data_to_file (fun z : Z => print_int z) (fun _ => true) (Some [])
    (Some (fun i => i)) None 1 2 =
  (0, Some (matrix_text (fun z : Z => print_int z) (fun i => i) 1 2)).
Proof.
  destruct (write_data_to_file_text Z (fun z : Z => print_int z) (fun _ => true)
              (Some []) (Some (fun i => i)) None 1 2) as (_ & _ & Hw).
  destruct (Hw [] eq_refl eq_refl) as (Hd & _).
  exact (Hd (fun i => i) eq_refl).
Defined.

Lemma for_lt_ret_shift :
  forall (S R : Type) (body : Z -> S -> S + R) lo len s,
  for_lt_ret lo (len + lo) body s =
  for_lt_ret 0 len (fun x => body (x + lo)) s.
Proof.
  intros S R body lo len s. unfold for_lt_ret.
  replace (Z.to_nat (len + lo - lo)) with (Z.to_nat (len - 0)) by lia.
  generalize (Z.to_nat (len - 0)) as count. intros count.
  replace lo with (0 + lo) at 1 by lia.
  generalize 0 as i. revert s.
  induction count as [|c IH]; intros s i; cbn; [reflexivity|].
  destruct (body (i + lo) s) as [s'|r]; [|reflexivity].
  replace (i + lo + 1) with (i + 1 + lo) by lia. apply IH.
Qed.

(** X13.  The two padding arguments of [write_data_to_file] of [conv2d.c]
    have no effect: whatever they are, it returns the status and sends the
    text of the variant without them, which starts at the first element of
    the array.  So [main] of [conv2d.c], which passes a padded feature
    buffer with its paddings, saves the first [H * W] elements of that
    buffer. *)
Theorem write_data_to_file_ignores_padding :
  forall (F : Type) (fmt : F -> text) (writable : text -> bool)
         (filepath : option text) (outputs padded_arr : option (mem F))
         (h w h_padding w_padding : Z),
  write_data_to_file_padded fmt writable filepath outputs padded_arr h w
    h_padding w_padding =
  write_data_to_file fmt writable filepath outputs padded_arr h w.
Proof.
  intros F fmt writable filepath outputs padded h w hp wp.
  unfold write_data_to_file_padded, write_data_to_file.
  destruct filepath as [path|]; [|reflexivity].
  destruct (negb (writable path)); [reflexivity|].
  rewrite for_lt_ret_shift.
  rewrite (for_lt_ret_ext _ _ _
    (fun i file =>
       match
         for_lt_ret 0 w (fun j file =>
           match outputs, padded with
           | Some outputs, _ => inl (file ++ print_value fmt (outputs (IDX i j w)))
           | None, Some arr => inl (file ++ print_value fmt (arr (IDX i j w)))
           | None, None => inr (1, Some file)
           end) file
       with
       | inl file => inl (file ++ [LF])
       | inr r => inr r
       end)); [reflexivity|].
  intros i file. rewrite for_lt_ret_shift.
  replace (i + hp - hp) with i by lia.
  rewrite (for_lt_ret_ext _ _ _
    (fun j file =>
       match outputs, padded with
       | Some outputs, _ => inl (file ++ print_value fmt (outputs (IDX i j w)))
       | None, Some arr => inl (file ++ print_value fmt (arr (IDX i j w)))
       | None, None => inr (1, Some file)
       end)); [reflexivity|].
  intros j file'. now replace (j + wp - wp) with j by lia.
Qed.

(** ** Reading the dimensions back *)

Lemma write_starts_with_header :
  forall (F : Type) (fmt : F -> text) (writable : text -> bool)
         (filepath : option text) (outputs padded_arr : option (mem F))
         (h w status : Z) (file : text),
  write_data_to_file fmt writable filepath outputs padded_arr h w =
    (status, Some file) ->
  exists body, file = header h w ++ body.
Proof.
  intros F fmt writable filepath outputs padded h w status file Hw.
  destruct filepath as [path|]; [|discriminate].
  destruct (writable path) eqn:Ew.
  2:{ unfold write_data_to_file in Hw. rewrite Ew in Hw. discriminate. }
  destruct outputs as [data|].
  - rewrite (write_text_of_data F fmt writable path (Some data) padded data h w
               Ew (or_introl eq_refl)) in Hw.
    injection Hw as _ <-.
    rewrite matrix_text_header. eexists; reflexivity.
  - destruct padded as [data|].
    + rewrite (write_text_of_data F fmt writable path None (Some data) data h w
                 Ew (or_intror (conj eq_refl eq_refl))) in Hw.
      injection Hw as _ <-.
      rewrite matrix_text_header. eexists; reflexivity.
    + unfold write_data_to_file in Hw. rewrite Ew in Hw. cbn [negb] in Hw.
      fold (header h w) in Hw. unfold for_lt_ret at 1 in Hw.
      destruct (Z.to_nat (w - 0)) as [|cw] eqn:Ecw.
      * rewrite (iterate_ret_ext _ _ _
                   (fun (_ : Z) (file : text) => inl (file ++ [LF])))
          in Hw by (intros i f'; unfold for_lt_ret; now rewrite Ecw).
        change (iterate_ret ?c 0 ?b ?s) with (for_lt_ret 0 h b s) in Hw.
        rewrite (for_lt_ret_append (Z * option text) _ (fun _ => [LF])) in Hw.
        injection Hw as _ <-. eexists; reflexivity.
      * destruct (Z.to_nat (h - 0)) as [|ch]; cbn [iterate_ret] in Hw.
        -- injection Hw as _ <-. exists []. now rewrite app_nil_r.
        -- unfold for_lt_ret in Hw. rewrite Ecw in Hw. cbn [iterate_ret] in Hw.
           injection Hw as _ <-. exists []. now rewrite app_nil_r.
Qed.

Lemma extract_dimensions_header :
  forall (fs : files) (path body : text) (h w h0 w0 : Z),
  fs path = Some (header h w ++ body) ->
  (length (header h w) <= 15)%nat ->
  extract_dimensions fs (Some path) h0 w0 = Returns (0, h, w).
Proof.
  intros fs path body h w h0 w0 Hfs Hlen.
  unfold extract_dimensions. rewrite Hfs.
  assert (Hsp : forall n c, In c (print_int n) -> Ascii.eqb c SP = false)
    by (intros n c Hc; now destruct (print_int_plain n c Hc)).
  assert (Hlf : forall n c, In c (print_int n) -> Ascii.eqb c LF = false)
    by (intros n c Hc; now destruct (print_int_plain n c Hc) as (_ & ? & _)).
  assert (Hnul : forall n c, In c (print_int n) -> Ascii.eqb c NUL = false)
    by (intros n c Hc; now destruct (print_int_plain n c Hc) as (_ & _ & ?)).
  set (line := print_int h ++ SP :: print_int w).
  assert (Eh : header h w ++ body = line ++ LF :: body).
  { unfold header, line. now rewrite <- !app_assoc. }
  rewrite Eh.
  assert (Hline : forall c, In c line -> Ascii.eqb c LF = false).
  { intros c Hc. apply in_app_or in Hc as [Hc | [<- | Hc]];
      [now apply (Hlf h) | reflexivity | now apply (Hlf w)]. }
  assert (Hroom : (length line < 15)%nat).
  { unfold header in Hlen. fold line in Hlen.
    replace (print_int h ++ [SP] ++ print_int w ++ [LF]) with (line ++ [LF])
      in Hlen by (unfold line; now rewrite <- !app_assoc).
    rewrite length_app in Hlen. cbn in Hlen. lia. }
  assert (Hne : line ++ LF :: body <> []) by (now destruct line).
  unfold fgets. destruct (line ++ LF :: body) as [|c0 s0] eqn:Es;
    [contradiction|]. rewrite <- Es.
  change (Z.to_nat (16 - 1)) with 15%nat.
  rewrite (read_line_full line 15 body Hline Hroom).
  rewrite c_str_plain.
  2:{ intros c Hc. apply in_app_or in Hc as [Hc | [<- | []]]; [|reflexivity].
      apply in_app_or in Hc as [Hc | [<- | Hc]];
        [now apply (Hnul h) | reflexivity | now apply (Hnul w)]. }
  destruct (line ++ [LF]) as [|c1 s1] eqn:El; [now destruct line|].
  rewrite <- El. unfold line. rewrite <- app_assoc. cbn [app].
  rewrite (strtok_token (print_int h) (print_int w ++ [LF])
             (print_int_nonempty h) (Hsp h)).
  rewrite strtok_end.
  - rewrite <- (app_nil_r (print_int h)) at 1.
    rewrite !atoi_print_int; [reflexivity | |].
    + intros c r [= <- <-]. reflexivity.
    + intros c r [=].
  - intros E. apply app_eq_nil in E as [E _]. now apply (print_int_nonempty w).
  - intros c Hc. apply in_app_or in Hc as [Hc | [<- | []]];
      [now apply (Hsp w) | reflexivity].
Qed.

(** X14.  [extract_dimensions] reads back the height and the width that
    [write_data_to_file] wrote, with status 0, when the first line
    "height width" has at most 15 characters, the newline counted: the
    size of [firstline] less one. *)
Theorem dimensions_round_trip :
  forall (F : Type) (fmt : F -> text) (writable : text -> bool)
         (path : text) (outputs padded_arr : option (mem F))
         (h w h0 w0 : Z) (file : text) (fs : files),
  write_data_to_file fmt writable (Some path) outputs padded_arr h w =
    (0, Some file) ->
  fs path = Some file ->
  (length (header h w) <= 15)%nat ->
  extract_dimensions fs (Some path) h0 w0 = Returns (0, h, w).
Proof.
  intros F fmt writable path outputs padded h w h0 w0 file fs Hw Hfs Hlen.
  destruct (write_starts_with_header F fmt writable (Some path) outputs padded
              h w 0 file Hw) as [body ->].
  now apply (extract_dimensions_header fs path body).
Qed.

Lemma dimensions_round_trip_witness :
  extract_dimensions
    (fun _ => Some (matrix_text (fun z : Z => print_int z) (fun i => i) 2 3))
    (Some []) 0 0 = Returns (0, 2, 3).
Proof.
  apply (dimensions_round_trip Z (fun z : Z => print_int z) (fun _ => true) []
           (Some (fun i => i)) None 2 3 0 0
           (matrix_text (fun z : Z => print_int z) (fun i => i) 2 3)
           (fun _ => Some (matrix_text (fun z : Z => print_int z)
                             (fun i => i) 2 3)));
    [vm_compute; reflexivity | reflexivity | vm_compute; lia].
Defined.

(** ** Reading the values back *)

Section ReadBack.
Context {F : Type} (fmt : F -> text) (atof : text -> F).
Variables (data : mem F) (h w : Z).

(** Every value of the matrix is printed as one token of at most
    [FLOAT_STRING_LENGTH - 1] characters. *)
Hypothesis fmt_ok : forall r c, 0 <= r < h -> 0 <= c < w ->
  token_ok (fmt (data (IDX r c w))) /\
  Z.of_nat (length (fmt (data (IDX r c w)))) <= FLOAT_STRING_LENGTH - 1.

Lemma token_ok_eqb : forall t, token_ok t ->
  forall c, In c t ->
  Ascii.eqb c SP = false /\ Ascii.eqb c LF = false /\ Ascii.eqb c NUL = false.
Proof.
  intros t [_ Ht] c Hc. destruct (Ht c Hc) as (H1 & H2 & H3).
  repeat split; now apply Ascii.eqb_neq.
Qed.

(** The text of the columns [col .. col+n-1] of row [r]. *)
Lemma row_chars : forall r, 0 <= r < h -> forall n col c, 0 <= col ->
  col + Z.of_nat n <= w ->
  In c (flat_map (fun col => fmt (data (IDX r col w)) ++ [SP]) (zseq n col)) ->
  Ascii.eqb c LF = false /\ Ascii.eqb c NUL = false.
Proof.
  intros r Hr n col c Hcol Hn Hc. apply in_flat_map in Hc as (k & Hk & Hc).
  apply zseq_In in Hk.
  apply in_app_or in Hc as [Hc | [<- | []]]; [|now split].
  destruct (fmt_ok r k Hr ltac:(lia)) as [Hok _].
  now destruct (token_ok_eqb _ Hok c Hc) as (_ & ? & ?).
Qed.

Lemma row_length : forall r, 0 <= r < h -> forall n col, 0 <= col ->
  col + Z.of_nat n <= w ->
  Z.of_nat (length (flat_map (fun col => fmt (data (IDX r col w)) ++ [SP])
                             (zseq n col))) <= FLOAT_STRING_LENGTH * Z.of_nat n.
Proof.
  intros r Hr; induction n as [|n IH]; intros col Hcol Hn; cbn [zseq flat_map].
  - cbn. unfold FLOAT_STRING_LENGTH. lia.
  - rewrite !length_app. cbn [length].
    destruct (fmt_ok r col Hr ltac:(lia)) as [_ Hlen].
    specialize (IH (col + 1) ltac:(lia) ltac:(lia)).
    unfold FLOAT_STRING_LENGTH in *. lia.
Qed.

Lemma read_tokens_row : forall r, 0 <= r < h ->
  forall n fuel col (out : outbuf F), 0 <= col ->
  col + Z.of_nat n = w -> (n <= fuel)%nat ->
  read_tokens atof fuel
    (strtok (flat_map (fun col => fmt (data (IDX r col w)) ++ [SP]) (zseq n col)
             ++ [LF])) r col w out =
  fold_left (fun out col =>
    store out (IDX r col w) (atof (fmt (data (IDX r col w))))) (zseq n col) out.
Proof.
  intros r Hr; induction n as [|n IH]; intros fuel col out Hcol Hn Hfuel;
    cbn [zseq flat_map fold_left].
  - cbn [app]. destruct fuel as [|fuel]; [reflexivity|].
    change (strtok [LF]) with (Some ([LF], @nil ascii)). cbn [read_tokens].
    replace (col <? w) with false by lia. reflexivity.
  - destruct fuel as [|fuel]; [lia|].
    destruct (fmt_ok r col Hr ltac:(lia)) as [Hok _].
    rewrite <- !app_assoc. cbn [app].
    rewrite strtok_token;
      [| exact (proj1 Hok)
       | intros c Hc; now destruct (token_ok_eqb _ Hok c Hc)].
    cbn [read_tokens]. replace (col <? w) with true by lia.
    apply IH; lia.
Qed.

Lemma read_rows_text : forall m extra r (out : outbuf F),
  0 <= r -> r + Z.of_nat m <= Z.max r h -> 0 <= w ->
  read_rows atof (m + extra) r (FLOAT_STRING_LENGTH * w + 2)
    (flat_map (fun row =>
       flat_map (fun col => fmt (data (IDX row col w)) ++ [SP])
                (lt_values 0 w) ++ [LF]) (zseq m r)) w out =
  fold_left (fun out row =>
    fold_left (fun out col =>
      store out (IDX row col w) (atof (fmt (data (IDX row col w)))))
      (lt_values 0 w) out) (zseq m r) out.
Proof.
  induction m as [|m IH]; intros extra r out Hr Hm Hw;
    cbn [zseq flat_map fold_left Nat.add].
  - destruct extra; reflexivity.
  - cbn [read_rows]. rewrite lt_values_zseq, Z.sub_0_r in *.
    set (line := flat_map (fun col => fmt (data (IDX r col w)) ++ [SP])
                          (zseq (Z.to_nat w) 0)).
    assert (Hin : 0 <= r < h) by lia.
    assert (Hchars : forall c, In c line ->
              Ascii.eqb c LF = false /\ Ascii.eqb c NUL = false).
    { intros c Hc.
      apply (row_chars r Hin (Z.to_nat w) 0 c); [lia | lia | exact Hc]. }
    assert (Hlen : (length line < Z.to_nat (FLOAT_STRING_LENGTH * w + 2 - 1))%nat).
    { pose proof (row_length r Hin (Z.to_nat w) 0 ltac:(lia) ltac:(lia)) as Hl.
      fold line in Hl. unfold FLOAT_STRING_LENGTH in *. lia. }
    rewrite <- !app_assoc. cbn [app].
    unfold fgets.
    destruct (line ++ LF :: _) as [|c0 s0] eqn:Es; [now destruct line|].
    rewrite <- Es.
    rewrite (read_line_full line _ _ (fun c Hc => proj1 (Hchars c Hc)) Hlen).
    rewrite c_str_plain.
    2:{ intros c Hc. apply in_app_or in Hc as [Hc | [<- | []]];
          [now apply Hchars | reflexivity]. }
    unfold line.
    rewrite (read_tokens_row r Hin (Z.to_nat w) (Z.to_nat w) 0 out) by lia.
    now rewrite IH by lia.
Qed.
End ReadBack.

(** X15.  [extract_data] reads back a matrix that [write_data_to_file]
    wrote: when every value is printed as one token of at most 5
    characters and the first line has at most [6 * width + 1] characters
    (what the line buffer holds), it returns 0 and cell [(r, c)] of the
    array holds [atof] of the text printed for it.  It stores to the cells
    [0 .. h*w-1] of the [h] rows written and to nothing else, also when it
    is asked for more rows than the file has: the rows that are missing
    are left as they were, and the status is 0 all the same. *)
Theorem matrix_file_round_trip :
  forall (F : Type) (fmt : F -> text) (atof : text -> F)
         (writable : text -> bool) (path : text)
         (outputs padded_arr : option (mem F)) (data : mem F)
         (h w height : Z) (file : text) (fs : files) (output : outbuf F),
  outputs = Some data \/ (outputs = None /\ padded_arr = Some data) ->
  write_data_to_file fmt writable (Some path) outputs padded_arr h w =
    (0, Some file) ->
  fs path = Some file ->
  (forall r c, 0 <= r < h -> 0 <= c < w ->
     token_ok (fmt (data (IDX r c w))) /\
     Z.of_nat (length (fmt (data (IDX r c w)))) <= FLOAT_STRING_LENGTH - 1) ->
  Z.of_nat (length (header h w)) <= FLOAT_STRING_LENGTH * w + 1 ->
  h <= height ->
  exists out,
    extract_data atof fs (Some path) w height output = Returns (0, out) /\
    written out = written output ++ lt_values 0 (h * w) /\
    (forall r c, 0 <= r < h -> 0 <= c < w ->
       cells out (IDX r c w) = atof (fmt (data (IDX r c w)))) /\
    (forall idx, ~ 0 <= idx < h * w -> cells out idx = cells output idx).
Proof.
  intros F fmt atof writable path outputs padded data h w height file fs output
    Hdata Hwrite Hfs Hfmt Hhead Hheight.
  assert (Hw : 0 <= w) by (unfold FLOAT_STRING_LENGTH in Hhead; lia).
  assert (Efile : file = matrix_text fmt data h w).
  { destruct (writable path) eqn:Ew.
    2:{ unfold write_data_to_file in Hwrite. rewrite Ew in Hwrite.
        discriminate. }
    rewrite (write_text_of_data F fmt writable path outputs padded data h w
               Ew Hdata) in Hwrite.
    congruence. }
  subst file. rewrite matrix_text_header in Hfs.
  unfold extract_data. rewrite Hfs.
  replace (FLOAT_STRING_LENGTH * w + 2 <? 0) with false
    by (unfold FLOAT_STRING_LENGTH; lia).
  (* the first line *)
  set (body := flat_map _ (lt_values 0 h)).
  set (line := print_int h ++ SP :: print_int w).
  assert (Eh : header h w ++ body = line ++ LF :: body).
  { unfold header, line. now rewrite <- !app_assoc. }
  assert (Hline : forall c, In c line -> Ascii.eqb c LF = false).
  { intros c Hc. apply in_app_or in Hc as [Hc | [<- | Hc]]; [|reflexivity|];
      now destruct (print_int_plain _ c Hc) as (_ & ? & _). }
  assert (Hroom : (length line < Z.to_nat (FLOAT_STRING_LENGTH * w + 2 - 1))%nat).
  { replace (header h w) with (line ++ [LF]) in Hhead
      by (unfold header, line; now rewrite <- !app_assoc).
    rewrite length_app in Hhead. cbn [length] in Hhead. lia. }
  rewrite Eh. unfold fgets at 1.
  destruct (line ++ LF :: body) as [|c0 s0] eqn:Es; [now destruct line|].
  rewrite <- Es, (read_line_full line _ body Hline Hroom).
  (* the rows *)
  assert (Ez : lt_values 0 h = zseq (Z.to_nat h) 0)
    by (rewrite lt_values_zseq; do 2 f_equal; lia).
  unfold body. rewrite Ez.
  replace (Z.to_nat height)
    with (Z.to_nat h + (Z.to_nat height - Z.to_nat h))%nat by lia.
  rewrite (read_rows_text fmt atof data h w Hfmt (Z.to_nat h) _ 0 output)
    by lia.
  rewrite <- Ez.
  set (v := fun r c => atof (fmt (data (IDX r c w)))).
  assert (Eout :
    fold_left (fun out row =>
      fold_left (fun out col =>
        store out (IDX row col w) (atof (fmt (data (IDX row col w)))))
        (lt_values 0 w) out) (lt_values 0 h) output =
    fold_left (store_cell w v) (iteration_space h w) output).
  { change (fold_left (store_cell w v) ?l ?s)
      with (omp_for_collapse2 l (fun n k out => store out (IDX n k w) (v n k)) s).
    rewrite <- nested_loops_fold, for_lt_fold.
    apply fold_left_ext_In; intros a n _. now rewrite for_lt_fold. }
  rewrite Eout. eexists; split; [reflexivity|]. split; [|split].
  - rewrite store_cells_written. f_equal. now apply output_cells_zseq.
  - intros r c Hr Hc.
    apply (store_cells_value w v); [| assumption | now apply iteration_space_In].
    intros [n' k'] Hp. apply iteration_space_In in Hp. cbn; lia.
  - intros idx Hidx. apply store_cells_frame.
    change (~ In idx (output_cells h w)).
    rewrite output_cells_zseq, lt_values_In by assumption. lia.
Qed.

Lemma matrix_file_round_trip_witness :
  exists out,
    extract_data atoi
      (fun _ => Some (matrix_text (fun z : Z => print_int z) (fun i => i) 2 2))
      (Some []) 2 3 (fresh 0) = Returns (0, out) /\
    written out = [0; 1; 2; 3].
Proof.
  destruct (matrix_file_round_trip Z (fun z : Z => print_int z) atoi
              (fun _ => true) [] (Some (fun i => i)) None (fun i => i) 2 2 3
              (matrix_text (fun z : Z => print_int z) (fun i => i) 2 2)
              (fun _ => Some (matrix_text (fun z : Z => print_int z)
                                (fun i => i) 2 2))
              (fresh 0)) as (out & Hout & Hwr & _).
  - now left.
  - vm_compute; reflexivity.
  - reflexivity.
  - intros r c Hr Hc.
    assert (Hrc : (r = 0 \/ r = 1) /\ (c = 0 \/ c = 1)) by lia.
    destruct Hrc as [[-> | ->] [-> | ->]];
      (split;
       [split; [discriminate | intros ch [<- | []]; repeat split; discriminate]
       | vm_compute; discriminate]).
  - vm_compute; discriminate.
  - lia.
  - exists out. split; assumption.
Defined.

(** ** A first line longer than [firstline] *)

Lemma read_line_cut : forall pre room rest,
  length pre = room ->
  (forall c, In c pre -> Ascii.eqb c LF = false) ->
  read_line room (pre ++ rest) = (pre, rest).
Proof.
  induction pre as [|c pre IH]; intros room rest Hlen Hpre;
    destruct room as [|room]; try discriminate; cbn.
  - reflexivity.
  - rewrite (Hpre c) by now left.
    rewrite IH; [reflexivity | cbn in Hlen; lia |].
    intros c' Hc'. apply Hpre. now right.
Qed.

(** X16.  [extract_dimensions] looks at the first 15 characters of the
    first line only: two files that start with the same 15 characters,
    none of them a newline, give the same result, whatever follows.  A
    first line "height width" of more than 15 characters is thus read with
    its width cut short. *)
Theorem extract_dimensions_cuts_line :
  forall (fs1 fs2 : files) (path pre rest1 rest2 : text) (h0 w0 : Z),
  length pre = 15%nat ->
  (forall c, In c pre -> Ascii.eqb c LF = false) ->
  fs1 path = Some (pre ++ rest1) -> fs2 path = Some (pre ++ rest2) ->
  extract_dimensions fs1 (Some path) h0 w0 =
  extract_dimensions fs2 (Some path) h0 w0.
Proof.
  intros fs1 fs2 path pre rest1 rest2 h0 w0 Hlen Hpre H1 H2.
  unfold extract_dimensions. rewrite H1, H2. unfold fgets.
  change (Z.to_nat (16 - 1)) with 15%nat.
  destruct pre as [|c pre]; [discriminate|].
  cbn [app]. change (c :: pre ++ ?r) with ((c :: pre) ++ r).
  now rewrite !(read_line_cut (c :: pre) 15 _ Hlen Hpre).
Qed.

Lemma extract_dimensions_cuts_line_witness :
  extract_dimensions
    (fun _ => Some (header 12345678 12345678)) (Some []) 0 0 =
  Returns (0, 12345678, 123456).
Proof.
  transitivity
    (extract_dimensions
       (fun _ => Some (firstn 15 (header 12345678 12345678) ++ []))
       (Some []) 0 0); [|vm_compute; reflexivity].
  apply (extract_dimensions_cuts_line
           (fun _ => Some (header 12345678 12345678))
           (fun _ => Some (firstn 15 (header 12345678 12345678) ++ []))
           [] (firstn 15 (header 12345678 12345678))
           (skipn 15 (header 12345678 12345678)) [] 0 0).
  - vm_compute; reflexivity.
  - intros c Hc. vm_compute in Hc.
    repeat (destruct Hc as [<- | Hc]; [reflexivity|]). destruct Hc.
  - vm_compute; reflexivity.
  - reflexivity.
Defined.

(** ** Whatever the file holds *)

Lemma read_tokens_in_row :
  forall (F : Type) (atof : text -> F) fuel token row col width (out : outbuf F),
  0 <= col ->
  exists l,
    written (read_tokens atof fuel token row col width out) = written out ++ l /\
    forall idx, In idx l ->
      exists c, 0 <= c < width /\ idx = IDX row c width.
Proof.
  intros F atof; induction fuel as [|fuel IH];
    intros token row col width out Hcol.
  - exists []. cbn. split; [now rewrite app_nil_r | intros idx []].
  - destruct token as [[tok rest]|]; cbn [read_tokens].
    2:{ exists []. split; [now rewrite app_nil_r | intros idx []]. }
    destruct (col <? width) eqn:E.
    2:{ exists []. split; [now rewrite app_nil_r | intros idx []]. }
    destruct (IH (strtok rest) row (col + 1) width
                (store out (IDX row col width) (atof tok)) ltac:(lia))
      as (l & Hl & Hin).
    exists (IDX row col width :: l). split.
    + rewrite Hl. cbn. now rewrite <- app_assoc.
    + intros idx [<- | Hidx]; [exists col; split; [lia | reflexivity]|].
      now apply Hin.
Qed.

Lemma read_rows_in_rows :
  forall (F : Type) (atof : text -> F) count row bs stream width (out : outbuf F),
  0 <= row ->
  exists l,
    written (read_rows atof count row bs stream width out) = written out ++ l /\
    forall idx, In idx l ->
      exists r c, row <= r < row + Z.of_nat count /\ 0 <= c < width /\
                  idx = IDX r c width.
Proof.
  intros F atof; induction count as [|count IH];
    intros row bs stream width out Hrow.
  - exists []. cbn. split; [now rewrite app_nil_r | intros idx []].
  - cbn [read_rows]. destruct (fgets bs stream) as [[buffer stream']|].
    2:{ exists []. split; [now rewrite app_nil_r | intros idx []]. }
    destruct (read_tokens_in_row F atof (Z.to_nat width) (strtok (c_str buffer))
                row 0 width out ltac:(lia)) as (l1 & Hl1 & Hin1).
    destruct (IH (row + 1) bs stream' width
                (read_tokens atof (Z.to_nat width) (strtok (c_str buffer))
                   row 0 width out) ltac:(lia)) as (l2 & Hl2 & Hin2).
    exists (l1 ++ l2). split.
    + rewrite Hl2, Hl1. now rewrite <- app_assoc.
    + intros idx Hidx. apply in_app_or in Hidx as [Hidx | Hidx].
      * destruct (Hin1 idx Hidx) as (c & Hc & ->).
        exists row, c. repeat split; lia.
      * destruct (Hin2 idx Hidx) as (r & c & Hr & Hc & ->).
        exists r, c. repeat split; lia.
Qed.

(** X17.  Whatever the file holds, [extract_data] of the variant with
    logical zero padding stores only to cells inside the
    [height * width] elements of the array; with a [NULL] path or a file
    that cannot be opened it returns 1 and leaves the array as it was. *)
Theorem extract_data_stays_inside :
  forall (F : Type) (atof : text -> F) (fs : files) (filepath : option text)
         (width height status : Z) (output out : outbuf F),
  extract_data atof fs filepath width height output = Returns (status, out) ->
  (status = 0 \/ status = 1) /\
  (status = 1 -> out = output) /\
  (filepath = None \/ (exists path, filepath = Some path /\ fs path = None) ->
   status = 1) /\
  exists l,
    written out = written output ++ l /\
    forall idx, In idx l -> 0 <= idx < height * width.
Proof.
  intros F atof fs filepath width height status output out Hrun.
  unfold extract_data in Hrun.
  assert (Hnil : exists l : list Z,
            written output = written output ++ l /\
            forall idx, In idx l -> 0 <= idx < height * width).
  { exists []. split; [now rewrite app_nil_r | intros idx []]. }
  destruct filepath as [path|].
  2:{ injection Hrun as <- <-. repeat split; auto. }
  destruct (fs path) as [stream|] eqn:Efs.
  2:{ injection Hrun as <- <-. repeat split; auto. }
  destruct (FLOAT_STRING_LENGTH * width + 2 <? 0); [discriminate|].
  injection Hrun as <- <-.
  split; [now left|]. split; [discriminate|]. split.
  - intros [Hnone | (p & Hp & Hfs)]; [discriminate|].
    injection Hp as <-. congruence.
  - match goal with
    | |- context [read_rows atof ?count 0 ?bs ?s width output] =>
        destruct (read_rows_in_rows F atof count 0 bs s width output ltac:(lia))
          as (l & Hl & Hin)
    end.
    exists l. split; [exact Hl|].
    intros idx Hidx. destruct (Hin idx Hidx) as (r & c & Hr & Hc & ->).
    unfold IDX. split; nia.
Qed.

Lemma extract_data_stays_inside_witness :
  exists l,
    written (read_rows atoi 1 0 8 (map ascii_of_nat [55; 32; 56; 32; 57; 10]%nat) 1
               (fresh 0)) = [] ++ l /\
    forall idx, In idx l -> 0 <= idx < 1 * 1.
Proof.
  destruct (extract_data_stays_inside Z atoi
              (fun _ => Some (map ascii_of_nat
                                [10; 55; 32; 56; 32; 57; 10]%nat))
              (Some []) 1 1 0 (fresh 0)
              (read_rows atoi 1 0 8 (map ascii_of_nat [55; 32; 56; 32; 57; 10]%nat)
                 1 (fresh 0)) eq_refl) as (_ & _ & _ & Hl).
  exact Hl.
Defined.
